(** * LocalFinData: the technical-indicator batch engine and the retention sweep

    A shallow embedding of [scripts/calculate_indicators_batch.py] and of the
    helper functions of [scripts/generate_stock_data_with_indicators.py].

    Numbers.  A pandas float cell is modelled by [fval]: an exact rational
    ([Qc], canonical fractions, so Leibniz equality is numeric equality) or one
    of the IEEE special values [PInf], [NInf], [NaN].  [NaN] is the
    "undefined / sentinel" value of the specification.  Rounding error,
    overflow and the sign of zero are abstracted: arithmetic on finite values
    is exact and there is a single zero, which behaves as IEEE [+0.0].  The
    square root used by the rolling standard deviation is a parameter of the
    development.

    pandas.  [ewm], [rolling], [shift], [diff], [pct_change], [where],
    [cumsum], [round] are library code; they are modelled here from their
    documented behaviour with the default arguments the scripts use. *)

From Stdlib Require Import QArith Qcanon Qround Lqa.
From stdpp Require Import base numbers list strings gmap pretty.

(** rational arithmetic is kept folded by [simpl] *)
#[global] Arguments Qcplus : simpl never.
#[global] Arguments Qcmult : simpl never.
#[global] Arguments Qcopp : simpl never.
#[global] Arguments Qcminus : simpl never.
#[global] Arguments Qcdiv : simpl never.
#[global] Arguments Qcinv : simpl never.
#[global] Arguments Q2Qc : simpl never.
#[global] Arguments Qc_of_Z : simpl never.
#[global] Arguments Qcle : simpl never.
#[global] Arguments Qclt : simpl never.

Local Open Scope Qc_scope.

(** ** Floating-point cells *)

Inductive fval : Type :=
  | Fin (q : Qc)
  | PInf
  | NInf
  | NaN.

Global Instance fval_eq_dec : EqDecision fval.
Proof. solve_decision. Defined.

Global Instance fval_inhabited : Inhabited fval := populate NaN.

Definition fz (z : Z) : fval := Fin (Qc_of_Z z).
Definition fq (n : Z) (d : positive) : fval := Fin (Q2Qc (n # d)).

Definition isnan (x : fval) : bool :=
  match x with NaN => true | _ => false end.

Definition notna (x : fval) : bool := negb (isnan x).

Definition is_finite (x : fval) : Prop :=
  match x with Fin _ => True | _ => False end.

(** [np.isfinite(x)] *)
Definition isfinite (x : fval) : bool :=
  match x with Fin _ => true | _ => false end.

Definition Qc_ltb (a b : Qc) : bool := bool_decide (a < b).
Definition Qc_eqb (a b : Qc) : bool := bool_decide (a = b).

(** [-x] *)
Definition fneg (x : fval) : fval :=
  match x with
  | Fin q => Fin (- q)
  | PInf => NInf
  | NInf => PInf
  | NaN => NaN
  end.

(** [x + y] *)
Definition fadd (x y : fval) : fval :=
  match x, y with
  | NaN, _ | _, NaN => NaN
  | Fin a, Fin b => Fin (a + b)
  | PInf, NInf | NInf, PInf => NaN
  | PInf, _ | _, PInf => PInf
  | NInf, _ | _, NInf => NInf
  end.

(** [x - y] *)
Definition fsub (x y : fval) : fval := fadd x (fneg y).

(** the infinity whose sign is that of [q]; [0 * inf] is NaN *)
Definition inf_signed (q : Qc) (pos : bool) : fval :=
  if Qc_eqb q 0 then NaN
  else if Qc_ltb 0 q then (if pos then PInf else NInf)
  else (if pos then NInf else PInf).

(** [x * y] *)
Definition fmul (x y : fval) : fval :=
  match x, y with
  | NaN, _ | _, NaN => NaN
  | Fin a, Fin b => Fin (a * b)
  | Fin a, PInf | PInf, Fin a => inf_signed a true
  | Fin a, NInf | NInf, Fin a => inf_signed a false
  | PInf, PInf | NInf, NInf => PInf
  | PInf, NInf | NInf, PInf => NInf
  end.

(** [x / y]; a finite value over zero is an infinity, [0 / 0] is NaN *)
Definition fdiv (x y : fval) : fval :=
  match x, y with
  | NaN, _ | _, NaN => NaN
  | Fin a, Fin b =>
      if Qc_eqb b 0 then
        (if Qc_eqb a 0 then NaN else if Qc_ltb 0 a then PInf else NInf)
      else Fin (a / b)
  | Fin _, (PInf | NInf) => Fin 0
  | PInf, Fin b => if Qc_ltb b 0 then NInf else PInf
  | NInf, Fin b => if Qc_ltb b 0 then PInf else NInf
  | (PInf | NInf), (PInf | NInf) => NaN
  end.

(** [abs(x)] *)
Definition fabs (x : fval) : fval :=
  match x with
  | Fin q => if Qc_ltb q 0 then Fin (- q) else Fin q
  | PInf | NInf => PInf
  | NaN => NaN
  end.

(** [x < y]; every comparison with NaN is False *)
Definition flt (x y : fval) : bool :=
  match x, y with
  | NaN, _ | _, NaN => false
  | Fin a, Fin b => Qc_ltb a b
  | NInf, (Fin _ | PInf) => true
  | Fin _, PInf => true
  | _, _ => false
  end.

(** [x > y] *)
Definition fgt (x y : fval) : bool := flt y x.

(** [x == y] on floats: NaN is not equal to itself *)
Definition feqb (x y : fval) : bool :=
  match x, y with
  | NaN, _ | _, NaN => false
  | _, _ => bool_decide (x = y)
  end.

(** [x != y] *)
Definition fneb (x y : fval) : bool := negb (feqb x y).

(** Python's builtin [min(a, b, c)]: keeps the first argument unless a later
    one compares strictly smaller. *)
Definition py_min2 (a b : fval) : fval := if flt b a then b else a.
Definition py_min3 (a b c : fval) : fval := py_min2 (py_min2 a b) c.
Definition py_max2 (a b : fval) : fval := if fgt b a then b else a.
Definition py_max3 (a b c : fval) : fval := py_max2 (py_max2 a b) c.

(** numpy's [rint]: round half to even *)
Definition rint (q : Qc) : Z :=
  let f := Qfloor q in
  let r := q - Qc_of_Z f in
  if Qc_ltb r (Q2Qc (1 # 2)) then f
  else if Qc_ltb (Q2Qc (1 # 2)) r then (f + 1)%Z
  else if Z.even f then f else (f + 1)%Z.

(** [np.round(x, 2)] = [rint(x * 100) / 100] *)
Definition round2 (x : fval) : fval :=
  match x with
  | Fin q => Fin (Qc_of_Z (rint (q * Qc_of_Z 100)) / Qc_of_Z 100)
  | _ => x
  end.

Local Close Scope Qc_scope.

(** ** pandas Series *)

Abbreviation Series := (list fval).

Definition sadd : Series → Series → Series := zip_with fadd.
Definition ssub : Series → Series → Series := zip_with fsub.
Definition smul : Series → Series → Series := zip_with fmul.
Definition sdiv : Series → Series → Series := zip_with fdiv.
Definition sabs : Series → Series := map fabs.
Definition sneg : Series → Series := map fneg.
(** [c * s], [s / c], [c - s], ... with a Python scalar [c] *)
Definition scale (c : fval) : Series → Series := map (fmul c).
Definition sdivc (c : fval) : Series → Series := map (λ x, fdiv x c).
Definition sround2 : Series → Series := map round2.

(** [s.shift(n)], [n >= 0]: the value of [n] rows earlier, NaN on the first
    [n] rows *)
Definition shift (n : nat) (s : Series) : Series :=
  take (length s) (replicate n NaN ++ s).

(** [s.diff()] *)
Definition diff (s : Series) : Series := ssub s (shift 1 s).

(** forward fill, the default [fill_method='pad'] of [pct_change] *)
Fixpoint ffill_from (last : fval) (s : Series) : Series :=
  match s with
  | [] => []
  | x :: r => let v := if isnan x then last else x in v :: ffill_from v r
  end.
Definition ffill : Series → Series := ffill_from NaN.

(** [s.pct_change()] = [s / s.shift(1) - 1] after forward fill *)
Definition pct_change (s : Series) : Series :=
  let f := ffill s in map (λ x, fsub x (fz 1)) (sdiv f (shift 1 f)).

(** [s.where(cond, other)]: keep the cell where [cond] holds *)
Definition where_ (cond : list bool) (s : Series) (other : fval) : Series :=
  zip_with (λ (c : bool) x, if c then x else other) cond s.

(** [s.fillna(v)] *)
Definition fillna (v : fval) : Series → Series :=
  map (λ x, if isnan x then v else x).

(** [s.cumsum()], [skipna=True]: a NaN cell stays NaN and does not enter the
    running sum *)
Fixpoint cumsum_from (acc : fval) (s : Series) : Series :=
  match s with
  | [] => []
  | x :: r =>
      if isnan x then NaN :: cumsum_from acc r
      else let a := fadd acc x in a :: cumsum_from a r
  end.
Definition cumsum : Series → Series := cumsum_from (fz 0).

(** row-wise [max] / [min] of [pd.concat([...], axis=1)], [skipna=True] *)
Definition fmax_skipna (a b : fval) : fval :=
  if isnan a then b else if isnan b then a else if flt a b then b else a.
Definition fmin_skipna (a b : fval) : fval :=
  if isnan a then b else if isnan b then a else if flt b a then b else a.
Definition row_max3 (a b c : Series) : Series :=
  zip_with fmax_skipna (zip_with fmax_skipna a b) c.
Definition row_min2 (a b : Series) : Series := zip_with fmin_skipna a b.

(** *** Exponentially weighted mean: [s.ewm(span=span, adjust=False).mean()]

    The loop of pandas' [ewm] aggregation with [adjust=False],
    [ignore_na=False], [min_periods=0]: [weighted] is the running mean and
    [old_wt] the weight it carries.  pandas rejects [span < 1].  Before the
    loop pandas replaces every infinite cell of the input by NaN, so an
    observation is a cell that holds a real number. *)

Definition ewm_alpha (span : nat) : Qc :=
  let com := ((Qc_of_Z (Z.of_nat span) - 1) / 2)%Qc in
  (1 / (1 + com))%Qc.

Definition ewm_step (alpha : Qc) (weighted : fval) (old_wt : Qc) (cur : fval)
  : fval * Qc :=
  if notna weighted then
    let old_wt' := (old_wt * (1 - alpha))%Qc in
    if isfinite cur then
      ((if fneb weighted cur then
          fdiv (fadd (fmul (Fin old_wt') weighted) (fmul (Fin alpha) cur))
               (Fin (old_wt' + alpha)%Qc)
        else weighted), 1%Qc)
    else (weighted, old_wt')
  else if isfinite cur then (cur, old_wt)
  else (weighted, old_wt).

Fixpoint ewm_loop (alpha : Qc) (weighted : fval) (old_wt : Qc) (s : Series)
  : Series :=
  match s with
  | [] => []
  | cur :: r =>
      let '(w, o) := ewm_step alpha weighted old_wt cur in
      w :: ewm_loop alpha w o r
  end.

Definition ewm_mean (span : nat) (s : Series) : Series :=
  match s with
  | [] => []
  | x0 :: r =>
      let weighted := if isfinite x0 then x0 else NaN in
      weighted :: ewm_loop (ewm_alpha span) weighted 1%Qc r
  end.

(** *** Rolling windows: [s.rolling(window=w)], [min_periods = w]

    The window at row [i] is the [w] cells ending at [i]; the aggregate is
    NaN while the window is not full or holds a cell that is not a real
    number (pandas replaces the infinite cells of the input by NaN before
    it aggregates, and a window with a NaN has too few observations). *)

Definition window_at (w : nat) (s : Series) (i : nat) : option (list fval) :=
  if decide (w ≤ S i) then Some (take w (drop (S i - w) s)) else None.

Definition rolling_apply (w : nat) (f : list fval → fval) (s : Series)
  : Series :=
  imap (λ i _, match window_at w s i with
               | Some win => if forallb isfinite win then f win else NaN
               | None => NaN
               end) s.

Definition fsum (win : list fval) : fval := foldl fadd (fz 0) win.
Definition flen (win : list fval) : fval := fz (Z.of_nat (length win)).
Definition fmean (win : list fval) : fval := fdiv (fsum win) (flen win).

(** [np.max] / [np.min] of a window without NaN *)
Definition fmaxl (win : list fval) : fval :=
  match win with
  | [] => NaN
  | x :: r => foldl (λ m y, if flt m y then y else m) x r
  end.
Definition fminl (win : list fval) : fval :=
  match win with
  | [] => NaN
  | x :: r => foldl (λ m y, if flt y m then y else m) x r
  end.

(** [x.argmax()] / [x.argmin()]: position of the first extremum *)
Fixpoint argbest (better : fval → fval → bool) (best : fval) (bi i : nat)
    (win : list fval) : nat :=
  match win with
  | [] => bi
  | y :: r => if better y best then argbest better y i (S i) r
              else argbest better best bi (S i) r
  end.
Definition argmax (win : list fval) : fval :=
  match win with
  | [] => NaN
  | x :: r => fz (Z.of_nat (argbest fgt x 0 1 r))
  end.
Definition argmin (win : list fval) : fval :=
  match win with
  | [] => NaN
  | x :: r => fz (Z.of_nat (argbest flt x 0 1 r))
  end.

(** [np.dot(x, weights) / weights.sum()] with [weights = 1 .. period] *)
Definition wma_window (win : list fval) : fval :=
  let weights := map (λ i, fz (Z.of_nat i)) (seq 1 (length win)) in
  fdiv (fsum (zip_with fmul win weights)) (fsum weights).

(** [np.abs(x - x.mean()).mean()] *)
Definition mad_window (win : list fval) : fval :=
  let m := fmean win in fmean (map (λ x, fabs (fsub x m)) win).

Definition rolling_mean (w : nat) : Series → Series := rolling_apply w fmean.
Definition rolling_sum (w : nat) : Series → Series := rolling_apply w fsum.
Definition rolling_max (w : nat) : Series → Series := rolling_apply w fmaxl.
Definition rolling_min (w : nat) : Series → Series := rolling_apply w fminl.

Section WithSqrt.

(** the square root of a non-negative rational, as the float unit computes
    it; the development is parametric in it *)
Variable qsqrt : Qc → Qc.

Definition fsqrt (x : fval) : fval :=
  match x with
  | Fin q => if Qc_ltb q 0 then NaN else Fin (qsqrt q)
  | PInf => PInf
  | NInf | NaN => NaN
  end.

(** sample standard deviation ([ddof=1]) of a window *)
Definition std_window (win : list fval) : fval :=
  let m := fmean win in
  let ss := fsum (map (λ x, fmul (fsub x m) (fsub x m)) win) in
  fsqrt (fdiv ss (fsub (flen win) (fz 1))).

Definition rolling_std (w : nat) : Series → Series := rolling_apply w std_window.

(** ** The indicator families of [calculate_all_indicators]

    Each definition is the body of one numbered block of the function, with
    the names the source uses. *)

Definition c100 : fval := fz 100.

(** [(high + low + close) / 3] *)
Definition typical_price (high low close : Series) : Series :=
  sdivc (fz 3) (sadd (sadd high low) close).

(** [pd.concat([high - low, abs(high - close.shift()),
                abs(low - close.shift())], axis=1).max(axis=1)] *)
Definition true_range (high low close : Series) : Series :=
  row_max3 (ssub high low)
           (sabs (ssub high (shift 1 close)))
           (sabs (ssub low (shift 1 close))).

(** 1. MACD *)
Definition macd (close : Series) : Series :=
  ssub (ewm_mean 12 close) (ewm_mean 26 close).
Definition macd_signal (close : Series) : Series := ewm_mean 9 (macd close).
Definition macd_hist (close : Series) : Series :=
  ssub (macd close) (macd_signal close).

(** 4. WMA *)
Definition wma (series : Series) (period : nat) : Series :=
  rolling_apply period wma_window series.

(** 5. DEMA *)
Definition dema (period : nat) (close : Series) : Series :=
  let ema := ewm_mean period close in
  let ema_ema := ewm_mean period ema in
  ssub (scale (fz 2) ema) ema_ema.

(** 6. TEMA *)
Definition tema (period : nat) (close : Series) : Series :=
  let ema1 := ewm_mean period close in
  let ema2 := ewm_mean period ema1 in
  let ema3 := ewm_mean period ema2 in
  sadd (ssub (scale (fz 3) ema1) (scale (fz 3) ema2)) ema3.

(** 7. TRIX *)
Definition trix (close : Series) : Series :=
  let ema1 := ewm_mean 15 close in
  let ema2 := ewm_mean 15 ema1 in
  let ema3 := ewm_mean 15 ema2 in
  scale c100 (pct_change ema3).
Definition trix_signal (close : Series) : Series := ewm_mean 9 (trix close).

(** 8. RSI *)
Definition rsi_gain (period : nat) (close : Series) : Series :=
  let delta := diff close in
  rolling_mean period (where_ (map (λ d, fgt d (fz 0)) delta) delta (fz 0)).
Definition rsi_loss (period : nat) (close : Series) : Series :=
  let delta := diff close in
  rolling_mean period
    (sneg (where_ (map (λ d, flt d (fz 0)) delta) delta (fz 0))).
Definition rsi_of_rs (rs : fval) : fval :=
  fsub c100 (fdiv c100 (fadd (fz 1) rs)).
Definition rsi (period : nat) (close : Series) : Series :=
  let gain := rsi_gain period close in
  let loss := rsi_loss period close in
  let rs := sdiv gain loss in
  map rsi_of_rs rs.

(** 9. CCI *)
Definition cci (period : nat) (high low close : Series) : Series :=
  let tp := typical_price high low close in
  let sma_tp := rolling_mean period tp in
  let mad := rolling_apply period mad_window tp in
  sdiv (ssub tp sma_tp) (scale (fq 15 1000) mad).

(** 10. ROC *)
Definition roc (period : nat) (close : Series) : Series :=
  scale c100 (sdiv (ssub close (shift period close)) (shift period close)).

(** 11. Momentum *)
Definition mom (period : nat) (close : Series) : Series :=
  ssub close (shift period close).

(** 12. Williams %R *)
Definition willr (period : nat) (high low close : Series) : Series :=
  let highest_high := rolling_max period high in
  let lowest_low := rolling_min period low in
  scale (fz (-100))
        (sdiv (ssub highest_high close) (ssub highest_high lowest_low)).

(** 13. Stochastic oscillator *)
Definition stoch_k (period : nat) (high low close : Series) : Series :=
  let lowest_low := rolling_min period low in
  let highest_high := rolling_max period high in
  scale c100 (sdiv (ssub close lowest_low) (ssub highest_high lowest_low)).
Definition stoch_d (period : nat) (high low close : Series) : Series :=
  rolling_mean 3 (stoch_k period high low close).
Definition stoch_j (period : nat) (high low close : Series) : Series :=
  ssub (scale (fz 3) (stoch_k period high low close))
       (scale (fz 2) (stoch_d period high low close)).

(** 14. Ultimate oscillator *)
Definition uo (high low close : Series) : Series :=
  let bp := ssub close (row_min2 low (shift 1 close)) in
  let tr := true_range high low close in
  let avg7 := sdiv (rolling_sum 7 bp) (rolling_sum 7 tr) in
  let avg14 := sdiv (rolling_sum 14 bp) (rolling_sum 14 tr) in
  let avg28 := sdiv (rolling_sum 28 bp) (rolling_sum 28 tr) in
  scale c100
    (sdivc (fz 7) (sadd (sadd (scale (fz 4) avg7) (scale (fz 2) avg14)) avg28)).

(** 15. Bollinger bands *)
Definition bb_middle (period : nat) (close : Series) : Series :=
  rolling_mean period close.
Definition bb_upper (period : nat) (close : Series) : Series :=
  sadd (rolling_mean period close) (scale (fz 2) (rolling_std period close)).
Definition bb_lower (period : nat) (close : Series) : Series :=
  ssub (rolling_mean period close) (scale (fz 2) (rolling_std period close)).
Definition bb_width (period : nat) (close : Series) : Series :=
  scale c100
    (sdiv (ssub (bb_upper period close) (bb_lower period close))
          (bb_middle period close)).
Definition bb_pct (period : nat) (close : Series) : Series :=
  sdiv (ssub close (bb_lower period close))
       (ssub (bb_upper period close) (bb_lower period close)).

(** 16. ATR *)
Definition atr (period : nat) (high low close : Series) : Series :=
  rolling_mean period (true_range high low close).

(** 18. Keltner channels; [atr] is the column [atr_14] computed above *)
Definition kc_middle (close : Series) : Series := ewm_mean 20 close.
Definition kc_upper (high low close : Series) : Series :=
  sadd (ewm_mean 20 close) (scale (fz 2) (atr 14 high low close)).
Definition kc_lower (high low close : Series) : Series :=
  ssub (ewm_mean 20 close) (scale (fz 2) (atr 14 high low close)).

(** 19. Donchian channels *)
Definition dc_upper (high : Series) : Series := rolling_max 20 high.
Definition dc_lower (low : Series) : Series := rolling_min 20 low.
Definition dc_middle (high low : Series) : Series :=
  sdivc (fz 2) (sadd (dc_upper high) (dc_lower low)).

(** 20. OBV: the loop over [i in range(1, len(close))]; [prev] is
    [close.iloc[i-1]] and [last] is [obv[-1]] *)
Definition obv_next (prev last c v : fval) : fval :=
  if fgt c prev then fadd last v
  else if flt c prev then fsub last v
  else last.
Fixpoint obv_loop (prev last : fval) (cv : list (fval * fval)) : Series :=
  match cv with
  | [] => []
  | (c, v) :: r =>
      let o := obv_next prev last c v in o :: obv_loop c o r
  end.
Definition obv (close volume : Series) : Series :=
  fz 0 :: match close with
          | [] => []
          | c0 :: cs => obv_loop c0 (fz 0) (zip cs (tail volume))
          end.

(** 22. Volume ratio *)
Definition vol_ratio (volume : Series) : Series :=
  sdiv volume (rolling_mean 20 volume).

(** 23. MFI *)
Definition mfi (high low close volume : Series) : Series :=
  let tp := typical_price high low close in
  let mf := smul tp volume in
  let positive_mf :=
    rolling_sum 14 (where_ (zip_with fgt tp (shift 1 tp)) mf (fz 0)) in
  let negative_mf :=
    rolling_sum 14 (where_ (zip_with flt tp (shift 1 tp)) mf (fz 0)) in
  map rsi_of_rs (sdiv positive_mf negative_mf).

(** 24. A/D line *)
Definition mfm (high low close : Series) : Series :=
  sdiv (ssub (ssub close low) (ssub high close)) (ssub high low).
Definition ad_line (high low close volume : Series) : Series :=
  let mfv := smul (mfm high low close) volume in
  cumsum mfv.

(** 25. VWAP; [tp] is the typical price of block 23 *)
Definition vwap (high low close volume : Series) : Series :=
  let tp := typical_price high low close in
  sdiv (cumsum (smul tp volume)) (cumsum volume).

(** 26. CMF *)
Definition cmf (high low close volume : Series) : Series :=
  let mfv := smul (mfm high low close) volume in
  sdiv (rolling_sum 20 mfv) (rolling_sum 20 volume).

(** 27. ADX *)
Definition pos_dm (high low : Series) : Series :=
  let high_diff := diff high in
  let low_diff := sneg (diff low) in
  where_ (zip_with andb (zip_with fgt high_diff low_diff)
                        (map (λ d, fgt d (fz 0)) high_diff))
         high_diff (fz 0).
Definition neg_dm (high low : Series) : Series :=
  let high_diff := diff high in
  let low_diff := sneg (diff low) in
  where_ (zip_with andb (zip_with fgt low_diff high_diff)
                        (map (λ d, fgt d (fz 0)) low_diff))
         low_diff (fz 0).
Definition pos_di (high low close : Series) : Series :=
  let atr := rolling_mean 14 (true_range high low close) in
  scale c100 (sdiv (rolling_mean 14 (pos_dm high low)) atr).
Definition neg_di (high low close : Series) : Series :=
  let atr := rolling_mean 14 (true_range high low close) in
  scale c100 (sdiv (rolling_mean 14 (neg_dm high low)) atr).
Definition adx (high low close : Series) : Series :=
  let pdi := pos_di high low close in
  let ndi := neg_di high low close in
  let dx := sdiv (scale c100 (sabs (ssub pdi ndi))) (sadd pdi ndi) in
  rolling_mean 14 dx.

(** 28. Aroon *)
Definition aroon_up (high : Series) : Series :=
  scale c100 (sdivc (fz 25) (rolling_apply 26 argmax high)).
Definition aroon_down (low : Series) : Series :=
  scale c100 (sdivc (fz 25) (rolling_apply 26 argmin low)).
Definition aroon_osc (high low : Series) : Series :=
  ssub (aroon_up high) (aroon_down low).

(** 29. Pivot points *)
Definition pivot (high low close : Series) : Series :=
  sdivc (fz 3) (sadd (sadd (shift 1 high) (shift 1 low)) (shift 1 close)).
Definition r1 (high low close : Series) : Series :=
  ssub (scale (fz 2) (pivot high low close)) (shift 1 low).
Definition r2 (high low close : Series) : Series :=
  sadd (pivot high low close) (ssub (shift 1 high) (shift 1 low)).
Definition s1 (high low close : Series) : Series :=
  ssub (scale (fz 2) (pivot high low close)) (shift 1 high).
Definition s2 (high low close : Series) : Series :=
  ssub (pivot high low close) (ssub (shift 1 high) (shift 1 low)).

(** 30. Parabolic SAR.  [sar_last] is [sar[-1]]; a bar is the pair
    [(high.iloc[i], low.iloc[i])], [p1] the bar [i-1] and [p2] the bar [i-2]
    (the bar [i-1] again when [i = 1]). *)
Record sar_state : Type := SarState {
  uptrend : bool;
  sar_last : fval;
  ep : fval;
  af_current : fval
}.

Definition af : fval := fq 2 100.
Definition max_af : fval := fq 2 10.

Definition sar_step (st : sar_state) (bar p1 p2 : fval * fval) : sar_state :=
  let '(hi, lo) := bar in
  if uptrend st then
    let sar_value :=
      fadd (sar_last st) (fmul (af_current st) (fsub (ep st) (sar_last st))) in
    let sar_value := py_min3 sar_value (snd p1) (snd p2) in
    let '(ep1, af1) :=
      if fgt hi (ep st)
      then (hi, py_min2 (fadd (af_current st) af) max_af)
      else (ep st, af_current st) in
    if flt lo sar_value
    then SarState false ep1 lo af
    else SarState true sar_value ep1 af1
  else
    let sar_value :=
      fsub (sar_last st) (fmul (af_current st) (fsub (sar_last st) (ep st))) in
    let sar_value := py_max3 sar_value (fst p1) (fst p2) in
    let '(ep1, af1) :=
      if flt lo (ep st)
      then (lo, py_min2 (fadd (af_current st) af) max_af)
      else (ep st, af_current st) in
    if fgt hi sar_value
    then SarState true ep1 hi af
    else SarState false sar_value ep1 af1.

Fixpoint sar_loop (st : sar_state) (p1 p2 : fval * fval)
    (bars : list (fval * fval)) : Series :=
  match bars with
  | [] => []
  | bar :: r =>
      let st' := sar_step st bar p1 p2 in
      sar_last st' :: sar_loop st' bar p1 r
  end.

(** [None] is the [IndexError] of [low.iloc[0]] on an empty frame *)
Definition sar (high low : Series) : option Series :=
  match zip high low with
  | [] => None
  | (h0, l0) :: r =>
      Some (l0 :: sar_loop (SarState true l0 h0 af) (h0, l0) (h0, l0) r)
  end.

(** 31. Price change *)
Definition price_change (close : Series) : Series := diff close.
Definition price_change_pct (close : Series) : Series :=
  scale c100 (pct_change close).

(** 34., 35. *)
Definition median_price (high low : Series) : Series :=
  sdivc (fz 2) (sadd high low).
Definition weighted_close (high low close : Series) : Series :=
  sdivc (fz 4) (sadd (sadd high low) (scale (fz 2) close)).

(** 36. Intraday intensity *)
Definition intraday_intensity (high low close volume : Series) : Series :=
  smul (sdiv (ssub (ssub (scale (fz 2) close) high) low) (ssub high low))
       volume.

(** the f-string [f'{prefix}{period}'] *)
Definition fname (prefix : string) (period : nat) : string :=
  prefix +:+ pretty period.

(** one column per period: [for period in periods: indicators[...] = ...] *)
Definition per_period (prefix : string) (periods : list nat)
    (f : nat → Series) : list (string * Series) :=
  map (λ period, (fname prefix period, f period)) periods.

(** The [indicators] dictionary, in insertion order, before rounding.
    [sar_col] is the finished [sar] list. *)
Definition indicators (high low close volume sar_col : Series)
  : list (string * Series) :=
  [("macd", macd close); ("macd_signal", macd_signal close);
   ("macd_hist", macd_hist close)]
  ++ per_period "ema_" [3; 5; 8; 10; 12; 15; 20; 26; 30; 35; 40; 45; 50; 60;
                        100; 200] (λ period, ewm_mean period close)
  ++ per_period "sma_" [5; 10; 15; 20; 30; 50; 60; 100; 200]
                (λ period, rolling_mean period close)
  ++ per_period "wma_" [10; 20; 30] (λ period, wma close period)
  ++ per_period "dema_" [10; 20; 30] (λ period, dema period close)
  ++ per_period "tema_" [10; 20; 30] (λ period, tema period close)
  ++ [("trix", trix close); ("trix_signal", trix_signal close)]
  ++ per_period "rsi_" [6; 9; 12; 14; 21; 24] (λ period, rsi period close)
  ++ per_period "cci_" [14; 20] (λ period, cci period high low close)
  ++ per_period "roc_" [12; 25] (λ period, roc period close)
  ++ per_period "mom_" [10; 14; 20] (λ period, mom period close)
  ++ per_period "willr_" [14; 21] (λ period, willr period high low close)
  ++ flat_map (λ period,
       [(fname "stoch_k_" period, stoch_k period high low close);
        (fname "stoch_d_" period, stoch_d period high low close);
        (fname "stoch_j_" period, stoch_j period high low close)]) [9; 14]
  ++ [("uo", uo high low close)]
  ++ flat_map (λ period,
       [(fname "bb_middle_" period, bb_middle period close);
        (fname "bb_upper_" period, bb_upper period close);
        (fname "bb_lower_" period, bb_lower period close);
        (fname "bb_width_" period, bb_width period close);
        (fname "bb_pct_" period, bb_pct period close)]) [20; 50]
  ++ per_period "atr_" [7; 14; 21] (λ period, atr period high low close)
  ++ per_period "std_" [10; 20; 30] (λ period, rolling_std period close)
  ++ [("kc_middle", kc_middle close);
      ("kc_upper", kc_upper high low close);
      ("kc_lower", kc_lower high low close);
      ("dc_upper", dc_upper high);
      ("dc_lower", dc_lower low);
      ("dc_middle", dc_middle high low);
      ("obv", obv close volume)]
  ++ per_period "vol_ma_" [5; 10; 20] (λ period, rolling_mean period volume)
  ++ [("vol_ratio", vol_ratio volume);
      ("mfi", mfi high low close volume);
      ("ad_line", ad_line high low close volume);
      ("vwap", vwap high low close volume);
      ("cmf", cmf high low close volume);
      ("adx", adx high low close);
      ("pos_di", pos_di high low close);
      ("neg_di", neg_di high low close);
      ("aroon_up", aroon_up high);
      ("aroon_down", aroon_down low);
      ("aroon_osc", aroon_osc high low);
      ("pivot", pivot high low close);
      ("r1", r1 high low close);
      ("r2", r2 high low close);
      ("s1", s1 high low close);
      ("s2", s2 high low close);
      ("sar", sar_col);
      ("price_change", price_change close);
      ("price_change_pct", price_change_pct close);
      ("true_range", true_range high low close);
      ("typical_price", typical_price high low close);
      ("median_price", median_price high low);
      ("weighted_close", weighted_close high low close);
      ("intraday_intensity", intraday_intensity high low close volume)].

(** ** Frames *)

(** A cell of the [date] column, as [pd.to_datetime] sees it: a timestamp
    (seconds), an empty cell (NaT), or text that does not parse. *)
Inductive datecell : Type :=
  | DParsed (t : Z)
  | DMissing
  | DBad.

Global Instance datecell_eq_dec : EqDecision datecell.
Proof. solve_decision. Defined.

(** A DataFrame: the optional [date] column and the numeric columns in
    header order.  Column names of a frame read from CSV are distinct. *)
Record DataFrame : Type := mkDF {
  df_date : option (list datecell);
  df_cols : list (string * Series)
}.

Global Instance DataFrame_eq_dec : EqDecision DataFrame.
Proof. solve_decision. Defined.

Inductive exn : Type :=
  | ValueError (msg : string)
  | IndexError (msg : string).

Inductive result (A : Type) : Type :=
  | Ok (a : A)
  | Raise (e : exn).
#[global] Arguments Ok {A} a.
#[global] Arguments Raise {A} e.

(** [col in df.columns] *)
Definition in_columns (col : string) (df : DataFrame) : bool :=
  if decide (col = "date") then bool_decide (is_Some (df_date df))
  else bool_decide (col ∈ (df_cols df).*1).

(** [len(df.columns)] *)
Definition n_columns (df : DataFrame) : nat :=
  (if bool_decide (is_Some (df_date df)) then 1 else 0) + length (df_cols df).

Fixpoint assoc (name : string) (cols : list (string * Series))
  : option Series :=
  match cols with
  | [] => None
  | (n, s) :: r => if decide (n = name) then Some s else assoc name r
  end.

(** [df[name]] for a column that is present *)
Definition getcol (name : string) (df : DataFrame) : Series :=
  default [] (assoc name (df_cols df)).

Definition required_cols : list string :=
  ["open"; "high"; "low"; "close"; "volume"].

(** the first required column that is absent, if any *)
Definition first_missing (df : DataFrame) : option string :=
  head (filter (λ col, in_columns col df = false) required_cols).

(** [indicators_df[col].round(2)] on every column *)
Definition round_columns (cols : list (string * Series))
  : list (string * Series) :=
  map (λ '(n, s), (n, sround2 s)) cols.

(** ** [calculate_all_indicators(df)] *)
Definition calculate_all_indicators (df : DataFrame) : result DataFrame :=
  match first_missing df with
  | Some col => Raise (ValueError ("缺少必要的列: " +:+ col))
  | None =>
      let close := getcol "close" df in
      let high := getcol "high" df in
      let low := getcol "low" df in
      let volume := getcol "volume" df in
      match sar high low with
      | None =>
          Raise (IndexError "single positional indexer is out-of-bounds")
      | Some sar_col =>
          let indicators_df :=
            round_columns (indicators high low close volume sar_col) in
          Ok (mkDF (df_date df) (df_cols df ++ indicators_df))
      end
  end.

(** ** The retention sweep: [process_single_file(filepath, cutoff_date)] *)

Inductive status : Type := Deleted | Updated | Error.

Global Instance status_eq_dec : EqDecision status.
Proof. solve_decision. Defined.

(** [str(e)] *)
Definition exn_str (e : exn) : string :=
  match e with ValueError m | IndexError m => m end.

(** [pd.to_datetime(df['date'])]: fails on the first cell that does not
    parse; an empty cell becomes NaT ([None]) *)
Fixpoint to_datetime (cells : list datecell) : result (list (option Z)) :=
  match cells with
  | [] => Ok []
  | c :: r =>
      match c, to_datetime r with
      | DBad, _ => Raise (ValueError "Unknown datetime string format")
      | _, Raise e => Raise e
      | DParsed t, Ok ts => Ok (Some t :: ts)
      | DMissing, Ok ts => Ok (None :: ts)
      end
  end.

(** [df['date'].max()]: the largest timestamp, NaT ([None]) when there is none *)
Definition date_max (ts : list (option Z)) : option Z :=
  foldr (λ o acc, match o, acc with
                  | Some t, Some m => Some (Z.max t m)
                  | Some t, None => Some t
                  | None, _ => acc
                  end) None ts.

(** [latest_date < cutoff_date]; a comparison with NaT is False *)
Definition date_before (latest : option Z) (cutoff : Z) : bool :=
  match latest with
  | Some t => bool_decide (t < cutoff)%Z
  | None => false
  end.

Definition seconds_per_day : Z := 86400.

(** [.dt.strftime('%Y-%m-%d')]: the timestamp cut to its day; NaT stays
    empty *)
Definition strftime_day (o : option Z) : datecell :=
  match o with
  | Some t => DParsed (t - t mod seconds_per_day)
  | None => DMissing
  end.

(** [[col for col in required_cols if col not in df.columns]] *)
Definition missing_cols (df : DataFrame) : list string :=
  filter (λ col, in_columns col df = false) required_cols.

(** the repr of a list of strings, [['a', 'b']] *)
Definition repr_list (l : list string) : string :=
  "[" +:+ String.concat ", " (map (λ x, "'" +:+ x +:+ "'") l) +:+ "]".

(** The directory of price files is a map from path to CSV content.
    [pd.read_csv] of a missing path raises, which the [except] turns into an
    error; [os.remove] deletes the entry and [to_csv] replaces it.  In the
    message of a deleted file the date is printed as its timestamp, and the
    texts of the errors that pandas raises are shortened.  Dates carry no
    UTC offset. *)
Definition process_single_file (fs : gmap string DataFrame)
    (filepath : string) (cutoff_date : Z)
  : (status * string) * gmap string DataFrame :=
  match fs !! filepath with
  | None => ((Error, "No such file or directory"), fs)
  | Some df =>
      match df_date df with
      | None => ((Error, "缺少 date 列"), fs)
      | Some cells =>
          match to_datetime cells with
          | Raise e => ((Error, exn_str e), fs)
          | Ok dates =>
              let latest_date := date_max dates in
              if date_before latest_date cutoff_date then
                ((Deleted, "最新数据: " +:+ pretty (default 0%Z latest_date)),
                 delete filepath fs)
              else
                match missing_cols df with
                | (_ :: _) as missing =>
                    ((Error, "缺少列: " +:+ repr_list missing), fs)
                | [] =>
                    match calculate_all_indicators df with
                    | Raise e => ((Error, exn_str e), fs)
                    | Ok df_with_indicators =>
                        let out :=
                          mkDF (Some (map strftime_day dates))
                               (df_cols df_with_indicators) in
                        ((Updated,
                          "添加了 " +:+ pretty (n_columns out) +:+ " 列"),
                         <[filepath := out]> fs)
                    end
                end
          end
      end
  end.

(** [cutoff_date = datetime.now() - timedelta(days=180)] *)
Definition horizon_days : Z := 180.
Definition main_cutoff (now : Z) : Z := (now - horizon_days * seconds_per_day)%Z.

(** the loop of [main] over [csv_files], the result of the [glob]: the
    three result lists.  The map holds the [*.csv] files of [prices_dir]
    under their file names: a path [os.path.join(prices_dir, name)] is
    identified with [name], which is also its [os.path.basename]. *)
Record summary : Type := Summary {
  deleted_files : list string;
  updated_files : list string;
  error_files : list (string * string)
}.

Definition main_step (cutoff_date : Z)
    (acc : summary * gmap string DataFrame) (filepath : string)
  : summary * gmap string DataFrame :=
  let '(sm, fs) := acc in
  let '((st, message), fs') := process_single_file fs filepath cutoff_date in
  match st with
  | Deleted =>
      (Summary (deleted_files sm ++ [filepath]) (updated_files sm)
               (error_files sm), fs')
  | Updated =>
      (Summary (deleted_files sm) (updated_files sm ++ [filepath])
               (error_files sm), fs')
  | Error =>
      (Summary (deleted_files sm) (updated_files sm)
               (error_files sm ++ [(filepath, message)]), fs')
  end.

(** the content of [deleted_files.txt]: the time of writing, the day of
    the cut-off, the number of deleted files and their names, one per
    line *)
Record deleted_list : Type := DeletedList {
  list_written : Z;
  list_cutoff_day : Z;
  list_count : nat;
  list_files : list string
}.

(** [main()]: [now] and [written] are the two readings of
    [datetime.now()].  The result is the three lists, the price files as
    the loop leaves them, and what is written to [deleted_files.txt] in the
    same directory ([None] when the file is not written, which is when no
    file was deleted).  With an empty listing, as without the directory,
    [main] returns before the loop, having changed nothing. *)
Definition main (now written : Z) (csv_files : list string)
    (fs : gmap string DataFrame)
  : summary * gmap string DataFrame * option deleted_list :=
  let cutoff_date := main_cutoff now in
  let '(sm, fs') :=
    foldl (main_step cutoff_date) (Summary [] [] [], fs) csv_files in
  (sm, fs',
   match deleted_files sm with
   | [] => None
   | _ :: _ =>
       Some (DeletedList written
               (cutoff_date - cutoff_date mod seconds_per_day)
               (length (deleted_files sm)) (deleted_files sm))
   end).

End WithSqrt.


(** a concrete square root for closed examples: [sqrt(n/d)] computed as
    [isqrt(n * d * 10^12) / (d * 10^6)] *)
Definition qsqrt_fixed (q : Qc) : Qc :=
  Q2Qc (Z.sqrt (Qnum q * Z.pos (Qden q) * 10 ^ 12) # (Qden q * 10 ^ 6)).

(** ** The helper functions of [generate_stock_data_with_indicators.py] *)

Module Generator.

Definition calculate_ema (prices : Series) (period : nat) : Series :=
  ewm_mean period prices.

Definition calculate_sma (prices : Series) (period : nat) : Series :=
  rolling_mean period prices.

(** [weighted_mean(x)]; [x[-period:]] is the last [period] cells *)
Definition weighted_mean (period : nat) (x : list fval) : fval :=
  let weights := map (λ i, fz (Z.of_nat i)) (seq 1 period) in
  if decide (length x < period) then NaN
  else fdiv (fsum (zip_with fmul weights (drop (length x - period) x)))
            (fsum weights).

Definition calculate_wma (prices : Series) (period : nat) : Series :=
  rolling_apply period (weighted_mean period) prices.

Definition calculate_rsi (prices : Series) (period : nat) : Series :=
  let delta := diff prices in
  let gain :=
    rolling_mean period (where_ (map (λ d, fgt d (fz 0)) delta) delta (fz 0)) in
  let loss :=
    rolling_mean period
      (sneg (where_ (map (λ d, flt d (fz 0)) delta) delta (fz 0))) in
  let rs := sdiv gain loss in
  map (λ r, fsub (fz 100) (fdiv (fz 100) (fadd (fz 1) r))) rs.

Definition calculate_atr (high low close : Series) (period : nat) : Series :=
  let tr1 := ssub high low in
  let tr2 := sabs (ssub high (shift 1 close)) in
  let tr3 := sabs (ssub low (shift 1 close)) in
  let tr := row_max3 tr1 tr2 tr3 in
  rolling_mean period tr.

Definition calculate_dema (prices : Series) (period : nat) : Series :=
  let ema1 := calculate_ema prices period in
  let ema2 := calculate_ema ema1 period in
  ssub (scale (fz 2) ema1) ema2.

Definition calculate_tema (prices : Series) (period : nat) : Series :=
  let ema1 := calculate_ema prices period in
  let ema2 := calculate_ema ema1 period in
  let ema3 := calculate_ema ema2 period in
  sadd (ssub (scale (fz 3) ema1) (scale (fz 3) ema2)) ema3.

(** returns [(upper, lower)]; [basis] is the middle line *)
Definition keltner_basis (high low close : Series) (period : nat) : Series :=
  let typical_price := sdivc (fz 3) (sadd (sadd high low) close) in
  calculate_ema typical_price period.

Definition calculate_keltner_channels (high low close : Series)
    (period atr_period : nat) (multiplier : fval) : Series * Series :=
  let basis := keltner_basis high low close period in
  let atr := calculate_atr high low close atr_period in
  let upper := sadd basis (scale multiplier atr) in
  let lower := ssub basis (scale multiplier atr) in
  (upper, lower).

(** [np.sign] *)
Definition fsign (x : fval) : fval :=
  match x with
  | Fin q => if Qc_ltb 0 q then fz 1 else if Qc_ltb q 0 then fz (-1) else fz 0
  | PInf => fz 1
  | NInf => fz (-1)
  | NaN => NaN
  end.

(** [df['obv'] = (np.sign(close.diff()) * volume).fillna(0).cumsum()] *)
Definition obv (close volume : Series) : Series :=
  cumsum (fillna (fz 0) (smul (map fsign (diff close)) volume)).

(** the A/D line of the script: [clv = clv.fillna(0)] *)
Definition clv (high low close : Series) : Series :=
  let clv := sdiv (ssub (ssub close low) (ssub high close)) (ssub high low) in
  fillna (fz 0) clv.
Definition ad_line (high low close volume : Series) : Series :=
  cumsum (smul (clv high low close) volume).

(** intraday intensity of the script, followed by [.fillna(0)] *)
Definition intraday_intensity (high low close volume : Series) : Series :=
  fillna (fz 0)
    (smul (sdiv (ssub (ssub (scale (fz 2) close) high) low) (ssub high low))
          volume).

Definition calculate_macd (prices : Series) (fast slow signal : nat)
  : Series * Series * Series :=
  let ema_fast := calculate_ema prices fast in
  let ema_slow := calculate_ema prices slow in
  let macd := ssub ema_fast ema_slow in
  let macd_signal := calculate_ema macd signal in
  let macd_hist := ssub macd macd_signal in
  (macd, macd_signal, macd_hist).

Definition calculate_cci (high low close : Series) (period : nat) : Series :=
  let tp := sdivc (fz 3) (sadd (sadd high low) close) in
  let sma_tp := rolling_mean period tp in
  let mad := rolling_apply period mad_window tp in
  sdiv (ssub tp sma_tp) (scale (fq 15 1000) mad).

Definition calculate_roc (prices : Series) (period : nat) : Series :=
  scale (fz 100)
    (sdiv (ssub prices (shift period prices)) (shift period prices)).

Definition calculate_momentum (prices : Series) (period : nat) : Series :=
  ssub prices (shift period prices).

Definition calculate_williams_r (high low close : Series) (period : nat)
  : Series :=
  let highest_high := rolling_max period high in
  let lowest_low := rolling_min period low in
  sdiv (scale (fz (-100)) (ssub highest_high close))
       (ssub highest_high lowest_low).

Definition calculate_stochastic (high low close : Series)
    (k_period d_period : nat) : Series * Series * Series :=
  let lowest_low := rolling_min k_period low in
  let highest_high := rolling_max k_period high in
  let stoch_k :=
    sdiv (scale (fz 100) (ssub close lowest_low))
         (ssub highest_high lowest_low) in
  let stoch_d := rolling_mean d_period stoch_k in
  let stoch_j := ssub (scale (fz 3) stoch_k) (scale (fz 2) stoch_d) in
  (stoch_k, stoch_d, stoch_j).

Definition calculate_ultimate_oscillator (high low close : Series)
    (period1 period2 period3 : nat) : Series :=
  let bp := ssub close (row_min2 low (shift 1 close)) in
  let tr := row_max3 (ssub high low)
                     (sabs (ssub high (shift 1 close)))
                     (sabs (ssub low (shift 1 close))) in
  let avg1 := sdiv (rolling_sum period1 bp) (rolling_sum period1 tr) in
  let avg2 := sdiv (rolling_sum period2 bp) (rolling_sum period2 tr) in
  let avg3 := sdiv (rolling_sum period3 bp) (rolling_sum period3 tr) in
  sdivc (fz 7)
    (scale (fz 100)
       (sadd (sadd (scale (fz 4) avg1) (scale (fz 2) avg2)) avg3)).

Definition calculate_trix (prices : Series) (period signal_period : nat)
  : Series * Series :=
  let ema1 := calculate_ema prices period in
  let ema2 := calculate_ema ema1 period in
  let ema3 := calculate_ema ema2 period in
  let trix := scale (fz 100) (sdiv (diff ema3) (shift 1 ema3)) in
  let trix_signal := calculate_ema trix signal_period in
  (trix, trix_signal).

Definition calculate_mfi (high low close volume : Series) (period : nat)
  : Series :=
  let tp := sdivc (fz 3) (sadd (sadd high low) close) in
  let mf := smul tp volume in
  let positive_mf :=
    rolling_sum period (where_ (zip_with fgt tp (shift 1 tp)) mf (fz 0)) in
  let negative_mf :=
    rolling_sum period (where_ (zip_with flt tp (shift 1 tp)) mf (fz 0)) in
  let mfr := sdiv positive_mf negative_mf in
  map (λ r, fsub (fz 100) (fdiv (fz 100) (fadd (fz 1) r))) mfr.

(** [minus_dm] is filtered against the [plus_dm] that was filtered just
    before it *)
Definition calculate_adx (high low close : Series) (period : nat)
  : Series * Series * Series :=
  let tr := row_max3 (ssub high low)
                     (sabs (ssub high (shift 1 close)))
                     (sabs (ssub low (shift 1 close))) in
  let plus_dm := diff high in
  let minus_dm := sneg (diff low) in
  let plus_dm :=
    where_ (zip_with andb (zip_with fgt plus_dm minus_dm)
                          (map (λ d, fgt d (fz 0)) plus_dm))
           plus_dm (fz 0) in
  let minus_dm :=
    where_ (zip_with andb (zip_with fgt minus_dm plus_dm)
                          (map (λ d, fgt d (fz 0)) minus_dm))
           minus_dm (fz 0) in
  let atr := rolling_mean period tr in
  let plus_di := scale (fz 100) (sdiv (rolling_mean period plus_dm) atr) in
  let minus_di := scale (fz 100) (sdiv (rolling_mean period minus_dm) atr) in
  let dx := sdiv (scale (fz 100) (sabs (ssub plus_di minus_di)))
                 (sadd plus_di minus_di) in
  let adx := rolling_mean period dx in
  (adx, plus_di, minus_di).

Definition calculate_aroon (high low : Series) (period : nat)
  : Series * Series * Series :=
  let per := fz (Z.of_nat period) in
  let aroon_up :=
    scale (fz 100)
      (rolling_apply (period + 1) (λ x, fdiv (argmax x) per) high) in
  let aroon_down :=
    scale (fz 100)
      (rolling_apply (period + 1) (λ x, fdiv (argmin x) per) low) in
  let aroon_osc := ssub aroon_up aroon_down in
  (aroon_up, aroon_down, aroon_osc).

Definition calculate_pivot_points (high low close : Series)
  : Series * Series * Series * Series * Series :=
  let pivot :=
    sdivc (fz 3) (sadd (sadd (shift 1 high) (shift 1 low)) (shift 1 close)) in
  let r1 := ssub (scale (fz 2) pivot) (shift 1 low) in
  let r2 := sadd pivot (ssub (shift 1 high) (shift 1 low)) in
  let s1 := ssub (scale (fz 2) pivot) (shift 1 high) in
  let s2 := ssub pivot (ssub (shift 1 high) (shift 1 low)) in
  (pivot, r1, r2, s1, s2).

Definition calculate_donchian_channels (high low : Series) (period : nat)
  : Series * Series * Series :=
  let upper := rolling_max period high in
  let lower := rolling_min period low in
  let middle := sdivc (fz 2) (sadd upper lower) in
  (upper, lower, middle).

Section GeneratorColumns.

Variable qsqrt : Qc → Qc.

Definition calculate_bollinger_bands (prices : Series) (period : nat)
    (std_dev : fval) : Series * Series * Series * Series :=
  let sma := calculate_sma prices period in
  let std := rolling_std qsqrt period prices in
  let upper_band := sadd sma (scale std_dev std) in
  let lower_band := ssub sma (scale std_dev std) in
  let width := ssub upper_band lower_band in
  let pct_b := sdiv (ssub prices lower_band) (ssub upper_band lower_band) in
  (upper_band, lower_band, width, pct_b).

(** The indicator columns that [generate_stock_data_with_indicators] writes,
    in the order of [column_order], computed from the columns of the frame
    sorted by date.  The defaults of the helper functions are written out. *)
Definition indicator_columns (high low close volume : Series)
  : list (string * Series) :=
  let '(macd, macd_signal, macd_hist) := calculate_macd close 12 26 9 in
  let '(trix, trix_signal) := calculate_trix close 14 9 in
  let stoch (p : nat) := calculate_stochastic high low close p 3 in
  let bb (p : nat) := calculate_bollinger_bands close p (fz 2) in
  let '(kc_upper, kc_lower) :=
    calculate_keltner_channels high low close 20 14 (fz 2) in
  let '(dc_upper, dc_lower, dc_middle) :=
    calculate_donchian_channels high low 20 in
  let vol_ma_20 := rolling_mean 20 volume in
  let '(adx, pos_di, neg_di) := calculate_adx high low close 14 in
  let '(aroon_up, aroon_down, aroon_osc) := calculate_aroon high low 25 in
  let '(pivot, r1, r2, s1, s2) := calculate_pivot_points high low close in
  [("macd", macd); ("macds", macd_signal); ("macdh", macd_hist);
   ("macd.1", macd); ("macd_signal", macd_signal); ("macd_hist", macd_hist)]
  ++ per_period "ema_" [3; 5; 8; 10; 12; 15; 20; 26; 30; 35; 40; 45; 50; 60;
                        100; 200] (calculate_ema close)
  ++ per_period "sma_" [5; 10; 15; 20; 30; 50; 60; 100; 200]
                (calculate_sma close)
  ++ per_period "wma_" [10; 20; 30] (calculate_wma close)
  ++ per_period "dema_" [10; 20; 30] (calculate_dema close)
  ++ per_period "tema_" [10; 20; 30] (calculate_tema close)
  ++ [("trix", trix); ("trix_signal", trix_signal)]
  ++ per_period "rsi_" [6; 9; 12; 14; 21; 24] (calculate_rsi close)
  ++ per_period "cci_" [14; 20] (calculate_cci high low close)
  ++ per_period "roc_" [12; 25] (calculate_roc close)
  ++ per_period "mom_" [10; 14; 20] (calculate_momentum close)
  ++ per_period "willr_" [14; 21] (calculate_williams_r high low close)
  ++ flat_map (λ p,
       [(fname "stoch_k_" p, (stoch p).1.1);
        (fname "stoch_d_" p, (stoch p).1.2);
        (fname "stoch_j_" p, (stoch p).2)]) [9; 14]
  ++ [("uo", calculate_ultimate_oscillator high low close 7 14 28)]
  ++ flat_map (λ p,
       [(fname "bb_upper_" p, (bb p).1.1.1);
        (fname "bb_lower_" p, (bb p).1.1.2);
        (fname "bb_width_" p, (bb p).1.2);
        (fname "bb_pct_" p, (bb p).2)]) [20; 50]
  ++ per_period "atr_" [7; 14; 21] (calculate_atr high low close)
  ++ per_period "std_" [10; 20; 30] (λ p, rolling_std qsqrt p close)
  ++ [("kc_upper", kc_upper); ("kc_lower", kc_lower);
      ("dc_upper", dc_upper); ("dc_lower", dc_lower);
      ("dc_middle", dc_middle);
      ("obv", obv close volume)]
  ++ per_period "vol_ma_" [5; 10] (λ p, rolling_mean p volume)
  ++ [("vol_ma_20", vol_ma_20);
      ("vol_ratio", sdiv volume vol_ma_20);
      ("mfi", calculate_mfi high low close volume 14);
      ("ad_line", ad_line high low close volume);
      ("vwap", sdiv (cumsum (smul close volume)) (cumsum volume));
      ("adx", adx); ("pos_di", pos_di); ("neg_di", neg_di);
      ("aroon_up", aroon_up); ("aroon_down", aroon_down);
      ("aroon_osc", aroon_osc);
      ("pivot", pivot); ("r1", r1); ("r2", r2); ("s1", s1); ("s2", s2);
      ("sar", shift 1 close);
      ("price_change", diff close);
      ("price_change_pct", scale (fz 100) (pct_change close));
      ("true_range",
       row_max3 (ssub high low) (sabs (ssub high (shift 1 close)))
                (sabs (ssub low (shift 1 close))));
      ("typical_price", sdivc (fz 3) (sadd (sadd high low) close));
      ("median_price", sdivc (fz 2) (sadd high low));
      ("weighted_close", sdivc (fz 4) (sadd (sadd high low) (scale (fz 2) close)));
      ("intraday_intensity", intraday_intensity high low close volume)].

End GeneratorColumns.

End Generator.

(** ** The duplicate-column cleaner: [remove_duplicate_columns.py]

    Both functions read the CSV file and work on its columns; a frame read
    by [pd.read_csv] has distinct column names.  [A] is the content of a
    column, its dtype and its cells, and [df[col1].equals(df[col2])] is
    equality of contents.  [checked] is the set of that name. *)

Module Cleaner.

Section Columns.

Context {A : Type} `{EqDecision A}.

(** the keys of [Counter(df.columns)], in insertion order *)
Fixpoint counter_keys (seen names : list string) : list string :=
  match names with
  | [] => []
  | n :: r => if decide (n ∈ seen) then counter_keys seen r
              else n :: counter_keys (n :: seen) r
  end.

(** [[col for col, count in column_counts.items() if count > 1]] *)
Definition name_duplicates (cols : list (string * A)) : list string :=
  filter (λ n, 1 < length (filter (λ m, m = n) (cols.*1)))
         (counter_keys [] (cols.*1)).

(** the inner loop, over the columns [col2] after [col1]: the list
    [duplicates_of_col1] and the set [checked] at its end *)
Fixpoint scan_later (c1 : A) (later : list (string * A))
    (checked : list string) : list string * list string :=
  match later with
  | [] => ([], checked)
  | (n2, c2) :: r =>
      if decide (n2 ∈ checked) then scan_later c1 r checked
      else if decide (c1 = c2) then
        let '(dups, checked') := scan_later c1 r (n2 :: checked) in
        (n2 :: dups, checked')
      else scan_later c1 r checked
  end.

(** the outer loop, over the columns [col1]: the dict [content_duplicates]
    in insertion order *)
Fixpoint scan (cols : list (string * A)) (checked : list string)
  : list (string * list string) :=
  match cols with
  | [] => []
  | (n1, c1) :: later =>
      if decide (n1 ∈ checked) then scan later checked
      else
        let '(dups, checked') := scan_later c1 later checked in
        match dups with
        | [] => scan later checked'
        | _ :: _ => (n1, dups) :: scan later (n1 :: checked')
        end
  end.

(** [check_duplicate_columns(filepath)] on the columns of the file:
    [(column_count, name_duplicates, content_duplicates)] *)
Definition check_duplicate_columns (cols : list (string * A))
  : nat * list string * list (string * list string) :=
  (length cols, name_duplicates cols, scan cols []).

(** [df.loc[:, ~df.columns.duplicated()]]: the first column of each name *)
Fixpoint keep_first_names (seen : list string) (cols : list (string * A))
  : list (string * A) :=
  match cols with
  | [] => []
  | (n, c) :: r => if decide (n ∈ seen) then keep_first_names seen r
                   else (n, c) :: keep_first_names (n :: seen) r
  end.

(** [remove_duplicate_columns(filepath, name_duplicates,
    content_duplicates)]: the columns of the file afterwards and the
    returned pair [(removed_count, removed_columns)].  [df.drop] raises on
    a label that is not a column, and the [except] then returns [(0, [])]
    and leaves the file as it is; the file is written only when a column
    was removed. *)
Definition remove_duplicate_columns (cols : list (string * A))
    (name_duplicates : list string)
    (content_duplicates : list (string * list string))
  : list (string * A) * (nat * list string) :=
  let df1 := match name_duplicates with
             | [] => cols
             | _ :: _ => keep_first_names [] cols
             end in
  let columns_to_drop := concat (content_duplicates.*2) in
  let removed_columns := name_duplicates ++ columns_to_drop in
  match content_duplicates with
  | [] =>
      match removed_columns with
      | [] => (cols, (0, []))
      | _ :: _ => (df1, (length removed_columns, removed_columns))
      end
  | _ :: _ =>
      if decide (Forall (λ n, n ∈ df1.*1) columns_to_drop) then
        let df2 := filter (λ x, x.1 ∉ columns_to_drop) df1 in
        match removed_columns with
        | [] => (cols, (0, []))
        | _ :: _ => (df2, (length removed_columns, removed_columns))
        end
      else (cols, (0, []))
  end.

(** what [main] does to one file: the check of the first pass, then, when
    it found a duplicate, the removal of the second pass *)
Definition clean_file (cols : list (string * A)) : list (string * A) :=
  let '(_, name_dups, content_dups) := check_duplicate_columns cols in
  match name_dups, content_dups with
  | [], [] => cols
  | _, _ => (remove_duplicate_columns cols name_dups content_dups).1
  end.

(** the first column of each content that is not in [seen] *)
Fixpoint firsts (seen : list A) (cols : list (string * A))
  : list (string * A) :=
  match cols with
  | [] => []
  | (n, c) :: r => if decide (c ∈ seen) then firsts seen r
                   else (n, c) :: firsts (c :: seen) r
  end.

End Columns.

End Cleaner.

(** ** Notions used in the statements *)

(** the frame cut to its first [k] rows *)
Definition truncate_cols (k : nat) (cols : list (string * Series))
  : list (string * Series) :=
  map (λ '(n, s), (n, take k s)) cols.

Definition truncate (k : nat) (df : DataFrame) : DataFrame :=
  mkDF (take k <$> df_date df) (truncate_cols k (df_cols df)).

(** the indicator column [name] that the engine appended to [df]: the
    lookup skips the original columns, so that a column of [df] with the
    same name does not hide it *)
Definition indicator_column (df r : DataFrame) (name : string)
  : option Series :=
  assoc name (drop (length (df_cols df)) (df_cols r)).

(** the start of the calendar day of a timestamp *)
Definition midnight (now : Z) : Z := (now - now mod seconds_per_day)%Z.

(** a non-negative real or [+inf] *)
Definition nonneg0 (v : fval) : Prop :=
  match v with Fin q => (0 ≤ q)%Qc | PInf => True | _ => False end.

(** a non-negative real, [+inf], or NaN *)
Definition nonneg (v : fval) : Prop :=
  match v with Fin q => (0 ≤ q)%Qc | PInf | NaN => True | NInf => False end.

(** NaN, or a real number between 0 and 100 *)
Definition in_0_100 (v : fval) : Prop :=
  match v with
  | Fin q => (0 ≤ q)%Qc ∧ (q ≤ Qc_of_Z 100)%Qc
  | NaN => True
  | _ => False
  end.

(** an integer-valued real, or a special value *)
Definition integer_like (v : fval) : Prop :=
  match v with Fin q => ∃ z : Z, q = Qc_of_Z z | _ => True end.

(** a real with at most two decimal digits ([z / 100]), or a special value *)
Definition two_decimals (v : fval) : Prop :=
  match v with
  | Fin q => ∃ z : Z, q = (Qc_of_Z z / Qc_of_Z 100)%Qc
  | _ => True
  end.

(** the cell at row [i] of the indicator column [name] that the engine
    appended to [df] *)
Definition cell (df r : DataFrame) (name : string) (i : nat) : option fval :=
  indicator_column df r name ≫= (λ s, s !! i).

(** a real within the range of a 64-bit integer, or a special value *)
Definition int64_range (v : fval) : Prop :=
  match v with
  | Fin q => (Qc_of_Z (- 2 ^ 63) ≤ q)%Qc ∧ (q < Qc_of_Z (2 ^ 63))%Qc
  | _ => True
  end.

(** ** Example frames *)

(** a two-row frame and a variant that differs in row 1 only *)
Definition frame_a : DataFrame :=
  mkDF (Some [DParsed 0; DParsed 86400])
       [("open", [fz 1; fz 2]); ("high", [fz 3; fz 3]); ("low", [fz 0; fz 1]);
        ("close", [fz 3; fz 2]); ("volume", [fz 10; fz 20])].
Definition frame_b : DataFrame :=
  mkDF (Some [DParsed 0; DParsed 172800])
       [("open", [fz 1; fz 7]); ("high", [fz 3; fz 9]); ("low", [fz 0; fz 5]);
        ("close", [fz 3; fz 8]); ("volume", [fz 10; fz 5])].

(** eight rising bars with a constant volume *)
Definition frame_c : DataFrame :=
  mkDF (Some (map (λ d, DParsed (d * 86400)) [0; 1; 2; 3; 4; 5; 6; 7]%Z))
       [("open", map fz [10; 11; 12; 13; 14; 15; 16; 17]%Z);
        ("high", map fz [11; 12; 13; 14; 15; 16; 17; 18]%Z);
        ("low", map fz [9; 10; 11; 12; 13; 14; 15; 16]%Z);
        ("close", map fz [10; 11; 12; 13; 14; 15; 16; 17]%Z);
        ("volume", map fz [1000; 1000; 1000; 1000; 1000; 1000; 1000; 1000]%Z)].

(** seven rising bars, then a flat bar ([high = low = close]) *)
Definition frame_d : DataFrame :=
  mkDF (Some (map (λ d, DParsed (d * 86400)) [0; 1; 2; 3; 4; 5; 6; 7]%Z))
       [("open", map fz [10; 11; 12; 13; 14; 15; 16; 17]%Z);
        ("high", map fz [11; 12; 13; 14; 15; 16; 17; 17]%Z);
        ("low", map fz [9; 10; 11; 12; 13; 14; 15; 17]%Z);
        ("close", map fz [10; 11; 12; 13; 14; 15; 16; 17]%Z);
        ("volume", map fz [1000; 1000; 1000; 1000; 1000; 1000; 1000; 1000]%Z)].

(** two rising bars, the second with a volume of one eighth *)
Definition frame_eighth : DataFrame :=
  mkDF (Some [DParsed 0; DParsed 86400])
       [("open", [fz 1; fz 2]); ("high", [fz 1; fz 2]); ("low", [fz 1; fz 2]);
        ("close", [fz 1; fz 2]); ("volume", [fz 5; fq 1 8])].

(** twenty bars that zigzag upwards, each one unit above and below its
    close *)
Definition zigzag_closes : list Z :=
  [10; 12; 11; 13; 12; 14; 13; 15; 14; 16;
   15; 17; 16; 18; 17; 19; 18; 20; 19; 21]%Z.
Definition frame_zigzag : DataFrame :=
  mkDF (Some (map (λ d, DParsed (d * 86400)) (seqZ 0 20)))
       [("open", map fz zigzag_closes);
        ("high", map (λ c, fz (c + 1)) zigzag_closes);
        ("low", map (λ c, fz (c - 1)) zigzag_closes);
        ("close", map fz zigzag_closes);
        ("volume", map (λ _, fz 1000) zigzag_closes)].

(** a one-row frame without a [volume] column, dated day 0 and day 300 *)
Definition frame_old_novol : DataFrame :=
  mkDF (Some [DParsed 0])
       [("open", [fz 1]); ("high", [fz 3]); ("low", [fz 0]); ("close", [fz 3])].
Definition frame_new_novol : DataFrame :=
  mkDF (Some [DParsed (300 * 86400)])
       [("open", [fz 1]); ("high", [fz 3]); ("low", [fz 0]); ("close", [fz 3])].

(** a complete one-row frame dated day 300 *)
Definition frame_new : DataFrame :=
  mkDF (Some [DParsed (300 * 86400)])
       [("open", [fz 1]); ("high", [fz 3]); ("low", [fz 0]); ("close", [fz 3]);
        ("volume", [fz 10])].

(** one o'clock in the morning of day 400 *)
Definition now_ex : Z := 400 * 86400 + 3600.

(** the enriched frame of an example, computed with [qsqrt_fixed] *)
Definition enriched (df : DataFrame) : DataFrame :=
  match calculate_all_indicators qsqrt_fixed df with
  | Ok r => r
  | Raise _ => df
  end.

(** ** Notions used in the further properties *)

(** every column of the frame has [n] rows *)
Definition well_formed (n : nat) (df : DataFrame) : Prop :=
  Forall (λ c, length c.2 = n) (df_cols df)
  ∧ ∀ dates, df_date df = Some dates → length dates = n.

(** the sum of a list of rationals *)
Definition Qsum (qs : list Qc) : Qc := foldr Qcplus 0%Qc qs.

(** a real number between [lo] and [hi] *)
Definition within (lo hi : Qc) (v : fval) : Prop :=
  match v with Fin q => (lo ≤ q)%Qc ∧ (q ≤ hi)%Qc | _ => False end.

(** a series of real numbers in which every cell is larger than the one
    before it *)
Definition rising (s : Series) : Prop :=
  Forall is_finite s
  ∧ ∀ j a b, s !! j = Some a → s !! S j = Some b → flt a b = true.

(** a real number larger than 0 *)
Definition pos_cell (v : fval) : Prop :=
  match v with Fin q => (0 < q)%Qc | _ => False end.

(** a real number that is not negative *)
Definition nonneg_fin (v : fval) : Prop :=
  match v with Fin q => (0 ≤ q)%Qc | _ => False end.

(** two real numbers, the first not larger than the second *)
Definition ordered (lo hi : fval) : Prop :=
  match lo, hi with Fin a, Fin b => (a ≤ b)%Qc | _, _ => False end.

(** NaN, or a real number between [lo] and [hi] *)
Definition within_or_nan (lo hi : Qc) (v : fval) : Prop :=
  match v with
  | Fin q => (lo ≤ q)%Qc ∧ (q ≤ hi)%Qc
  | NaN => True
  | _ => False
  end.

(** a bar of real numbers with [low <= close <= high] *)
Definition bar_ok (h l c : fval) : Prop :=
  match h, l, c with
  | Fin qh, Fin ql, Fin qc => (ql ≤ qc)%Qc ∧ (qc ≤ qh)%Qc
  | _, _, _ => False
  end.

Definition valid_bars (high low close : Series) : Prop :=
  Forall3 bar_ok high low close.

(** the acceleration factor of a SAR state lies between [af] and [max_af] *)
Definition af_ok (st : sar_state) : Prop :=
  within (Q2Qc (2 # 100)) (Q2Qc (2 # 10)) (af_current st).

(** a SAR state that holds real numbers *)
Definition sar_finite (st : sar_state) : Prop :=
  is_finite (sar_last st) ∧ is_finite (ep st) ∧ is_finite (af_current st).

(** a real number or NaN *)
Definition fin_or_nan (v : fval) : Prop :=
  match v with Fin _ | NaN => True | _ => False end.

(** the columns that the engine and the generator script compute with the
    same formula, operation by operation *)
Definition agreeing_names : list string :=
  ["macd"; "macd_signal"; "macd_hist"]
  ++ map (fname "ema_") [3; 5; 8; 10; 12; 15; 20; 26; 30; 35; 40; 45; 50; 60;
                         100; 200]
  ++ map (fname "sma_") [5; 10; 15; 20; 30; 50; 60; 100; 200]
  ++ map (fname "dema_") [10; 20; 30]
  ++ map (fname "tema_") [10; 20; 30]
  ++ map (fname "rsi_") [6; 9; 12; 14; 21; 24]
  ++ map (fname "cci_") [14; 20]
  ++ map (fname "roc_") [12; 25]
  ++ map (fname "mom_") [10; 14; 20]
  ++ map (fname "bb_upper_") [20; 50]
  ++ map (fname "bb_lower_") [20; 50]
  ++ map (fname "bb_pct_") [20; 50]
  ++ map (fname "atr_") [7; 14; 21]
  ++ map (fname "std_") [10; 20; 30]
  ++ ["dc_upper"; "dc_lower"; "dc_middle"]
  ++ map (fname "vol_ma_") [5; 10; 20]
  ++ ["vol_ratio"; "mfi"; "pos_di"; "aroon_up"; "aroon_down"; "aroon_osc";
      "pivot"; "r1"; "r2"; "s1"; "s2"; "price_change"; "price_change_pct";
      "true_range"; "typical_price"; "median_price"; "weighted_close"].

(** the columns of the CSV file of a frame, as the cleaner reads them: the
    date column, a column of text, and the numeric columns.  The date column
    is put first; it is equal to no numeric column, so that its place does
    not matter to the cleaner.  A numeric column is its cells: the dtype,
    which [Series.equals] compares as well, is not kept, so that an integer
    column and a float column with the same values count as equal here. *)
Definition file_columns (df : DataFrame)
  : list (string * (list datecell + Series)) :=
  match df_date df with Some d => [("date", inl d)] | None => [] end
  ++ map (λ '(n, s), (n, inr s)) (df_cols df).

(** the keys of the [indicators] dictionary, in insertion order *)
Definition indicator_names : list string :=
  Eval vm_compute in (indicators (λ q, q) [] [] [] [] []).*1.

(** * Causality of the primitive operators

    An operator is causal when it commutes with cutting the series to a
    prefix.  The lemmas are collected in the rewrite base [causal]. *)

Section Causal.

Implicit Types (s a b c : Series) (k n w : nat).

Lemma take_sadd k a b : take k (sadd a b) = sadd (take k a) (take k b).
Proof. apply zip_with_take. Qed.
Lemma take_ssub k a b : take k (ssub a b) = ssub (take k a) (take k b).
Proof. apply zip_with_take. Qed.
Lemma take_smul k a b : take k (smul a b) = smul (take k a) (take k b).
Proof. apply zip_with_take. Qed.
Lemma take_sdiv k a b : take k (sdiv a b) = sdiv (take k a) (take k b).
Proof. apply zip_with_take. Qed.
Lemma take_row_max3 k a b c :
  take k (row_max3 a b c) = row_max3 (take k a) (take k b) (take k c).
Proof. unfold row_max3. by rewrite !zip_with_take. Qed.
Lemma take_row_min2 k a b :
  take k (row_min2 a b) = row_min2 (take k a) (take k b).
Proof. apply zip_with_take. Qed.
Lemma take_sabs k s : take k (sabs s) = sabs (take k s).
Proof. unfold sabs. symmetry. apply (fmap_take fabs). Qed.
Lemma take_sneg k s : take k (sneg s) = sneg (take k s).
Proof. unfold sneg. symmetry. apply (fmap_take fneg). Qed.
Lemma take_scale k x s : take k (scale x s) = scale x (take k s).
Proof. unfold scale. symmetry. apply (fmap_take (fmul x)). Qed.
Lemma take_sdivc k x s : take k (sdivc x s) = sdivc x (take k s).
Proof. unfold sdivc. symmetry. apply (fmap_take (λ y, fdiv y x)). Qed.
Lemma take_sround2 k s : take k (sround2 s) = sround2 (take k s).
Proof. unfold sround2. symmetry. apply (fmap_take round2). Qed.
Lemma take_fillna k v s : take k (fillna v s) = fillna v (take k s).
Proof. unfold fillna. symmetry. apply (fmap_take (λ x, if isnan x then v else x)). Qed.
Lemma take_map {A B} (f : A → B) k (l : list A) :
  take k (map f l) = map f (take k l).
Proof. symmetry. apply (fmap_take f). Qed.

Lemma take_where k (cond : list bool) s other :
  take k (where_ cond s other) = where_ (take k cond) (take k s) other.
Proof. apply zip_with_take. Qed.

Lemma take_shift k n s : take k (shift n s) = shift n (take k s).
Proof.
  unfold shift. rewrite take_take, length_take.
  destruct (decide (k ≤ length s)) as [Hle|Hgt].
  - rewrite Nat.min_l by done.
    rewrite take_app. rewrite take_app.
    rewrite length_replicate.
    f_equal.
    rewrite take_take. f_equal. lia.
  - rewrite Nat.min_r by lia.
    rewrite (take_ge s k) by lia. done.
Qed.

Lemma take_diff k s : take k (diff s) = diff (take k s).
Proof. unfold diff. by rewrite take_ssub, take_shift. Qed.

Lemma take_ffill_from k last s :
  take k (ffill_from last s) = ffill_from last (take k s).
Proof.
  revert k last. induction s as [|x r IH]; intros [|k] last; simpl; try done.
  by rewrite IH.
Qed.

Lemma take_pct_change k s : take k (pct_change s) = pct_change (take k s).
Proof.
  unfold pct_change, ffill.
  by rewrite take_map, take_sdiv, take_shift, take_ffill_from.
Qed.

Lemma take_cumsum_from k acc s :
  take k (cumsum_from acc s) = cumsum_from acc (take k s).
Proof.
  revert k acc. induction s as [|x r IH]; intros [|k] acc; simpl; try done.
  destruct (isnan x); simpl; by rewrite IH.
Qed.

Lemma take_cumsum k s : take k (cumsum s) = cumsum (take k s).
Proof. apply take_cumsum_from. Qed.

Lemma take_ewm_loop k alpha weighted old_wt s :
  take k (ewm_loop alpha weighted old_wt s)
  = ewm_loop alpha weighted old_wt (take k s).
Proof.
  revert k weighted old_wt.
  induction s as [|x r IH]; intros [|k] weighted old_wt; simpl; try done.
  destruct (ewm_step alpha weighted old_wt x) as [w' o']. simpl.
  by rewrite IH.
Qed.

Lemma take_ewm_mean k span s :
  take k (ewm_mean span s) = ewm_mean span (take k s).
Proof.
  destruct s as [|x r], k as [|k]; simpl; try done.
  by rewrite take_ewm_loop.
Qed.

Lemma window_at_take k w s i :
  i < k → window_at w (take k s) i = window_at w s i.
Proof.
  intros Hi. unfold window_at. case_decide; [|done].
  f_equal. apply list_eq. intros j.
  destruct (decide (j < w)) as [Hj|Hj].
  - rewrite !lookup_take_lt by done. rewrite !lookup_drop.
    rewrite lookup_take_lt by lia. done.
  - rewrite !lookup_take_ge by lia. done.
Qed.

Lemma take_rolling_apply k w f s :
  take k (rolling_apply w f s) = rolling_apply w f (take k s).
Proof.
  apply list_eq. intros i. unfold rolling_apply.
  destruct (decide (i < k)) as [Hi|Hi].
  - rewrite lookup_take_lt by done. rewrite !list_lookup_imap.
    rewrite lookup_take_lt by done.
    destruct (s !! i); simpl; [|done].
    by rewrite window_at_take.
  - rewrite lookup_take_ge by lia.
    symmetry. apply lookup_ge_None_2.
    rewrite length_imap, length_take. lia.
Qed.

Lemma take_rolling_mean k w s :
  take k (rolling_mean w s) = rolling_mean w (take k s).
Proof. apply take_rolling_apply. Qed.
Lemma take_rolling_sum k w s :
  take k (rolling_sum w s) = rolling_sum w (take k s).
Proof. apply take_rolling_apply. Qed.
Lemma take_rolling_max k w s :
  take k (rolling_max w s) = rolling_max w (take k s).
Proof. apply take_rolling_apply. Qed.
Lemma take_rolling_min k w s :
  take k (rolling_min w s) = rolling_min w (take k s).
Proof. apply take_rolling_apply. Qed.
Lemma take_rolling_std qsqrt k w s :
  take k (rolling_std qsqrt w s) = rolling_std qsqrt w (take k s).
Proof. apply take_rolling_apply. Qed.

Lemma take_zip_with {A B C} (f : A → B → C) k (l1 : list A) (l2 : list B) :
  take k (zip_with f l1 l2) = zip_with f (take k l1) (take k l2).
Proof. apply zip_with_take. Qed.

Lemma take_tail {A} k (l : list A) : take k (tail l) = tail (take (S k) l).
Proof. destruct l; simpl; [by destruct k|done]. Qed.

Lemma take_obv_loop k prev last cv :
  take k (obv_loop prev last cv) = obv_loop prev last (take k cv).
Proof.
  revert k prev last.
  induction cv as [|[c v] r IH]; intros [|k] prev last; simpl; try done.
  by rewrite IH.
Qed.

Lemma take_obv k close volume :
  take (S k) (obv close volume) = obv (take (S k) close) (take (S k) volume).
Proof.
  unfold obv. destruct close as [|c0 cs]; simpl; [by rewrite take_nil|].
  f_equal. rewrite take_obv_loop. f_equal.
  rewrite (take_zip_with pair). by rewrite take_tail.
Qed.

Lemma take_sar_loop k st p1 p2 bars :
  take k (sar_loop st p1 p2 bars) = sar_loop st p1 p2 (take k bars).
Proof.
  revert k st p1 p2.
  induction bars as [|bar r IH]; intros [|k] st p1 p2; simpl; try done.
  by rewrite IH.
Qed.

Lemma sar_take k high low :
  sar (take (S k) high) (take (S k) low) = take (S k) <$> sar high low.
Proof.
  unfold sar. rewrite <- (take_zip_with pair).
  destruct (zip_with pair high low) as [|[h0 l0] r]; simpl; [done|].
  by rewrite take_sar_loop.
Qed.

End Causal.

Create Rewrite HintDb causal.
#[export] Hint Rewrite take_sadd take_ssub take_smul take_sdiv take_row_max3
  take_row_min2 take_sabs take_sneg take_scale take_sdivc take_sround2
  take_fillna take_where take_shift take_diff take_pct_change take_cumsum
  take_ewm_mean take_rolling_apply take_rolling_mean take_rolling_sum
  take_rolling_max take_rolling_min take_rolling_std @take_zip_with
  @take_map : causal.


(** * Causality of the indicator families and of the engine *)

Section EngineCausal.

Variable qsqrt : Qc → Qc.

Lemma truncate_round_columns k cols :
  truncate_cols k (round_columns cols) = round_columns (truncate_cols k cols).
Proof.
  unfold truncate_cols, round_columns. rewrite !map_map.
  apply map_ext. intros [n s]. by rewrite take_sround2.
Qed.

Lemma truncate_cols_app k l1 l2 :
  truncate_cols k (l1 ++ l2) = truncate_cols k l1 ++ truncate_cols k l2.
Proof. apply map_app. Qed.

Lemma fst_truncate_cols k cols : (truncate_cols k cols).*1 = cols.*1.
Proof.
  unfold truncate_cols. induction cols as [|[n s] r IH]; simpl; [done|].
  f_equal. apply IH.
Qed.

Lemma assoc_truncate_cols k name cols :
  assoc name (truncate_cols k cols) = take k <$> assoc name cols.
Proof.
  induction cols as [|[n s] r IH]; simpl; [done|].
  case_decide; [done|]. apply IH.
Qed.

Lemma getcol_truncate k name df :
  getcol name (truncate k df) = take k (getcol name df).
Proof.
  unfold getcol, truncate. simpl. rewrite assoc_truncate_cols.
  destruct (assoc name (df_cols df)); simpl; [done|]. by rewrite take_nil.
Qed.

Lemma in_columns_truncate k col df :
  in_columns col (truncate k df) = in_columns col df.
Proof.
  unfold in_columns, truncate. simpl. case_decide.
  - apply bool_decide_ext. destruct (df_date df); simpl; split; intros [x Hx]; eauto.
  - by rewrite fst_truncate_cols.
Qed.

Lemma first_missing_truncate k df :
  first_missing (truncate k df) = first_missing df.
Proof.
  unfold first_missing, required_cols.
  f_equal. apply list_filter_iff. intros col. by rewrite in_columns_truncate.
Qed.

Lemma missing_cols_truncate k df :
  missing_cols (truncate k df) = missing_cols df.
Proof.
  unfold missing_cols. apply list_filter_iff. intros col.
  by rewrite in_columns_truncate.
Qed.

(** every column of the [indicators] dictionary is causal *)
Lemma indicators_causal k high low close volume sar_col :
  truncate_cols (S k) (indicators qsqrt high low close volume sar_col)
  = indicators qsqrt (take (S k) high) (take (S k) low) (take (S k) close)
      (take (S k) volume) (take (S k) sar_col).
Proof.
  unfold indicators, per_period, truncate_cols.
  cbn [map flat_map app].
  rewrite take_obv.
  unfold macd_hist, macd_signal, macd, wma, dema, tema, trix_signal, trix,
    rsi, rsi_gain, rsi_loss, cci, roc, mom, willr, stoch_j, stoch_d, stoch_k,
    uo, bb_pct, bb_width, bb_upper, bb_lower, bb_middle, kc_middle,
    kc_upper, kc_lower, atr, dc_middle, dc_upper, dc_lower, vol_ratio, mfi,
    ad_line, vwap, cmf, mfm, adx, pos_di, neg_di, pos_dm, neg_dm, aroon_osc,
    aroon_up, aroon_down, r1, r2, s1, s2, pivot, price_change_pct,
    price_change, median_price, weighted_close, intraday_intensity,
    true_range, typical_price.
  autorewrite with causal.
  reflexivity.
Qed.

(** every indicator column of the generator script is causal *)
Lemma generator_columns_causal k high low close volume :
  truncate_cols k (Generator.indicator_columns qsqrt high low close volume)
  = Generator.indicator_columns qsqrt (take k high) (take k low)
      (take k close) (take k volume).
Proof.
  unfold Generator.indicator_columns, Generator.calculate_macd,
    Generator.calculate_trix, Generator.calculate_stochastic,
    Generator.calculate_bollinger_bands, Generator.calculate_keltner_channels,
    Generator.keltner_basis, Generator.calculate_donchian_channels,
    Generator.calculate_adx, Generator.calculate_aroon,
    Generator.calculate_pivot_points, per_period, truncate_cols.
  cbn [map flat_map app fst snd].
  unfold Generator.calculate_dema, Generator.calculate_tema,
    Generator.calculate_wma, Generator.calculate_rsi, Generator.calculate_cci,
    Generator.calculate_roc, Generator.calculate_momentum,
    Generator.calculate_williams_r, Generator.calculate_ultimate_oscillator,
    Generator.calculate_atr, Generator.calculate_mfi, Generator.obv,
    Generator.ad_line, Generator.clv, Generator.intraday_intensity,
    Generator.calculate_sma, Generator.calculate_ema.
  autorewrite with causal.
  reflexivity.
Qed.

(** the engine commutes with truncation to a non-empty prefix *)
Lemma calculate_all_indicators_truncate k df :
  calculate_all_indicators qsqrt (truncate (S k) df)
  = match calculate_all_indicators qsqrt df with
    | Ok r => Ok (truncate (S k) r)
    | Raise e => Raise e
    end.
Proof.
  unfold calculate_all_indicators.
  rewrite first_missing_truncate.
  destruct (first_missing df); [done|].
  rewrite !getcol_truncate, sar_take.
  destruct (sar (getcol "high" df) (getcol "low" df)) as [sar_col|];
    [|done].
  cbn [fmap option_fmap option_map].
  f_equal. unfold truncate. cbn [df_date df_cols]. f_equal.
  by rewrite truncate_cols_app, truncate_round_columns, indicators_causal.
Qed.

Lemma truncate_cols_lookup k cols cols' j name s t :
  truncate_cols k cols' = truncate_cols k cols →
  t < k →
  cols !! j = Some (name, s) →
  ∃ s', cols' !! j = Some (name, s') ∧ s' !! t = s !! t.
Proof.
  intros Heq Ht Hj.
  assert (truncate_cols k cols' !! j = Some (name, take k s)) as Hj'.
  { rewrite Heq. unfold truncate_cols.
    change (map ?f ?l) with (f <$> l). by rewrite list_lookup_fmap, Hj. }
  unfold truncate_cols in Hj'.
  change (map ?f ?l) with (f <$> l) in Hj'.
  rewrite list_lookup_fmap in Hj'.
  destruct (cols' !! j) as [[n' s']|]; simpl in Hj'; [|done].
  injection Hj' as -> Hs. exists s'. split; [done|].
  rewrite <- (lookup_take_lt s' k t), <- (lookup_take_lt s k t) by done.
  by rewrite Hs.
Qed.

(** C1 (causality).  If a frame [df'] agrees with [df] on the rows [0..t]
    (it differs only by modifications, insertions or removals of rows with
    index greater than [t]; the frame cut to [t+1] rows is one such frame),
    then the engine succeeds on [df'] as it does on [df], the two enriched
    frames agree on the rows [0..t], and every column has the same (rounded)
    value at row [t].  The indicator columns of the generator script commute
    with cutting the input series to their first [t+1] rows as well. *)
Theorem calculate_all_indicators_causal (df df' r : DataFrame) (t : nat) :
  truncate (S t) df' = truncate (S t) df →
  calculate_all_indicators qsqrt df = Ok r →
  calculate_all_indicators qsqrt (truncate (S t) df) = Ok (truncate (S t) r)
  ∧ (∃ r', calculate_all_indicators qsqrt df' = Ok r'
       ∧ truncate (S t) r' = truncate (S t) r
       ∧ ∀ j name s, df_cols r !! j = Some (name, s) →
           ∃ s', df_cols r' !! j = Some (name, s') ∧ s' !! t = s !! t)
  ∧ (∀ high low close volume : Series,
       truncate_cols (S t)
         (Generator.indicator_columns qsqrt high low close volume)
       = Generator.indicator_columns qsqrt (take (S t) high) (take (S t) low)
           (take (S t) close) (take (S t) volume)).
Proof.
  intros Heq Hr.
  pose proof (calculate_all_indicators_truncate t df) as Hd.
  pose proof (calculate_all_indicators_truncate t df') as Hd'.
  rewrite Hr in Hd. rewrite Heq, Hd in Hd'.
  split; [done|].
  split; [|intros; apply generator_columns_causal].
  destruct (calculate_all_indicators qsqrt df') as [r'|e]; [|done].
  assert (truncate (S t) r' = truncate (S t) r) as Hrr by congruence.
  exists r'. split; [done|]. split; [done|].
  intros j name s Hj.
  apply (truncate_cols_lookup (S t) (df_cols r)); [|lia|done].
  by injection Hrr.
Qed.

End EngineCausal.

Lemma calculate_all_indicators_causal_witness :
  truncate 1 frame_b = truncate 1 frame_a
  ∧ calculate_all_indicators qsqrt_fixed frame_a = Ok (enriched frame_a)
  ∧ ∃ r', calculate_all_indicators qsqrt_fixed frame_b = Ok r'
      ∧ truncate 1 r' = truncate 1 (enriched frame_a).
Proof.
  assert (truncate 1 frame_b = truncate 1 frame_a) as H1 by reflexivity.
  assert (calculate_all_indicators qsqrt_fixed frame_a = Ok (enriched frame_a))
    as H2 by (vm_compute; reflexivity).
  split; [exact H1|]. split; [exact H2|].
  destruct (calculate_all_indicators_causal qsqrt_fixed frame_a frame_b
              (enriched frame_a) 0 H1 H2) as (_ & (r' & Hr' & Ht & _) & _).
  exists r'. split; [exact Hr'|exact Ht].
Defined.

(** * The exponential moving average *)

Section EMA.

Local Open Scope Qc_scope.

Lemma Qc_of_nat_nonneg (n : nat) : 0 ≤ Qc_of_Z (Z.of_nat n).
Proof. rewrite <- Z2Qc_inj_0. apply (proj1 (Z2Qc_inj_le _ _)). lia. Qed.

Lemma Qc_pos_ne0 (x : Qc) : 0 < x → x ≠ 0.
Proof. intros H ->. by apply (Qclt_not_eq 0 0). Qed.

Lemma Qc_two_pos : (0 : Qc) < 2.
Proof. by apply Qcplus_pos_pos. Qed.

(** the smoothing factor is [2 / (span + 1)] *)
Lemma ewm_alpha_span (span : nat) :
  ewm_alpha span = 2 / (Qc_of_Z (Z.of_nat span) + 1).
Proof.
  unfold ewm_alpha. pose proof (Qc_of_nat_nonneg span) as Hs.
  revert Hs. generalize (Qc_of_Z (Z.of_nat span)). intros s Hs.
  assert (s + 1 ≠ 0) as H1.
  { apply Qc_pos_ne0. by apply Qcplus_nonneg_pos. }
  assert ((2 : Qc) ≠ 0) as H2 by (apply Qc_pos_ne0, Qc_two_pos).
  field. split; [exact H1|exact H2].
Qed.

(** one step of the loop on finite data is the textbook recurrence *)
Lemma ewm_step_fin (alpha w c : Qc) :
  ewm_step alpha (Fin w) 1 (Fin c)
  = (Fin (alpha * c + (1 - alpha) * w), 1).
Proof.
  assert (1 - alpha + alpha = 1) as Hone by ring.
  assert ((1 : Qc) ≠ 0) as H10 by (apply Qc_pos_ne0; reflexivity).
  unfold ewm_step. cbn [notna isnan negb]. cbv zeta.
  rewrite Qcmult_1_l, Hone.
  unfold fneb, feqb. case_bool_decide as Heq; cbn [negb].
  - injection Heq as ->. f_equal. f_equal. ring.
  - cbn [fmul fadd]. unfold fdiv, Qc_eqb.
    rewrite (bool_decide_eq_false_2 _ H10).
    f_equal. f_equal. field. exact H10.
Qed.

Lemma ewm_loop_rec (alpha w : Qc) (r : Series) (t : nat) (xt et : Qc) :
  Forall is_finite r →
  (Fin w :: r) !! S t = Some (Fin xt) →
  (Fin w :: ewm_loop alpha (Fin w) 1 r) !! t = Some (Fin et) →
  (Fin w :: ewm_loop alpha (Fin w) 1 r) !! S t
  = Some (Fin (alpha * xt + (1 - alpha) * et)).
Proof.
  revert w t. induction r as [|c r IH]; intros w t Hfin Hx He; [done|].
  apply Forall_cons in Hfin as [Hc Hr].
  destruct c as [c| | |]; try (by destruct Hc).
  cbn [ewm_loop] in *. rewrite ewm_step_fin in *.
  destruct t as [|t]; simpl in *.
  - injection Hx as ->. injection He as ->. reflexivity.
  - apply IH; assumption.
Qed.

Lemma ewm_loop_finite (alpha w : Qc) (r : Series) :
  Forall is_finite r → Forall is_finite (ewm_loop alpha (Fin w) 1 r).
Proof.
  revert w. induction r as [|c r IH]; intros w Hfin; [constructor|].
  apply Forall_cons in Hfin as [Hc Hr].
  destruct c as [c| | |]; try (by destruct Hc).
  cbn [ewm_loop]. rewrite ewm_step_fin. constructor; [exact I|]. by apply IH.
Qed.

Lemma ewm_mean_finite (span : nat) (x : Series) :
  Forall is_finite x → Forall is_finite (ewm_mean span x).
Proof.
  destruct x as [|x0 r]; [constructor|]. intros Hfin.
  apply Forall_cons in Hfin as [H0 Hr].
  destruct x0 as [w| | |]; try (by destruct H0).
  cbn [ewm_mean]. constructor; [exact I|]. by apply ewm_loop_finite.
Qed.

(** C5, amended.  On a series of real values (no missing cell) of length at
    least 1 and for a span [s >= 1], the exponentially weighted mean starts
    at the first input, follows
    [EMA[t] = alpha * x[t] + (1 - alpha) * EMA[t-1]] with
    [alpha = 2 / (s + 1)] at every later row, has one cell per input row and
    is defined (finite) at every row.  [calculate_ema] of the generator
    script is the same function. *)
Theorem ewm_mean_recurrence (span : nat) (x : Series) :
  (1 ≤ span)%nat →
  (1 ≤ length x)%nat →
  Forall is_finite x →
  let alpha := 2 / (Qc_of_Z (Z.of_nat span) + 1) in
  let ema := ewm_mean span x in
  Generator.calculate_ema x span = ema
  ∧ length ema = length x
  ∧ ema !! 0%nat = x !! 0%nat
  ∧ (∀ (t : nat) (xt et : Qc),
       x !! S t = Some (Fin xt) → ema !! t = Some (Fin et) →
       ema !! S t = Some (Fin (alpha * xt + (1 - alpha) * et)))
  ∧ Forall is_finite ema.
Proof.
  intros Hspan Hlen Hfin alpha ema.
  split; [done|].
  destruct x as [|x0 r]; [simpl in Hlen; lia|].
  pose proof Hfin as Hfin'.
  apply Forall_cons in Hfin' as [H0 Hr].
  destruct x0 as [w| | |]; try (by destruct H0).
  split.
  { subst ema. simpl. f_equal.
    clear. generalize (Fin w) (1 : Qc). induction r as [|c r IH]; [done|].
    intros f q. simpl. destruct (ewm_step _ f q c). simpl. by rewrite IH. }
  split; [done|].
  split.
  - intros t xt et Hx He. subst ema alpha. rewrite <- ewm_alpha_span.
    by apply ewm_loop_rec.
  - by apply ewm_mean_finite.
Qed.

Lemma ewm_mean_recurrence_witness :
  (1 ≤ 3)%nat ∧ (1 ≤ length [fz 1; fz 2; fz 4])%nat
  ∧ Forall is_finite [fz 1; fz 2; fz 4]
  ∧ ewm_mean 3 [fz 1; fz 2; fz 4] !! 0%nat = Some (fz 1)
  ∧ ewm_mean 3 [fz 1; fz 2; fz 4] !! 1%nat
    = Some (Fin (2 / (Qc_of_Z (Z.of_nat 3) + 1) * Qc_of_Z 2
                 + (1 - 2 / (Qc_of_Z (Z.of_nat 3) + 1)) * Qc_of_Z 1)).
Proof.
  assert (1 ≤ 3)%nat as H1 by lia.
  assert (1 ≤ length [fz 1; fz 2; fz 4])%nat as H2 by (simpl; lia).
  assert (Forall is_finite [fz 1; fz 2; fz 4]) as H3
    by (repeat constructor).
  split; [exact H1|]. split; [exact H2|]. split; [exact H3|].
  destruct (ewm_mean_recurrence 3 [fz 1; fz 2; fz 4] H1 H2 H3)
    as (_ & _ & Hseed & Hrec & _).
  split; [exact Hseed|].
  apply (Hrec 0%nat (Qc_of_Z 2) (Qc_of_Z 1)); reflexivity.
Defined.

(** C5, counterexample.  A missing cell is skipped and the weight of the
    running mean decays with it: for span 3 ([alpha = 1/2]) the series
    [1, NaN, 4, 2] gives [1, 1, 3, 5/2], where the recurrence asks for
    [1/2 * 4 + 1/2 * 1 = 5/2] at row 2.  A series that starts with a missing
    cell has a mean that starts with one; the engine computes [trix_signal]
    as the mean of such a series ([trix] has no value at row 0). *)
Lemma ewm_mean_missing_cell_counterexample :
  let x := [fz 1; NaN; fz 4; fz 2] in
  let alpha := 2 / (Qc_of_Z (Z.of_nat 3) + 1) in
  (1 ≤ 3)%nat ∧ (1 ≤ length x)%nat
  ∧ ewm_mean 3 x = [fz 1; fz 1; fz 3; fq 5 2]
  ∧ Generator.calculate_ema x 3 = [fz 1; fz 1; fz 3; fq 5 2]
  ∧ x !! 2%nat = Some (Fin (Qc_of_Z 4))
  ∧ ewm_mean 3 x !! 1%nat = Some (Fin (Qc_of_Z 1))
  ∧ ewm_mean 3 x !! 2%nat
    ≠ Some (Fin (alpha * Qc_of_Z 4 + (1 - alpha) * Qc_of_Z 1))
  ∧ trix (getcol "close" frame_c) !! 0%nat = Some NaN
  ∧ trix_signal (getcol "close" frame_c) !! 0%nat = Some NaN
  ∧ ¬ Forall is_finite (trix_signal (getcol "close" frame_c)).
Proof.
  cbv zeta.
  split; [lia|]. split; [simpl; lia|].
  split; [compute_done|]. split; [compute_done|].
  split; [compute_done|]. split; [compute_done|].
  split; [compute_done|]. split; [compute_done|].
  assert (trix_signal (getcol "close" frame_c) !! 0%nat = Some NaN) as H0
    by compute_done.
  split; [exact H0|].
  intros Hfin. by apply (Forall_lookup_1 _ _ _ _ Hfin) in H0.
Qed.

End EMA.

(** * Windows larger than the series *)

Section ShortSeries.

Lemma rolling_apply_short (w : nat) (f : list fval → fval) (s : Series) :
  length s < w → rolling_apply w f s = replicate (length s) NaN.
Proof.
  intros Hlen. apply list_eq. intros i. unfold rolling_apply.
  rewrite list_lookup_imap.
  destruct (s !! i) as [x|] eqn:Hi; simpl.
  - apply lookup_lt_Some in Hi as Hlt.
    rewrite lookup_replicate_2 by done.
    unfold window_at. rewrite decide_False by lia. done.
  - apply lookup_ge_None in Hi. symmetry. apply lookup_replicate_None. lia.
Qed.

Lemma length_ewm_loop alpha weighted old_wt (s : Series) :
  length (ewm_loop alpha weighted old_wt s) = length s.
Proof.
  revert weighted old_wt. induction s as [|c r IH]; intros weighted old_wt;
    [done|].
  cbn [ewm_loop]. destruct (ewm_step alpha weighted old_wt c) as [w' o'].
  simpl. by rewrite IH.
Qed.

Lemma length_ewm_mean span (s : Series) : length (ewm_mean span s) = length s.
Proof. destruct s; [done|]. simpl. by rewrite length_ewm_loop. Qed.

Lemma finite_zip_with (f : fval → fval → fval) (a b : Series) :
  (∀ x y, is_finite x → is_finite y → is_finite (f x y)) →
  Forall is_finite a → Forall is_finite b → Forall is_finite (zip_with f a b).
Proof.
  intros Hf Ha. revert b. induction Ha as [|x a Hx Ha IH]; intros b Hb;
    [constructor|].
  destruct Hb as [|y b Hy Hb]; [constructor|].
  simpl. constructor; [by apply Hf|by apply IH].
Qed.

Lemma finite_fadd x y : is_finite x → is_finite y → is_finite (fadd x y).
Proof. by destruct x, y. Qed.
Lemma finite_fsub x y : is_finite x → is_finite y → is_finite (fsub x y).
Proof. by destruct x, y. Qed.
Lemma finite_scale (c : Qc) (s : Series) :
  Forall is_finite s → Forall is_finite (scale (Fin c) s).
Proof.
  intros Hs. unfold scale. induction Hs as [|x s Hx Hs IH]; [constructor|].
  simpl. constructor; [by destruct x|done].
Qed.

Lemma dema_finite period (close : Series) :
  Forall is_finite close → Forall is_finite (dema period close).
Proof.
  intros H. unfold dema, ssub.
  apply finite_zip_with; [apply finite_fsub| |].
  - by apply finite_scale, ewm_mean_finite.
  - by do 2 apply ewm_mean_finite.
Qed.

Lemma tema_finite period (close : Series) :
  Forall is_finite close → Forall is_finite (tema period close).
Proof.
  intros H. unfold tema, sadd, ssub.
  apply finite_zip_with; [apply finite_fadd| |].
  - apply finite_zip_with; [apply finite_fsub| |].
    + by apply finite_scale, ewm_mean_finite.
    + by apply finite_scale; do 2 apply ewm_mean_finite.
  - by do 3 apply ewm_mean_finite.
Qed.

Lemma zip_nonempty (a b : Series) :
  1 ≤ length a → 1 ≤ length b → zip a b ≠ [].
Proof. destruct a, b; simpl; intros; try lia; done. Qed.

(** the engine raises only for a missing column or an empty frame *)
Lemma calculate_all_indicators_total qsqrt (df : DataFrame) :
  first_missing df = None →
  1 ≤ length (getcol "high" df) →
  1 ≤ length (getcol "low" df) →
  ∃ r, calculate_all_indicators qsqrt df = Ok r
       ∧ df_date r = df_date df
       ∧ take (length (df_cols df)) (df_cols r) = df_cols df.
Proof.
  intros Hm Hh Hl. unfold calculate_all_indicators. rewrite Hm.
  unfold sar.
  pose proof (zip_nonempty _ _ Hh Hl) as Hz.
  destruct (zip (getcol "high" df) (getcol "low" df)) as [|[h0 l0] bars];
    [done|].
  eexists. split; [done|]. split; [done|].
  cbn [df_cols]. by rewrite take_app_length.
Qed.

(** C3, counterexample: the 200-period EMA of a one-row series is the value
    of that row, not the sentinel. *)
Lemma ewm_mean_oversized_span_defined :
  length [fz 5] < 200
  ∧ ewm_mean 200 [fz 5] = [fz 5]
  ∧ ¬ Forall (λ v, v = NaN) (ewm_mean 200 [fz 5]).
Proof.
  split; [simpl; lia|]. split; [reflexivity|].
  intros H. apply Forall_inv in H. discriminate H.
Qed.

(** C3, amended.  A window larger than the series makes SMA, WMA, rolling
    standard deviation and rolling min/max entirely NaN (in the engine and
    in the generator script); EMA, DEMA and TEMA have no warm-up, so on
    real-valued input they are defined at every row whatever the span; and
    the engine completes on every frame that has the required columns and
    at least one row. *)
Theorem oversized_window_policy qsqrt (w : nat) (s : Series) (df : DataFrame) :
  length s < w →
  (rolling_mean w s = replicate (length s) NaN
   ∧ Generator.calculate_sma s w = replicate (length s) NaN
   ∧ wma s w = replicate (length s) NaN
   ∧ Generator.calculate_wma s w = replicate (length s) NaN
   ∧ rolling_std qsqrt w s = replicate (length s) NaN
   ∧ rolling_max w s = replicate (length s) NaN
   ∧ rolling_min w s = replicate (length s) NaN)
  ∧ (Forall is_finite s →
     length (ewm_mean w s) = length s
     ∧ Forall is_finite (ewm_mean w s)
     ∧ Forall is_finite (dema w s)
     ∧ Forall is_finite (tema w s)
     ∧ Generator.calculate_ema s w = ewm_mean w s
     ∧ Generator.calculate_dema s w = dema w s
     ∧ Generator.calculate_tema s w = tema w s)
  ∧ (first_missing df = None →
     1 ≤ length (getcol "high" df) → 1 ≤ length (getcol "low" df) →
     ∃ r, calculate_all_indicators qsqrt df = Ok r).
Proof.
  intros Hlen. split; [|split].
  - repeat split; by apply rolling_apply_short.
  - intros Hfin. split; [apply length_ewm_mean|].
    split; [by apply ewm_mean_finite|].
    split; [by apply dema_finite|]. split; [by apply tema_finite|done].
  - intros Hm Hh Hl.
    destruct (calculate_all_indicators_total qsqrt df Hm Hh Hl) as (r & Hr & _).
    by exists r.
Qed.

Lemma oversized_window_policy_witness :
  length [fz 5] < 200
  ∧ Forall is_finite [fz 5]
  ∧ first_missing frame_a = None
  ∧ 1 ≤ length (getcol "high" frame_a)
  ∧ 1 ≤ length (getcol "low" frame_a)
  ∧ rolling_mean 200 [fz 5] = replicate (length [fz 5]) NaN
  ∧ Forall is_finite (ewm_mean 200 [fz 5])
  ∧ ∃ r, calculate_all_indicators qsqrt_fixed frame_a = Ok r.
Proof.
  assert (length [fz 5] < 200) as H1 by (simpl; lia).
  assert (Forall is_finite [fz 5]) as H2 by (repeat constructor).
  assert (first_missing frame_a = None) as H3 by reflexivity.
  assert (1 ≤ length (getcol "high" frame_a)) as H4 by (simpl; lia).
  assert (1 ≤ length (getcol "low" frame_a)) as H5 by (simpl; lia).
  split; [exact H1|]. split; [exact H2|]. split; [exact H3|].
  split; [exact H4|]. split; [exact H5|].
  destruct (oversized_window_policy qsqrt_fixed 200 [fz 5] frame_a H1)
    as ((Hsma & _) & Hema & Hengine).
  split; [exact Hsma|].
  split; [exact (proj1 (proj2 (Hema H2)))|].
  exact (Hengine H3 H4 H5).
Defined.

End ShortSeries.

(** * RSI stays between 0 and 100 *)

Section RSI.

Local Open Scope Qc_scope.

Lemma Qc_of_Z_nonneg (z : Z) : (0 ≤ z)%Z → 0 ≤ Qc_of_Z z.
Proof. intros H. rewrite <- Z2Qc_inj_0. by apply (proj1 (Z2Qc_inj_le _ _)). Qed.

Lemma Qc_of_Z_pos (z : Z) : (0 < z)%Z → 0 < Qc_of_Z z.
Proof. intros H. rewrite <- Z2Qc_inj_0. by apply (proj1 (Z2Qc_inj_lt _ _)). Qed.

Lemma Qcopp_0 : - (0 : Qc) = 0.
Proof. ring. Qed.

Lemma Qcopp_nonneg (q : Qc) : q ≤ 0 → 0 ≤ - q.
Proof. intros H. rewrite <- Qcopp_0. by apply Qcopp_le_compat. Qed.

Lemma Qcopp_nonpos (q : Qc) : 0 ≤ q → - q ≤ 0.
Proof. intros H. rewrite <- Qcopp_0. by apply Qcopp_le_compat. Qed.

Lemma Qcdiv_nonneg (a b : Qc) : 0 ≤ a → 0 < b → 0 ≤ a / b.
Proof.
  intros Ha Hb. unfold Qcdiv. apply Qcmult_nonneg_nonneg; [done|].
  apply Qclt_le_weak. by apply Qcinv_pos.
Qed.

Lemma Qcdiv_mult_cancel (a b : Qc) : b ≠ 0 → a / b * b = a.
Proof. intros Hb. field. exact Hb. Qed.

Lemma Qcdiv_le_self (a b : Qc) : 0 ≤ a → 1 ≤ b → a / b ≤ a.
Proof.
  intros Ha Hb.
  assert (0 < b) as Hpos by (eapply Qclt_le_trans; [|exact Hb]; reflexivity).
  apply (Qcmult_le_mono_pos_r _ _ b Hpos).
  rewrite Qcdiv_mult_cancel by (by apply Qc_pos_ne0).
  rewrite <- (Qcmult_1_r a) at 1.
  by apply Qcmult_le_mono_nonneg_l.
Qed.

Lemma Qc_nonneg_ne0_pos (a : Qc) : 0 ≤ a → a ≠ 0 → 0 < a.
Proof.
  intros Ha Hne. destruct (Qcle_lt_or_eq _ _ Ha) as [H|H]; [done|].
  by destruct Hne.
Qed.

Lemma Qc_ltb_true (a b : Qc) : a < b → Qc_ltb a b = true.
Proof. intros H. unfold Qc_ltb. by apply bool_decide_eq_true_2. Qed.

Lemma Qc_ltb_false (a b : Qc) : b ≤ a → Qc_ltb a b = false.
Proof.
  intros H. unfold Qc_ltb. apply bool_decide_eq_false_2.
  by apply Qcle_not_lt.
Qed.

Lemma Qc_ltb_spec (a b : Qc) : Qc_ltb a b = true ↔ a < b.
Proof. unfold Qc_ltb. apply bool_decide_eq_true. Qed.

Lemma Qc_eqb_spec (a b : Qc) : Qc_eqb a b = true ↔ a = b.
Proof. unfold Qc_eqb. apply bool_decide_eq_true. Qed.

Lemma nonneg0_nonneg v : nonneg0 v → nonneg v.
Proof. by destruct v. Qed.

Lemma fadd_nonneg0 x y : nonneg0 x → nonneg0 y → nonneg0 (fadd x y).
Proof.
  destruct x as [a| | |], y as [b| | |]; simpl; try done.
  apply Qcplus_nonneg_nonneg.
Qed.

Lemma fsum_nonneg0 (win : list fval) : Forall nonneg0 win → nonneg0 (fsum win).
Proof.
  unfold fsum.
  assert (nonneg0 (fz 0)) as H0 by (apply Qc_of_Z_nonneg; lia).
  revert H0. generalize (fz 0).
  induction win as [|x win IH]; intros acc Hacc Hwin; [done|].
  apply Forall_cons in Hwin as [Hx Hwin].
  simpl. apply IH; [|done]. by apply fadd_nonneg0.
Qed.

Lemma fdiv_nonneg x y : nonneg x → nonneg y → nonneg (fdiv x y).
Proof.
  destruct x as [a| | |], y as [b| | |]; cbn [fdiv nonneg]; try done.
  - intros Ha Hb. destruct (Qc_eqb b 0) eqn:Eb.
    + destruct (Qc_eqb a 0) eqn:Ea; [done|].
      rewrite Qc_ltb_true; [done|].
      apply Qc_nonneg_ne0_pos; [done|].
      intros H. apply Qc_eqb_spec in H. congruence.
    + cbn [nonneg]. apply Qcdiv_nonneg; [done|].
      apply Qc_nonneg_ne0_pos; [done|].
      intros H. apply Qc_eqb_spec in H. congruence.
  - intros _ Hb. by rewrite Qc_ltb_false.
Qed.

Lemma fmean_nonneg (win : list fval) : Forall nonneg0 win → nonneg (fmean win).
Proof.
  intros H. unfold fmean. apply fdiv_nonneg.
  - by apply nonneg0_nonneg, fsum_nonneg0.
  - apply Qc_of_Z_nonneg. lia.
Qed.

Lemma rolling_apply_Forall (P0 P : fval → Prop) w f (s : Series) :
  (∀ win, Forall P0 win → P (f win)) → P NaN →
  Forall P0 s → Forall P (rolling_apply w f s).
Proof.
  intros Hf Hnan Hs. apply Forall_lookup. intros i v.
  unfold rolling_apply. rewrite list_lookup_imap.
  destruct (s !! i) as [x|]; simpl; [|done].
  intros [= <-]. unfold window_at. case_decide; [|done].
  destruct (forallb isfinite _); [|done].
  by apply Hf, Forall_take, Forall_drop.
Qed.

Lemma where_map (p : fval → bool) (s : Series) (other : fval) :
  where_ (map p s) s other = map (λ x, if p x then x else other) s.
Proof.
  unfold where_. induction s as [|x s IH]; [done|]. simpl. by rewrite IH.
Qed.

Lemma gains_nonneg0 (delta : Series) :
  Forall nonneg0 (where_ (map (λ d, fgt d (fz 0)) delta) delta (fz 0)).
Proof.
  rewrite where_map. apply Forall_forall. intros v Hv.
  apply list_elem_of_fmap in Hv as (d & -> & _).
  destruct d as [q| | |]; simpl; try (apply Qc_of_Z_nonneg; lia); [|done].
  destruct (Qc_ltb (Qc_of_Z 0) q) eqn:E; simpl; [|apply Qc_of_Z_nonneg; lia].
  apply Qc_ltb_spec in E. rewrite Z2Qc_inj_0 in E. by apply Qclt_le_weak.
Qed.

Lemma losses_nonneg0 (delta : Series) :
  Forall nonneg0 (sneg (where_ (map (λ d, flt d (fz 0)) delta) delta (fz 0))).
Proof.
  rewrite where_map. unfold sneg. apply Forall_forall. intros v Hv.
  apply list_elem_of_fmap in Hv as (u & -> & Hu).
  apply list_elem_of_fmap in Hu as (d & -> & _).
  assert (nonneg0 (fneg (fz 0))) as H0.
  { simpl. apply Qcopp_nonneg. rewrite Z2Qc_inj_0. apply Qcle_refl. }
  destruct d as [q| | |]; try done.
  cbn [flt fz]. destruct (Qc_ltb q (Qc_of_Z 0)) eqn:E; [|done].
  apply Qc_ltb_spec in E. rewrite Z2Qc_inj_0 in E.
  simpl. by apply Qcopp_nonneg, Qclt_le_weak.
Qed.

Lemma sdiv_nonneg (a b : Series) :
  Forall nonneg a → Forall nonneg b → Forall nonneg (sdiv a b).
Proof.
  intros Ha. revert b. induction Ha as [|x a Hx Ha IH]; intros b Hb;
    [constructor|].
  destruct Hb as [|y b Hy Hb]; [constructor|].
  simpl. constructor; [by apply fdiv_nonneg|by apply IH].
Qed.

Lemma rsi_of_rs_bounds (rs : fval) : nonneg rs → in_0_100 (rsi_of_rs rs).
Proof.
  assert (0 ≤ Qc_of_Z 100) as H100 by (apply Qc_of_Z_nonneg; lia).
  unfold rsi_of_rs, c100, fz, in_0_100. revert H100.
  generalize (Qc_of_Z 100). intros h Hh.
  destruct rs as [r| | |]; try done.
  - intros Hr. cbn [fadd].
    assert (1 ≤ Qc_of_Z 1 + r) as HD.
    { rewrite Z2Qc_inj_1. rewrite <- (Qcplus_0_r 1) at 1.
      by apply (proj1 (Qcplus_le_mono_l _ _ _)). }
    revert HD. generalize (Qc_of_Z 1 + r). intros D HD.
    assert (0 < D) as HDpos by (eapply Qclt_le_trans; [|exact HD]; reflexivity).
    unfold fdiv, Qc_eqb.
    rewrite bool_decide_eq_false_2 by (by apply Qc_pos_ne0).
    cbn [fsub fneg fadd].
    pose proof (Qcdiv_nonneg h D Hh HDpos) as Hx0.
    pose proof (Qcdiv_le_self h D Hh HD) as Hx1.
    revert Hx0 Hx1. generalize (h / D). intros x Hx0 Hx1. split.
    + by apply (proj1 (Qcle_minus_iff _ _)).
    + apply Qcle_trans with (h + 0);
        [|rewrite Qcplus_0_r; apply Qcle_refl].
      apply (proj1 (Qcplus_le_mono_l _ _ _)). by apply Qcopp_nonpos.
  - intros _. cbn [fadd fdiv fsub fneg]. split.
    + rewrite Qcopp_0, Qcplus_0_r. done.
    + rewrite Qcopp_0, Qcplus_0_r. apply Qcle_refl.
Qed.

Lemma rsi_bounds (period : nat) (close : Series) :
  Forall in_0_100 (rsi period close).
Proof.
  unfold rsi. apply Forall_fmap. 
  eapply Forall_impl; [|intros rs Hrs; apply rsi_of_rs_bounds, Hrs].
  apply sdiv_nonneg.
  - unfold rsi_gain, rolling_mean.
    apply (rolling_apply_Forall nonneg0 nonneg); [apply fmean_nonneg|done|].
    apply gains_nonneg0.
  - unfold rsi_loss, rolling_mean.
    apply (rolling_apply_Forall nonneg0 nonneg); [apply fmean_nonneg|done|].
    apply losses_nonneg0.
Qed.

(** [rint] moves to a neighbouring integer and never crosses one *)
Lemma Qfloor_Qc_le (y : Qc) : Qc_of_Z (Qfloor y) ≤ y.
Proof. unfold Qcle, Qc_of_Z. cbn [this]. apply Qfloor_le. Qed.

Lemma rint_cases (y : Qc) :
  rint y = Qfloor y
  ∨ (rint y = (Qfloor y + 1)%Z ∧ Qc_of_Z (Qfloor y) < y).
Proof.
  unfold rint. cbv zeta.
  destruct (Qc_ltb (y - Qc_of_Z (Qfloor y)) (Q2Qc (1 # 2))) eqn:E1; [by left|].
  assert (Qc_of_Z (Qfloor y) < y) as Hlt.
  { apply (proj2 (Qclt_minus_iff _ _)).
    apply Qclt_le_trans with (Q2Qc (1 # 2)); [reflexivity|].
    apply Qcnot_lt_le. intros H.
    pose proof (proj2 (Qc_ltb_spec (y - Qc_of_Z (Qfloor y)) _) H) as H'.
    congruence. }
  destruct (Qc_ltb (Q2Qc (1 # 2)) (y - Qc_of_Z (Qfloor y))); [by right|].
  destruct (Z.even (Qfloor y)); [by left|by right].
Qed.

Lemma rint_lower (y : Qc) : 0 ≤ y → (0 ≤ rint y)%Z.
Proof.
  intros Hy.
  assert (0 ≤ Qfloor y)%Z as Hf.
  { change 0%Z with (Qfloor 0). apply Qfloor_resp_le. exact Hy. }
  destruct (rint_cases y) as [->|[-> _]]; lia.
Qed.

Lemma rint_upper (y : Qc) (N : Z) : y ≤ Qc_of_Z N → (rint y ≤ N)%Z.
Proof.
  intros Hy.
  assert (Qfloor y ≤ N)%Z as Hf.
  { rewrite <- (Qfloor_Z N). apply Qfloor_resp_le. exact Hy. }
  destruct (rint_cases y) as [->|[-> Hlt]]; [done|].
  assert (Qfloor y < N)%Z; [|lia].
  apply (proj2 (Z2Qc_inj_lt _ _)). by eapply Qclt_le_trans.
Qed.

Lemma round2_bounds (v : fval) : in_0_100 v → in_0_100 (round2 v).
Proof.
  destruct v as [q| | |]; try done.
  intros [H0 H1]. cbn [round2 in_0_100].
  assert (0 < Qc_of_Z 100) as Hpos by (apply Qc_of_Z_pos; lia).
  assert (0 ≤ q * Qc_of_Z 100) as Hy0.
  { apply Qcmult_nonneg_nonneg; [done|by apply Qclt_le_weak]. }
  assert (q * Qc_of_Z 100 ≤ Qc_of_Z (100 * 100)) as Hy1.
  { rewrite Z2Qc_inj_mul. apply Qcmult_le_mono_nonneg_r; [|done].
    by apply Qclt_le_weak. }
  pose proof (rint_lower _ Hy0) as Hz0.
  pose proof (rint_upper _ _ Hy1) as Hz1.
  revert Hz0 Hz1. generalize (rint (q * Qc_of_Z 100)). intros z Hz0 Hz1.
  split.
  - apply Qcdiv_nonneg; [by apply Qc_of_Z_nonneg|done].
  - apply (Qcmult_le_mono_pos_r _ _ (Qc_of_Z 100) Hpos).
    rewrite Qcdiv_mult_cancel by (by apply Qc_pos_ne0).
    rewrite <- Z2Qc_inj_mul. by apply (proj1 (Z2Qc_inj_le _ _)).
Qed.

Lemma in_0_100_defined (v : fval) :
  in_0_100 v → v ≠ NaN → ∃ q : Qc, v = Fin q ∧ 0 ≤ q ∧ q ≤ Qc_of_Z 100.
Proof. destruct v as [q| | |]; try done. intros [H0 H1] _. by exists q. Qed.

End RSI.

(** * The columns of the enriched frame *)

Section EngineColumns.

Variable qsqrt : Qc → Qc.

Lemma calculate_all_indicators_Ok (df r : DataFrame) :
  calculate_all_indicators qsqrt df = Ok r →
  first_missing df = None
  ∧ ∃ sar_col,
      sar (getcol "high" df) (getcol "low" df) = Some sar_col
      ∧ r = mkDF (df_date df)
              (df_cols df ++
               round_columns
                 (indicators qsqrt (getcol "high" df) (getcol "low" df)
                    (getcol "close" df) (getcol "volume" df) sar_col)).
Proof.
  unfold calculate_all_indicators.
  destruct (first_missing df); [done|].
  destruct (sar (getcol "high" df) (getcol "low" df)) as [sar_col|]; [|done].
  intros [= <-]. split; [done|]. by exists sar_col.
Qed.

Lemma assoc_round_columns name cols :
  assoc name (round_columns cols) = sround2 <$> assoc name cols.
Proof.
  induction cols as [|[n s] cols IH]; [done|].
  simpl. case_decide; [done|]. apply IH.
Qed.

Lemma indicator_column_spec (df r : DataFrame) (name : string) (s : Series) :
  calculate_all_indicators qsqrt df = Ok r →
  (∀ sar_col,
     assoc name (indicators qsqrt (getcol "high" df) (getcol "low" df)
                   (getcol "close" df) (getcol "volume" df) sar_col)
     = Some s) →
  indicator_column df r name = Some (sround2 s).
Proof.
  intros Hr Hs. apply calculate_all_indicators_Ok in Hr as (_ & sar_col & _ & ->).
  unfold indicator_column. cbn [df_cols]. rewrite drop_app_length.
  by rewrite assoc_round_columns, Hs.
Qed.

Lemma indicators_obv high low close volume sar_col :
  assoc "obv" (indicators qsqrt high low close volume sar_col)
  = Some (obv close volume).
Proof. reflexivity. Qed.

Lemma indicators_rsi period high low close volume sar_col :
  period ∈ [6; 9; 12; 14; 21; 24] →
  assoc (fname "rsi_" period) (indicators qsqrt high low close volume sar_col)
  = Some (rsi period close).
Proof.
  intros H.
  repeat (apply elem_of_cons in H as [->|H]; [reflexivity|]).
  by apply elem_of_nil in H.
Qed.

Lemma Forall_lookup_defined (s : Series) (t : nat) (v : fval) :
  Forall in_0_100 s → s !! t = Some v → v ≠ NaN →
  ∃ q : Qc, v = Fin q ∧ (0 ≤ q)%Qc ∧ (q ≤ Qc_of_Z 100)%Qc.
Proof.
  intros Hs Ht Hv. apply in_0_100_defined; [|done].
  by apply (proj1 (Forall_lookup _ _) Hs t).
Qed.

Lemma calculate_rsi_eq prices period :
  Generator.calculate_rsi prices period = rsi period prices.
Proof. reflexivity. Qed.

(** C7 (RSI bounds).  For each RSI period of the engine, the column
    [rsi_{period}] of the enriched frame is the rounded RSI of the close
    series, and every cell of it that is not NaN is a real number between 0
    and 100 (with zero average loss and positive average gain the cell is
    100).  The same bound holds for [calculate_rsi] of the generator script,
    for every series and every period. *)
Theorem rsi_within_0_100 (df r : DataFrame) (period : nat) :
  calculate_all_indicators qsqrt df = Ok r →
  period ∈ [6; 9; 12; 14; 21; 24] →
  indicator_column df r (fname "rsi_" period)
  = Some (sround2 (rsi period (getcol "close" df)))
  ∧ (∀ (t : nat) (v : fval),
       sround2 (rsi period (getcol "close" df)) !! t = Some v → v ≠ NaN →
       ∃ q : Qc, v = Fin q ∧ (0 ≤ q)%Qc ∧ (q ≤ Qc_of_Z 100)%Qc)
  ∧ (∀ (prices : Series) (p t : nat) (v : fval),
       Generator.calculate_rsi prices p !! t = Some v → v ≠ NaN →
       ∃ q : Qc, v = Fin q ∧ (0 ≤ q)%Qc ∧ (q ≤ Qc_of_Z 100)%Qc).
Proof.
  intros Hr Hp. split; [|split].
  - apply indicator_column_spec; [done|]. intros sar_col.
    by apply indicators_rsi.
  - intros t v. apply Forall_lookup_defined.
    unfold sround2. apply Forall_fmap.
    eapply Forall_impl; [apply rsi_bounds|]. intros x Hx. by apply round2_bounds.
  - intros prices p t v. rewrite calculate_rsi_eq.
    apply Forall_lookup_defined, rsi_bounds.
Qed.

End EngineColumns.


(** * On-balance volume *)

Section OBV.

Variable qsqrt : Qc → Qc.

Local Open Scope Qc_scope.

Lemma rint_Qc_of_Z (n : Z) : rint (Qc_of_Z n) = n.
Proof.
  unfold rint. cbv zeta.
  change (Qfloor (Qc_of_Z n)) with (Qfloor (inject_Z n)).
  rewrite Qfloor_Z.
  replace (Qc_of_Z n - Qc_of_Z n) with (0 : Qc) by ring.
  by rewrite Qc_ltb_true by reflexivity.
Qed.

Lemma Qc_100_ne0 : Qc_of_Z 100 ≠ 0.
Proof. apply Qc_pos_ne0, Qc_of_Z_pos. lia. Qed.

Lemma round2_two_decimals (v : fval) : two_decimals v → round2 v = v.
Proof.
  destruct v as [q| | |]; try done.
  intros [z ->]. cbn [round2].
  rewrite Qcdiv_mult_cancel by apply Qc_100_ne0.
  by rewrite rint_Qc_of_Z.
Qed.

Lemma integer_like_two_decimals (v : fval) : integer_like v → two_decimals v.
Proof.
  destruct v as [q| | |]; try done.
  intros [z ->]. exists (z * 100)%Z. rewrite Z2Qc_inj_mul.
  field. apply Qc_100_ne0.
Qed.

Lemma round2_integer_like (v : fval) : integer_like v → round2 v = v.
Proof. intros H. by apply round2_two_decimals, integer_like_two_decimals. Qed.

Lemma sround2_two_decimals (s : Series) :
  Forall two_decimals s → sround2 s = s.
Proof.
  intros H. unfold sround2. induction H as [|x s Hx Hs IH]; [done|].
  simpl. by rewrite round2_two_decimals, IH.
Qed.

Lemma two_decimals_fadd x y :
  two_decimals x → two_decimals y → two_decimals (fadd x y).
Proof.
  destruct x as [a| | |], y as [b| | |]; try done.
  intros [za ->] [zb ->]. exists (za + zb)%Z. rewrite Z2Qc_inj_add.
  field. apply Qc_100_ne0.
Qed.

Lemma two_decimals_fneg x : two_decimals x → two_decimals (fneg x).
Proof.
  destruct x as [a| | |]; try done.
  intros [za ->]. exists (- za)%Z. rewrite Z2Qc_inj_opp.
  cbn [fneg]. field. apply Qc_100_ne0.
Qed.

Lemma two_decimals_fz (z : Z) : two_decimals (fz z).
Proof. apply integer_like_two_decimals. by exists z. Qed.

Lemma two_decimals_obv_next prev last c v :
  two_decimals last → two_decimals v → two_decimals (obv_next prev last c v).
Proof.
  intros Hl Hv. unfold obv_next, fsub.
  destruct (fgt c prev); [by apply two_decimals_fadd|].
  destruct (flt c prev); [|done].
  by apply two_decimals_fadd, two_decimals_fneg.
Qed.

Lemma two_decimals_obv_loop prev last (cs vs : Series) :
  two_decimals last → Forall two_decimals vs →
  Forall two_decimals (obv_loop prev last (zip cs vs)).
Proof.
  revert prev last vs. induction cs as [|c cs IH]; intros prev last vs Hl Hvs;
    [constructor|].
  destruct Hvs as [|v vs Hv Hvs]; [constructor|].
  simpl. constructor; [by apply two_decimals_obv_next|].
  apply IH; [by apply two_decimals_obv_next|done].
Qed.

Lemma two_decimals_obv (close volume : Series) :
  Forall two_decimals volume → Forall two_decimals (obv close volume).
Proof.
  intros Hv. unfold obv. constructor; [apply two_decimals_fz|].
  destruct close as [|c0 cs]; [constructor|].
  apply two_decimals_obv_loop; [apply two_decimals_fz|].
  destruct Hv; [constructor|done].
Qed.

(** the loop: the cell after [o] is [obv_next] of the two closes *)
Lemma obv_loop_lookup prev last (cs vs : Series) (t : nat) (c' c v o : fval) :
  (prev :: cs) !! t = Some c' →
  (prev :: cs) !! S t = Some c →
  vs !! t = Some v →
  (last :: obv_loop prev last (zip cs vs)) !! t = Some o →
  (last :: obv_loop prev last (zip cs vs)) !! S t
  = Some (obv_next c' o c v).
Proof.
  revert prev last vs t.
  induction cs as [|c1 cs IH]; intros prev last vs t Hc' Hc Hv Ho; [done|].
  destruct vs as [|v1 vs]; [done|].
  destruct t as [|t]; simpl in *.
  - by injection Hc' as ->; injection Hc as ->; injection Hv as ->;
      injection Ho as ->.
  - by apply IH.
Qed.

Lemma obv_raw_recurrence (close volume : Series) (t : nat) (c' c v o : fval) :
  close !! t = Some c' →
  close !! S t = Some c →
  volume !! S t = Some v →
  obv close volume !! t = Some o →
  obv close volume !! S t = Some (obv_next c' o c v).
Proof.
  unfold obv. destruct close as [|c0 cs]; [done|].
  intros Hc' Hc Hv Ho.
  apply obv_loop_lookup; try done.
  by destruct volume.
Qed.

Lemma flt_irrefl (x : fval) : flt x x = false.
Proof.
  destruct x as [q| | |]; try done. simpl.
  apply Qc_ltb_false, Qcle_refl.
Qed.

(** *** The one-line OBV of the generator script *)

Lemma fz0 : fz 0 = Fin 0.
Proof. unfold fz. by rewrite Z2Qc_inj_0. Qed.

Lemma fadd_fz0_r (x : fval) : fadd x (fz 0) = x.
Proof. rewrite fz0. destruct x as [a| | |]; try done. simpl. f_equal. ring. Qed.

Lemma Qc_of_Z_1_ne0 : Qc_of_Z 1 ≠ 0.
Proof. apply Qc_pos_ne0, Qc_of_Z_pos. lia. Qed.

Lemma fmul_one (v : fval) : fmul (fz 1) v = v.
Proof.
  assert (∀ pos, inf_signed (Qc_of_Z 1) pos = if pos then PInf else NInf) as Hs.
  { intros pos. unfold inf_signed, Qc_eqb.
    rewrite bool_decide_eq_false_2 by apply Qc_of_Z_1_ne0.
    by rewrite Qc_ltb_true by (apply Qc_of_Z_pos; lia). }
  unfold fz. destruct v as [q| | |]; cbn [fmul]; rewrite ?Hs; [|done..].
  f_equal. rewrite Z2Qc_inj_1. ring.
Qed.

Lemma Qc_of_Z_m1_neg : Qc_of_Z (-1) < 0.
Proof. rewrite <- Z2Qc_inj_0. apply (proj1 (Z2Qc_inj_lt _ _)). lia. Qed.

Lemma fmul_minus_one (v : fval) : fmul (fz (-1)) v = fneg v.
Proof.
  assert (∀ pos, inf_signed (Qc_of_Z (-1)) pos = if pos then NInf else PInf)
    as Hs.
  { intros pos. unfold inf_signed, Qc_eqb.
    rewrite bool_decide_eq_false_2.
    - by rewrite Qc_ltb_false by apply Qclt_le_weak, Qc_of_Z_m1_neg.
    - intros H. pose proof Qc_of_Z_m1_neg as Hlt. rewrite H in Hlt.
      by apply (Qclt_not_eq 0 0). }
  unfold fz. destruct v as [q| | |]; cbn [fmul fneg]; rewrite ?Hs; [|done..].
  f_equal; try (rewrite Z2Qc_inj_opp, Z2Qc_inj_1; ring).
Qed.

Lemma fillna_fmul_zero (v : fval) :
  (let y := fmul (fz 0) v in if isnan y then fz 0 else y) = fz 0.
Proof.
  assert (∀ pos, inf_signed 0 pos = NaN) as Hs.
  { intros pos. unfold inf_signed, Qc_eqb.
    by rewrite bool_decide_eq_true_2 by reflexivity. }
  rewrite fz0. destruct v as [q| | |]; cbn [fmul]; rewrite ?Hs; [|done..].
  cbn [isnan]. f_equal. ring.
Qed.

(** the sign of a difference against the two comparisons of the loop *)
Lemma fsign_diff (c prev : fval) :
  (fgt c prev = true ∧ Generator.fsign (fsub c prev) = fz 1)
  ∨ (fgt c prev = false ∧ flt c prev = true
     ∧ Generator.fsign (fsub c prev) = fz (-1))
  ∨ (fgt c prev = false ∧ flt c prev = false
     ∧ (Generator.fsign (fsub c prev) = fz 0
        ∨ Generator.fsign (fsub c prev) = NaN)).
Proof.
  unfold fgt.
  destruct c as [a| | |], prev as [b| | |]; cbn [fsub fneg fadd flt Generator.fsign];
    try (by left); try (by right; left); try (by right; right; auto).
  destruct (Qc_ltb 0 (a + - b)) eqn:E1.
  - left. split; [|done]. apply Qc_ltb_true.
    apply Qc_ltb_spec in E1. by apply (proj2 (Qclt_minus_iff _ _)).
  - right.
    assert (Qc_ltb b a = false) as Hgt.
    { apply Qc_ltb_false. apply Qcnot_lt_le. intros H.
      apply (proj1 (Qclt_minus_iff _ _)) in H.
      apply Qc_ltb_true in H. congruence. }
    rewrite Hgt.
    destruct (Qc_ltb (a + - b) 0) eqn:E2.
    + left. split; [done|]. split; [|done]. apply Qc_ltb_true.
      apply Qc_ltb_spec in E2.
      apply (proj2 (Qclt_minus_iff _ _)).
      replace (b + - a) with (- (a + - b)) by ring.
      rewrite <- Qcopp_0.
      apply Qcnot_le_lt. intros Hle. apply Qcopp_le_compat in Hle.
      rewrite !Qcopp_involutive in Hle.
      by apply (Qcle_not_lt _ _ Hle).
    + right. split; [done|]. split; [|by left].
      apply Qc_ltb_false. apply Qcnot_lt_le. intros H.
      apply (proj1 (Qclt_minus_iff _ _)) in H.
      replace (b + - a) with (- (a + - b)) in H by ring.
      assert (a + - b < 0) as H'.
      { rewrite <- (Qcopp_involutive (a + - b)), <- Qcopp_0.
        apply Qcnot_le_lt. intros Hle. apply Qcopp_le_compat in Hle.
        rewrite !Qcopp_involutive in Hle.
        by apply (Qcle_not_lt _ _ Hle). }
      apply Qc_ltb_true in H'. congruence.
Qed.

Lemma generator_obv_cell (prev acc c v : fval) :
  v ≠ NaN →
  let y := fmul (Generator.fsign (fsub c prev)) v in
  let x := if isnan y then fz 0 else y in
  isnan x = false ∧ fadd acc x = obv_next prev acc c v.
Proof.
  intros Hv. cbv zeta. unfold obv_next.
  destruct (fsign_diff c prev)
    as [[Hgt ->]|[(Hgt & Hlt & ->)|(Hgt & Hlt & [-> | ->])]];
    rewrite Hgt, ?Hlt.
  - rewrite fmul_one. by destruct v.
  - rewrite fmul_minus_one. by destruct v.
  - rewrite fillna_fmul_zero. split; [by rewrite fz0|apply fadd_fz0_r].
  - cbn [fmul isnan]. split; [by rewrite fz0|apply fadd_fz0_r].
Qed.

Lemma generator_obv_loop (prev acc : fval) (cs vs : Series) :
  Forall (λ v, v ≠ NaN) vs →
  cumsum_from acc
    (fillna (fz 0)
       (smul (map Generator.fsign
                (ssub cs (take (length cs) (prev :: cs)))) vs))
  = obv_loop prev acc (zip cs vs).
Proof.
  intros Hvs. revert prev acc cs.
  induction Hvs as [|v vs Hv Hvs IH]; intros prev acc cs.
  { destruct cs; [done|]. simpl. done. }
  destruct cs as [|c cs]; [done|].
  cbn [length take ssub smul zip_with map fillna cumsum_from zip obv_loop].
  destruct (generator_obv_cell prev acc c v Hv) as [Hnan Hadd].
  cbv zeta in Hnan, Hadd. rewrite Hnan, Hadd. f_equal. apply IH.
Qed.

Lemma generator_obv_eq (close volume : Series) :
  Forall (λ v, v ≠ NaN) volume →
  (1 ≤ length close)%nat → length close = length volume →
  Generator.obv close volume = obv close volume.
Proof.
  intros Hvol Hlen Heq.
  destruct close as [|c0 cs]; [simpl in Hlen; lia|].
  destruct volume as [|v0 vs]; [done|].
  apply Forall_cons in Hvol as [_ Hvs].
  unfold Generator.obv, obv, diff, shift, cumsum.
  cbn [length replicate app take ssub zip_with map smul fillna tail].
  replace (fmul (Generator.fsign (fsub c0 NaN)) v0) with NaN
    by (by destruct c0).
  cbn [isnan cumsum_from]. rewrite fadd_fz0_r. f_equal.
  by apply generator_obv_loop.
Qed.

(** C6, amended.  On a frame whose volume cells have at most two decimal
    digits (in particular the integer-like volumes of the data model) and
    whose running total stays within the range of a 64-bit integer (the
    loop sums an integer volume column in that type), the [obv] column of
    the enriched frame starts at 0 and, at every later row, adds the volume
    when the close rose, subtracts it when the close fell, and repeats the
    previous cell when the close is unchanged (or when the two closes do
    not compare).  The one-line OBV of the generator script is the same
    column when the volume has no missing cell. *)
Theorem obv_recurrence (df r : DataFrame) :
  calculate_all_indicators qsqrt df = Ok r →
  Forall two_decimals (getcol "volume" df) →
  Forall int64_range (obv (getcol "close" df) (getcol "volume" df)) →
  let close := getcol "close" df in
  let volume := getcol "volume" df in
  ∃ obv_col : Series,
    indicator_column df r "obv" = Some obv_col
    ∧ obv_col !! 0%nat = Some (fz 0)
    ∧ (∀ (t : nat) (c' c v o : fval),
         close !! t = Some c' → close !! S t = Some c →
         volume !! S t = Some v → obv_col !! t = Some o →
         (fgt c c' = true → obv_col !! S t = Some (fadd o v))
         ∧ (flt c c' = true → obv_col !! S t = Some (fsub o v))
         ∧ (c = c' ∨ (fgt c c' = false ∧ flt c c' = false) →
            obv_col !! S t = Some o))
    ∧ (Forall (λ v, v ≠ NaN) volume →
       (1 ≤ length close)%nat → length close = length volume →
       Generator.obv close volume = obv_col).
Proof.
  intros Hr Hvol _ close volume.
  exists (obv close volume).
  assert (sround2 (obv close volume) = obv close volume) as Hround.
  { by apply sround2_two_decimals, two_decimals_obv. }
  split.
  { rewrite <- Hround. apply (indicator_column_spec qsqrt); [done|].
    intros sar_col. apply indicators_obv. }
  split; [done|].
  split; [|apply generator_obv_eq].
  intros t c' c v o Hc' Hc Hv Ho.
  pose proof (obv_raw_recurrence close volume t c' c v o Hc' Hc Hv Ho) as Hstep.
  rewrite Hstep. unfold obv_next.
  split; [by intros ->|]. split.
  - intros Hlt. destruct (fgt c c') eqn:Hgt; [|by rewrite Hlt].
    unfold fgt in Hgt.
    destruct c as [a| | |], c' as [b| | |]; simpl in *; try done.
    apply Qc_ltb_spec in Hgt, Hlt.
    destruct (Qclt_not_le _ _ Hgt). by apply Qclt_le_weak.
  - intros [->|[-> ->]]; [|done].
    unfold fgt. by rewrite flt_irrefl.
Qed.

End OBV.

(** * Division by zero *)

Section DivisionByZero.

Variable qsqrt : Qc → Qc.

Local Open Scope Qc_scope.

Lemma lookup_zip_with_2 {A B C} (f : A → B → C) (l : list A) (k : list B)
    (i : nat) (x : A) (y : B) :
  l !! i = Some x → k !! i = Some y → zip_with f l k !! i = Some (f x y).
Proof. intros Hx Hy. by rewrite lookup_zip_with, Hx, Hy. Qed.

Lemma lookup_map_2 {A B} (f : A → B) (l : list A) (i : nat) (x : A) :
  l !! i = Some x → map f l !! i = Some (f x).
Proof. intros Hx. change (map f l) with (f <$> l). by rewrite list_lookup_fmap, Hx. Qed.

Lemma fsub_self (p : Qc) : fsub (Fin p) (Fin p) = Fin 0.
Proof. unfold fsub. cbn [fneg fadd]. f_equal. ring. Qed.

Lemma fdiv_zero_not_finite (x : fval) : ¬ is_finite (fdiv x (Fin 0)).
Proof.
  destruct x as [a| | |]; cbn [fdiv].
  - unfold Qc_eqb at 1. rewrite bool_decide_eq_true_2 by reflexivity.
    destruct (Qc_eqb a 0), (Qc_ltb 0 a); intros [].
  - rewrite Qc_ltb_false by apply Qcle_refl. intros [].
  - rewrite Qc_ltb_false by apply Qcle_refl. intros [].
  - intros [].
Qed.

Lemma fdiv_zero_zero : fdiv (Fin 0) (Fin 0) = NaN.
Proof.
  cbn [fdiv]. unfold Qc_eqb. by rewrite bool_decide_eq_true_2 by reflexivity.
Qed.

Lemma fmul_not_finite_l (x y : fval) :
  ¬ is_finite x → ¬ is_finite (fmul x y).
Proof.
  intros Hx.
  destruct x as [a| | |], y as [b| | |]; cbn [fmul]; unfold inf_signed;
    try (intros []); try (by destruct Hx);
    destruct (Qc_eqb b 0), (Qc_ltb 0 b); intros [].
Qed.

Lemma fadd_not_finite_r (x y : fval) :
  ¬ is_finite y → ¬ is_finite (fadd x y).
Proof. intros Hy. destruct x, y; cbn [fadd]; try (intros []); by destruct Hy. Qed.

Lemma round2_not_finite (x : fval) : ¬ is_finite x → round2 x = x.
Proof. intros Hx. destruct x; [by destruct Hx|done..]. Qed.

Lemma cumsum_from_not_finite (acc : fval) (s : Series) (t : nat) (x : fval) :
  s !! t = Some x → ¬ is_finite x →
  ∃ y, cumsum_from acc s !! t = Some y ∧ ¬ is_finite y ∧ (x = NaN → y = NaN).
Proof.
  revert acc t. induction s as [|x0 s IH]; intros acc t Ht Hx; [done|].
  destruct t as [|t]; simpl in Ht.
  - injection Ht as ->. cbn [cumsum_from].
    destruct (isnan x) eqn:E.
    + exists NaN. split; [done|]. split; [intros []|done].
    + exists (fadd acc x). split; [done|].
      split; [by apply fadd_not_finite_r|]. intros ->. done.
  - cbn [cumsum_from]. destruct (isnan x0); simpl; by apply IH.
Qed.

(** the cells of a bar with [high = low]: the money-flow multiplier *)
Lemma mfm_zero_range (high low close : Series) (t : nat) (p : Qc) (c : fval) :
  high !! t = Some (Fin p) → low !! t = Some (Fin p) → close !! t = Some c →
  ∃ m, mfm high low close !! t = Some m ∧ ¬ is_finite m
       ∧ (c = Fin p → m = NaN).
Proof.
  intros Hh Hl Hc. unfold mfm, sdiv, ssub.
  eexists. split.
  { apply lookup_zip_with_2; [|by apply lookup_zip_with_2].
    apply lookup_zip_with_2; by apply lookup_zip_with_2. }
  rewrite fsub_self. split; [apply fdiv_zero_not_finite|].
  intros ->. by rewrite !fsub_self, fdiv_zero_zero.
Qed.

Lemma intraday_raw_zero_range (high low close : Series) (t : nat) (p : Qc)
    (c : fval) :
  high !! t = Some (Fin p) → low !! t = Some (Fin p) → close !! t = Some c →
  ∃ m, sdiv (ssub (ssub (scale (fz 2) close) high) low) (ssub high low) !! t
       = Some m
       ∧ ¬ is_finite m ∧ (c = Fin p → m = NaN).
Proof.
  intros Hh Hl Hc. unfold sdiv, ssub, scale.
  eexists. split.
  { apply lookup_zip_with_2; [|by apply lookup_zip_with_2].
    apply lookup_zip_with_2; [|done].
    apply lookup_zip_with_2; [|done]. by apply lookup_map_2. }
  rewrite fsub_self. split; [apply fdiv_zero_not_finite|].
  intros ->.
  replace (fsub (fsub (fmul (fz 2) (Fin p)) (Fin p)) (Fin p)) with (Fin 0);
    [apply fdiv_zero_zero|].
  unfold fsub, fz. cbn [fmul fneg fadd]. f_equal.
  rewrite Z2Qc_inj_2. ring.
Qed.

(** RSI with zero average loss *)
Lemma rsi_zero_loss (period : nat) (close : Series) (t : nat) (g : fval) :
  rsi_loss period close !! t = Some (Fin 0) →
  rsi_gain period close !! t = Some g →
  sround2 (rsi period close) !! t
  = Some (match g with
          | Fin a => if Qc_eqb a 0 then NaN else fz 100
          | PInf | NInf => fz 100
          | NaN => NaN
          end).
Proof.
  intros Hl Hg. unfold sround2, rsi.
  erewrite lookup_map_2; [|apply lookup_map_2, lookup_zip_with_2; done].
  f_equal. unfold rsi_of_rs, c100.
  assert (round2 (fz 100) = fz 100) as H100.
  { apply round2_integer_like. by exists 100%Z. }
  assert (fsub (fz 100) (Fin 0) = fz 100) as Hsub.
  { unfold fsub, fz. cbn [fneg fadd]. f_equal. ring. }
  destruct g as [a| | |]; cbn [fdiv].
  - unfold Qc_eqb at 1. rewrite bool_decide_eq_true_2 by reflexivity.
    destruct (Qc_eqb a 0); [done|].
    destruct (Qc_ltb 0 a); cbn [fadd fz fdiv]; fold (fz 100);
      by rewrite Hsub.
  - rewrite Qc_ltb_false by apply Qcle_refl.
    cbn [fadd fz fdiv]. fold (fz 100). by rewrite Hsub.
  - rewrite Qc_ltb_false by apply Qcle_refl.
    cbn [fadd fz fdiv]. fold (fz 100). by rewrite Hsub.
  - done.
Qed.

Lemma indicators_ad_line high low close volume sar_col :
  assoc "ad_line" (indicators qsqrt high low close volume sar_col)
  = Some (ad_line high low close volume).
Proof. reflexivity. Qed.

Lemma indicators_intraday_intensity high low close volume sar_col :
  assoc "intraday_intensity" (indicators qsqrt high low close volume sar_col)
  = Some (intraday_intensity high low close volume).
Proof. reflexivity. Qed.

(** C2, amended.  At a row where [high = low] (a zero range), the engine's
    [ad_line] and [intraday_intensity] cells are never a real number: they
    are NaN when the close equals that price too (the only case the bar
    invariant [low <= close <= high] allows) and an infinity or NaN
    otherwise.  For RSI, at a row where the average loss is zero the cell is
    NaN when the average gain is zero as well and 100 otherwise.  The
    generator script fills the undefined money-flow multiplier and the
    undefined intraday-intensity cell with 0 ([fillna(0)]).  No case
    raises: the engine returns a frame whenever the required columns are
    there and the frame is not empty. *)
Theorem division_by_zero_policy (df r : DataFrame) (t : nat) (p : Qc)
    (c v : fval) :
  let high := getcol "high" df in
  let low := getcol "low" df in
  let close := getcol "close" df in
  let volume := getcol "volume" df in
  calculate_all_indicators qsqrt df = Ok r →
  high !! t = Some (Fin p) → low !! t = Some (Fin p) →
  close !! t = Some c → volume !! t = Some v →
  (∃ col y, indicator_column df r "ad_line" = Some col
            ∧ col !! t = Some y ∧ ¬ is_finite y ∧ (c = Fin p → y = NaN))
  ∧ (∃ col y, indicator_column df r "intraday_intensity" = Some col
              ∧ col !! t = Some y ∧ ¬ is_finite y ∧ (c = Fin p → y = NaN))
  ∧ (∀ (period : nat) (g : fval),
       period ∈ [6; 9; 12; 14; 21; 24] →
       rsi_loss period close !! t = Some (Fin 0) →
       rsi_gain period close !! t = Some g →
       ∃ col, indicator_column df r (fname "rsi_" period) = Some col
              ∧ col !! t = Some (match g with
                                 | Fin a => if Qc_eqb a 0 then NaN else fz 100
                                 | PInf | NInf => fz 100
                                 | NaN => NaN
                                 end))
  ∧ (c = Fin p →
     Generator.clv high low close !! t = Some (fz 0)
     ∧ Generator.intraday_intensity high low close volume !! t = Some (fz 0))
  ∧ (∀ df' : DataFrame,
       first_missing df' = None →
       (1 ≤ length (getcol "high" df'))%nat →
       (1 ≤ length (getcol "low" df'))%nat →
       ∃ r', calculate_all_indicators qsqrt df' = Ok r').
Proof.
  intros high low close volume Hr Hh Hl Hc Hv.
  destruct (mfm_zero_range high low close t p c Hh Hl Hc) as (m & Hm & Hmf & Hmn).
  destruct (intraday_raw_zero_range high low close t p c Hh Hl Hc)
    as (m' & Hm' & Hmf' & Hmn').
  split; [|split; [|split; [|split]]].
  - destruct (cumsum_from_not_finite (fz 0) (smul (mfm high low close) volume)
                t (fmul m v)) as (y & Hy & Hyf & Hyn).
    { by apply lookup_zip_with_2. }
    { by apply fmul_not_finite_l. }
    exists (sround2 (ad_line high low close volume)), y.
    split; [apply (indicator_column_spec qsqrt); [done|];
            intros; apply indicators_ad_line|].
    split; [|split; [done|]].
    + unfold sround2. erewrite lookup_map_2; [|exact Hy].
      by rewrite round2_not_finite.
    + intros Hcp. apply Hyn. by rewrite Hmn.
  - exists (sround2 (intraday_intensity high low close volume)), (fmul m' v).
    split; [apply (indicator_column_spec qsqrt); [done|];
            intros; apply indicators_intraday_intensity|].
    split; [|split; [by apply fmul_not_finite_l|]].
    + unfold sround2, intraday_intensity.
      erewrite lookup_map_2; [|by apply lookup_zip_with_2].
      rewrite round2_not_finite; [done|by apply fmul_not_finite_l].
    + intros Hcp. by rewrite Hmn'.
  - intros period g Hp Hloss Hgain.
    exists (sround2 (rsi period close)).
    split; [|by apply rsi_zero_loss].
    apply (indicator_column_spec qsqrt); [done|]. intros.
    by apply indicators_rsi.
  - intros Hcp. split.
    + unfold Generator.clv, fillna. erewrite lookup_map_2; [|exact Hm].
      by rewrite Hmn.
    + unfold Generator.intraday_intensity, fillna.
      erewrite lookup_map_2; [|by apply lookup_zip_with_2].
      by rewrite Hmn'.
  - intros df' Hm0 Hh0 Hl0.
    destruct (calculate_all_indicators_total qsqrt df' Hm0 Hh0 Hl0)
      as (r' & Hr' & _).
    by exists r'.
Qed.

End DivisionByZero.

(** * Keltner channels *)

Section Keltner.

Variable qsqrt : Qc → Qc.

Lemma indicators_kc high low close volume sar_col :
  assoc "kc_middle" (indicators qsqrt high low close volume sar_col)
  = Some (ewm_mean 20 close)
  ∧ assoc "kc_upper" (indicators qsqrt high low close volume sar_col)
    = Some (sadd (ewm_mean 20 close) (scale (fz 2) (atr 14 high low close)))
  ∧ assoc "kc_lower" (indicators qsqrt high low close volume sar_col)
    = Some (ssub (ewm_mean 20 close) (scale (fz 2) (atr 14 high low close)))
  ∧ assoc "atr_14" (indicators qsqrt high low close volume sar_col)
    = Some (atr 14 high low close).
Proof. repeat split; reflexivity. Qed.

(** in every enriched frame the Keltner middle line is the rounded 20-period
    EMA of the close, and the bands are that EMA plus or minus twice the
    14-period ATR, rounded *)
Lemma keltner_columns (df r : DataFrame) :
  calculate_all_indicators qsqrt df = Ok r →
  let high := getcol "high" df in
  let low := getcol "low" df in
  let close := getcol "close" df in
  indicator_column df r "kc_middle" = Some (sround2 (ewm_mean 20 close))
  ∧ indicator_column df r "kc_upper"
    = Some (sround2 (sadd (ewm_mean 20 close)
                          (scale (fz 2) (atr 14 high low close))))
  ∧ indicator_column df r "kc_lower"
    = Some (sround2 (ssub (ewm_mean 20 close)
                          (scale (fz 2) (atr 14 high low close)))).
Proof.
  intros Hr high low close.
  repeat split; apply (indicator_column_spec qsqrt); try done; intros;
    apply indicators_kc.
Qed.

End Keltner.

(** C8 (Keltner channels), the divergence.  On the frame [frame_a], whose
    first bar has high 3, low 0 and close 3, the typical price of the first
    row is 2, so the 20-period EMA of the typical price starts at 2 (this is
    the basis [calculate_keltner_channels] of the generator script uses),
    while the engine's [kc_middle] starts at 3, the close. *)
Lemma keltner_middle_is_ema_of_close :
  typical_price (getcol "high" frame_a) (getcol "low" frame_a)
    (getcol "close" frame_a) !! 0 = Some (fz 2)
  ∧ ewm_mean 20 (typical_price (getcol "high" frame_a) (getcol "low" frame_a)
                   (getcol "close" frame_a)) !! 0 = Some (fz 2)
  ∧ Generator.keltner_basis (getcol "high" frame_a) (getcol "low" frame_a)
      (getcol "close" frame_a) 20 !! 0 = Some (fz 2)
  ∧ ∃ col, indicator_column frame_a (enriched frame_a) "kc_middle" = Some col
           ∧ col !! 0 = Some (fz 3)
           ∧ fz 3 ≠ fz 2.
Proof.
  split; [compute_done|]. split; [compute_done|]. split; [compute_done|].
  exists (default [] (indicator_column frame_a (enriched frame_a) "kc_middle")).
  split; [compute_done|]. split; [compute_done|].
  intros H. apply (f_equal (λ v, match v with
                                 | Fin q => Qnum q
                                 | _ => 0%Z
                                 end)) in H.
  discriminate H.
Qed.

(** * The retention sweep *)

Section Sweep.

Variable qsqrt : Qc → Qc.

Lemma missing_cols_first (df : DataFrame) :
  first_missing df = head (missing_cols df).
Proof. reflexivity. Qed.

Lemma missing_cols_nil_first (df : DataFrame) :
  missing_cols df = [] ↔ first_missing df = None.
Proof.
  rewrite missing_cols_first. by destruct (missing_cols df).
Qed.


(** what the sweep does once the date column has been parsed *)
Lemma process_single_file_parsed fs path df cells dates cutoff :
  fs !! path = Some df → df_date df = Some cells →
  to_datetime cells = Ok dates →
  process_single_file qsqrt fs path cutoff
  = if date_before (date_max dates) cutoff then
      ((Deleted, "最新数据: " +:+ pretty (default 0%Z (date_max dates))),
       delete path fs)
    else
      match missing_cols df with
      | (_ :: _) as missing => ((Error, "缺少列: " +:+ repr_list missing), fs)
      | [] =>
          match calculate_all_indicators qsqrt df with
          | Raise e => ((Error, exn_str e), fs)
          | Ok df_with_indicators =>
              let out := mkDF (Some (map strftime_day dates))
                              (df_cols df_with_indicators) in
              ((Updated, "添加了 " +:+ pretty (n_columns out) +:+ " 列"),
               <[path := out]> fs)
          end
      end.
Proof.
  intros Hfs Hd Ht. unfold process_single_file. by rewrite Hfs, Hd, Ht.
Qed.

(** a file is deleted, rewritten or left alone; other files are untouched *)
Lemma process_single_file_frame fs path cutoff :
  let res := process_single_file qsqrt fs path cutoff in
  (res.1.1 = Deleted ∧ res.2 = delete path fs)
  ∨ (res.1.1 = Error ∧ res.2 = fs)
  ∨ (res.1.1 = Updated ∧ ∃ out, res.2 = <[path := out]> fs).
Proof.
  unfold process_single_file.
  destruct (fs !! path) as [df|]; [|by right; left].
  destruct (df_date df) as [cells|]; [|by right; left].
  destruct (to_datetime cells) as [dates|e]; [|by right; left].
  destruct (date_before _ _); [by left|].
  destruct (missing_cols df); [|by right; left].
  destruct (calculate_all_indicators qsqrt df) as [r|e]; [|by right; left].
  right; right. split; [done|]. by eexists.
Qed.


(** C9, amended.  For a file whose date column parses: when the latest date
    lies before the cut-off the file is deleted and listed as deleted; when
    it does not, and the frame has the five required columns and at least
    one row, the indicators are recomputed over the frame, the file is
    rewritten with the original columns followed by the indicator columns,
    and it is listed as updated.  With the cut-off of [main] (now minus 180
    days) a latest date 200 days before today is stale and one 100 days
    before today is not. *)
Theorem retention_sweep_outcome (fs : gmap string DataFrame) (path : string)
    (df : DataFrame) (cells : list datecell) (dates : list (option Z))
    (cutoff : Z) (sm : summary) :
  fs !! path = Some df →
  df_date df = Some cells →
  to_datetime cells = Ok dates →
  (date_before (date_max dates) cutoff = true →
     (∃ msg, process_single_file qsqrt fs path cutoff
             = ((Deleted, msg), delete path fs))
     ∧ main_step qsqrt cutoff (sm, fs) path
       = (Summary (deleted_files sm ++ [path]) (updated_files sm)
                  (error_files sm), delete path fs)
     ∧ delete path fs !! path = None)
  ∧ (date_before (date_max dates) cutoff = false →
     missing_cols df = [] →
     1 ≤ length (getcol "high" df) → 1 ≤ length (getcol "low" df) →
     ∃ r out,
       calculate_all_indicators qsqrt df = Ok r
       ∧ out = mkDF (Some (map strftime_day dates)) (df_cols r)
       ∧ take (length (df_cols df)) (df_cols out) = df_cols df
       ∧ (∃ msg, process_single_file qsqrt fs path cutoff
                 = ((Updated, msg), <[path := out]> fs))
       ∧ main_step qsqrt cutoff (sm, fs) path
         = (Summary (deleted_files sm) (updated_files sm ++ [path])
                    (error_files sm), <[path := out]> fs)
       ∧ <[path := out]> fs !! path = Some out)
  ∧ (∀ now : Z,
       (date_max dates = Some (midnight now - 200 * seconds_per_day)%Z →
        date_before (date_max dates) (main_cutoff now) = true)
       ∧ (date_max dates = Some (midnight now - 100 * seconds_per_day)%Z →
          date_before (date_max dates) (main_cutoff now) = false)).
Proof.
  intros Hfs Hd Ht.
  pose proof (process_single_file_parsed fs path df cells dates cutoff
                Hfs Hd Ht) as Hp.
  split; [|split].
  - intros Hstale. rewrite Hstale in Hp.
    split; [by eexists|]. split; [|apply lookup_delete_eq].
    unfold main_step. by rewrite Hp.
  - intros Hfresh Hmiss Hh Hl. rewrite Hfresh, Hmiss in Hp.
    destruct (calculate_all_indicators_total qsqrt df
                (proj1 (missing_cols_nil_first df) Hmiss) Hh Hl)
      as (r & Hr & _ & Hcols).
    rewrite Hr in Hp. cbv zeta in Hp.
    exists r, (mkDF (Some (map strftime_day dates)) (df_cols r)).
    split; [done|]. split; [done|]. split; [done|].
    split; [by eexists|]. split; [|apply lookup_insert_eq].
    unfold main_step. by rewrite Hp.
  - intros now. unfold main_cutoff, midnight, horizon_days, seconds_per_day.
    pose proof (Z.mod_pos_bound now 86400 ltac:(lia)) as Hmod.
    split; intros ->; unfold date_before.
    + apply bool_decide_eq_true_2. lia.
    + apply bool_decide_eq_false_2. lia.
Qed.

(** C10 (staleness check precedes column validation).  For a file whose date
    column parses: a stale frame is deleted whether or not it has the
    required columns; a frame that is not stale and lacks a required column
    gives the error naming the missing columns; and whenever the outcome is
    an error, the frame is not stale, so its latest date, if it has one, is
    at or after the cut-off. *)
Theorem staleness_check_precedes_validation (fs : gmap string DataFrame)
    (path : string) (df : DataFrame) (cells : list datecell)
    (dates : list (option Z)) (cutoff : Z) :
  fs !! path = Some df →
  df_date df = Some cells →
  to_datetime cells = Ok dates →
  (date_before (date_max dates) cutoff = true →
     ∃ msg, process_single_file qsqrt fs path cutoff
            = ((Deleted, msg), delete path fs))
  ∧ (date_before (date_max dates) cutoff = false → missing_cols df ≠ [] →
     process_single_file qsqrt fs path cutoff
     = ((Error, "缺少列: " +:+ repr_list (missing_cols df)), fs))
  ∧ (∀ msg fs',
       process_single_file qsqrt fs path cutoff = ((Error, msg), fs') →
       date_before (date_max dates) cutoff = false
       ∧ ∀ d, date_max dates = Some d → (cutoff ≤ d)%Z).
Proof.
  intros Hfs Hd Ht.
  pose proof (process_single_file_parsed fs path df cells dates cutoff
                Hfs Hd Ht) as Hp.
  split; [|split].
  - intros Hstale. rewrite Hstale in Hp. by eexists.
  - intros Hfresh Hmiss. rewrite Hfresh in Hp.
    destruct (missing_cols df); [by destruct Hmiss|exact Hp].
  - intros msg fs' Herr. rewrite Herr in Hp.
    destruct (date_before (date_max dates) cutoff) eqn:Hb; [done|].
    split; [done|]. intros d Hmax. rewrite Hmax in Hb.
    unfold date_before in Hb. apply bool_decide_eq_false_1 in Hb. lia.
Qed.

End Sweep.
Lemma rsi_within_0_100_witness :
  calculate_all_indicators qsqrt_fixed frame_c = Ok (enriched frame_c)
  ∧ 6 ∈ [6; 9; 12; 14; 21; 24]
  ∧ indicator_column frame_c (enriched frame_c) "rsi_6"
    = Some (sround2 (rsi 6 (getcol "close" frame_c)))
  ∧ ∃ q : Qc,
      sround2 (rsi 6 (getcol "close" frame_c)) !! 7 = Some (Fin q)
      ∧ (0 ≤ q)%Qc ∧ (q ≤ Qc_of_Z 100)%Qc.
Proof.
  assert (calculate_all_indicators qsqrt_fixed frame_c = Ok (enriched frame_c))
    as H1 by (vm_compute; reflexivity).
  assert (6 ∈ [6; 9; 12; 14; 21; 24]) as H2 by (apply list_elem_of_here).
  destruct (rsi_within_0_100 qsqrt_fixed frame_c (enriched frame_c) 6 H1 H2)
    as (Hcol & Hcells & _).
  split; [exact H1|]. split; [exact H2|]. split; [exact Hcol|].
  destruct (Hcells 7 (default NaN (sround2 (rsi 6 (getcol "close" frame_c)) !! 7)))
    as (q & Hq & Hb).
  - vm_compute. reflexivity.
  - vm_compute. discriminate.
  - exists q. split; [|exact Hb].
    rewrite <- Hq. vm_compute. reflexivity.
Defined.

Lemma obv_recurrence_witness :
  calculate_all_indicators qsqrt_fixed frame_c = Ok (enriched frame_c)
  ∧ Forall two_decimals (getcol "volume" frame_c)
  ∧ Forall int64_range
      (obv (getcol "close" frame_c) (getcol "volume" frame_c))
  ∧ Forall (λ v, v ≠ NaN) (getcol "volume" frame_c)
  ∧ ∃ obv_col : Series,
      indicator_column frame_c (enriched frame_c) "obv" = Some obv_col
      ∧ obv_col !! 0%nat = Some (fz 0)
      ∧ obv_col !! 1%nat = Some (fadd (fz 0) (fz 1000))
      ∧ Generator.obv (getcol "close" frame_c) (getcol "volume" frame_c)
        = obv_col.
Proof.
  assert (calculate_all_indicators qsqrt_fixed frame_c = Ok (enriched frame_c))
    as H1 by (vm_compute; reflexivity).
  assert (Forall two_decimals (getcol "volume" frame_c)) as H2.
  { repeat constructor; apply two_decimals_fz. }
  assert (Forall int64_range
            (obv (getcol "close" frame_c) (getcol "volume" frame_c))) as H2'.
  { repeat constructor; compute_done. }
  assert (Forall (λ v, v ≠ NaN) (getcol "volume" frame_c)) as H3.
  { repeat constructor; discriminate. }
  split; [exact H1|]. split; [exact H2|]. split; [exact H2'|].
  split; [exact H3|].
  destruct (obv_recurrence qsqrt_fixed frame_c (enriched frame_c) H1 H2 H2')
    as (obv_col & Hcol & H0 & Hstep & Hgen).
  exists obv_col. split; [exact Hcol|]. split; [exact H0|]. split.
  - apply (Hstep 0%nat (fz 10) (fz 11) (fz 1000) (fz 0));
      [reflexivity|reflexivity|reflexivity|exact H0|].
    vm_compute. reflexivity.
  - apply Hgen; [exact H3|simpl; lia|reflexivity].
Defined.

(** C6, counterexample.  The engine rounds the column to two decimals after
    the loop: with closes [1, 2] and volumes [5, 1/8] the close rises at
    row 1 and the [obv] column of the enriched frame is [0, 0.12], not
    [0 + 1/8]. *)
Lemma obv_rounded_counterexample :
  calculate_all_indicators qsqrt_fixed frame_eighth
  = Ok (enriched frame_eighth)
  ∧ (1 ≤ length (getcol "close" frame_eighth))%nat
  ∧ getcol "close" frame_eighth !! 0%nat = Some (fz 1)
  ∧ getcol "close" frame_eighth !! 1%nat = Some (fz 2)
  ∧ fgt (fz 2) (fz 1) = true
  ∧ getcol "volume" frame_eighth !! 1%nat = Some (fq 1 8)
  ∧ indicator_column frame_eighth (enriched frame_eighth) "obv"
    = Some [fz 0; fq 12 100]
  ∧ fq 12 100 ≠ fadd (fz 0) (fq 1 8).
Proof.
  split; [vm_compute; reflexivity|].
  split; [simpl; lia|].
  repeat (split; [compute_done|]). compute_done.
Qed.

(** C2, counterexample.  After seven rising closes the 6-period average loss
    is zero, and the engine writes 100, not the sentinel, into [rsi_6]; on a
    flat bar ([high = low = close]) the generator script writes 0 into the
    intraday-intensity cell. *)
Lemma division_by_zero_counterexample :
  rsi_loss 6 (getcol "close" frame_c) !! 7 = Some (fz 0)
  ∧ (∃ col, indicator_column frame_c (enriched frame_c) "rsi_6" = Some col
            ∧ col !! 7 = Some (fz 100))
  ∧ fz 100 ≠ NaN
  ∧ (sdiv (ssub (ssub (scale (fz 2) [fz 5]) [fz 5]) [fz 5])
          (ssub [fz 5] [fz 5]) = [NaN]
     ∧ Generator.intraday_intensity [fz 5] [fz 5] [fz 5] [fz 20] = [fz 0]).
Proof.
  split; [compute_done|]. split.
  - exists (default [] (indicator_column frame_c (enriched frame_c) "rsi_6")).
    split; compute_done.
  - split; [discriminate|]. split; compute_done.
Qed.

Lemma division_by_zero_policy_witness :
  calculate_all_indicators qsqrt_fixed frame_d = Ok (enriched frame_d)
  ∧ getcol "high" frame_d !! 7 = Some (Fin (Qc_of_Z 17))
  ∧ getcol "low" frame_d !! 7 = Some (Fin (Qc_of_Z 17))
  ∧ getcol "close" frame_d !! 7 = Some (fz 17)
  ∧ getcol "volume" frame_d !! 7 = Some (fz 1000)
  ∧ 6 ∈ [6; 9; 12; 14; 21; 24]
  ∧ rsi_loss 6 (getcol "close" frame_d) !! 7 = Some (Fin 0%Qc)
  ∧ rsi_gain 6 (getcol "close" frame_d) !! 7 = Some (fz 1)
  ∧ (∃ col, indicator_column frame_d (enriched frame_d) "ad_line" = Some col
            ∧ col !! 7 = Some NaN)
  ∧ (∃ col, indicator_column frame_d (enriched frame_d) "intraday_intensity"
            = Some col
            ∧ col !! 7 = Some NaN)
  ∧ (∃ col, indicator_column frame_d (enriched frame_d) "rsi_6" = Some col
            ∧ col !! 7 = Some (fz 100))
  ∧ Generator.intraday_intensity (getcol "high" frame_d) (getcol "low" frame_d)
      (getcol "close" frame_d) (getcol "volume" frame_d) !! 7 = Some (fz 0).
Proof.
  assert (calculate_all_indicators qsqrt_fixed frame_d
          = Ok (enriched frame_d)) as H1 by (vm_compute; reflexivity).
  assert (getcol "high" frame_d !! 7 = Some (Fin (Qc_of_Z 17))) as H2
    by reflexivity.
  assert (getcol "low" frame_d !! 7 = Some (Fin (Qc_of_Z 17))) as H3
    by reflexivity.
  assert (getcol "close" frame_d !! 7 = Some (fz 17)) as H4 by reflexivity.
  assert (getcol "volume" frame_d !! 7 = Some (fz 1000)) as H5
    by reflexivity.
  assert (6 ∈ [6; 9; 12; 14; 21; 24]) as H6 by (apply list_elem_of_here).
  assert (rsi_loss 6 (getcol "close" frame_d) !! 7 = Some (Fin 0%Qc)) as H7
    by compute_done.
  assert (rsi_gain 6 (getcol "close" frame_d) !! 7 = Some (fz 1)) as H8
    by compute_done.
  split; [exact H1|]. split; [exact H2|]. split; [exact H3|].
  split; [exact H4|]. split; [exact H5|]. split; [exact H6|].
  split; [exact H7|]. split; [exact H8|].
  destruct (division_by_zero_policy qsqrt_fixed frame_d
              (enriched frame_d) 7 (Qc_of_Z 17) (fz 17) (fz 1000)
              H1 H2 H3 H4 H5)
    as ((col & y & Hcol & Hy & _ & Hnan) & (col' & y' & Hcol' & Hy' & _ & Hnan')
        & Hrsi & Hgen & _).
  split; [|split; [|split]].
  - exists col. split; [exact Hcol|].
    rewrite Hy. f_equal. apply Hnan. reflexivity.
  - exists col'. split; [exact Hcol'|].
    rewrite Hy'. f_equal. apply Hnan'. reflexivity.
  - destruct (Hrsi 6 (fz 1) H6 H7 H8) as (col6 & Hcol6 & Hc6).
    exists col6. split; [exact Hcol6|]. exact Hc6.
  - exact (proj2 (Hgen eq_refl)).
Defined.



(** C9, counterexample.  A frame dated 100 days before today that has no
    [volume] column: the sweep neither deletes nor rewrites the file, it
    records an error. *)
Lemma recent_frame_missing_column_not_updated :
  to_datetime [DParsed (300 * 86400)] = Ok [Some (300 * 86400)%Z]
  ∧ date_max [Some (300 * 86400)%Z]
    = Some (midnight now_ex - 100 * seconds_per_day)%Z
  ∧ process_single_file qsqrt_fixed {[ "AAPL.csv" := frame_new_novol ]}
      "AAPL.csv" (main_cutoff now_ex)
    = ((Error, "缺少列: ['volume']"), {[ "AAPL.csv" := frame_new_novol ]}).
Proof. repeat split; compute_done. Qed.

Lemma retention_sweep_outcome_witness :
  ({[ "AAPL.csv" := frame_new ]} : gmap string DataFrame) !! "AAPL.csv"
  = Some frame_new
  ∧ df_date frame_new = Some [DParsed (300 * 86400)]
  ∧ to_datetime [DParsed (300 * 86400)] = Ok [Some (300 * 86400)%Z]
  ∧ date_before (date_max [Some (300 * 86400)%Z]) (main_cutoff now_ex) = false
  ∧ missing_cols frame_new = []
  ∧ 1 ≤ length (getcol "high" frame_new)
  ∧ 1 ≤ length (getcol "low" frame_new)
  ∧ ∃ r out,
      calculate_all_indicators qsqrt_fixed frame_new = Ok r
      ∧ main_step qsqrt_fixed (main_cutoff now_ex)
          (Summary [] [] [], {[ "AAPL.csv" := frame_new ]}) "AAPL.csv"
        = (Summary [] ["AAPL.csv"] [],
           <["AAPL.csv" := out]> {[ "AAPL.csv" := frame_new ]}).
Proof.
  assert (({[ "AAPL.csv" := frame_new ]} : gmap string DataFrame) !! "AAPL.csv"
          = Some frame_new) as H1 by reflexivity.
  assert (df_date frame_new = Some [DParsed (300 * 86400)]) as H2
    by reflexivity.
  assert (to_datetime [DParsed (300 * 86400)] = Ok [Some (300 * 86400)%Z])
    as H3 by reflexivity.
  assert (date_before (date_max [Some (300 * 86400)%Z]) (main_cutoff now_ex)
          = false) as H4 by reflexivity.
  assert (missing_cols frame_new = []) as H5 by reflexivity.
  assert (1 ≤ length (getcol "high" frame_new)) as H6 by (simpl; lia).
  assert (1 ≤ length (getcol "low" frame_new)) as H7 by (simpl; lia).
  split; [exact H1|]. split; [exact H2|]. split; [exact H3|].
  split; [exact H4|]. split; [exact H5|]. split; [exact H6|].
  split; [exact H7|].
  destruct (retention_sweep_outcome qsqrt_fixed _ "AAPL.csv" frame_new _ _
              (main_cutoff now_ex) (Summary [] [] []) H1 H2 H3)
    as (_ & Hupd & _).
  destruct (Hupd H4 H5 H6 H7) as (r & out & Hr & _ & _ & _ & Hstep & _).
  exists r, out. split; [exact Hr|exact Hstep].
Defined.

Lemma staleness_check_precedes_validation_witness :
  ({[ "AAPL.csv" := frame_old_novol ]} : gmap string DataFrame) !! "AAPL.csv"
  = Some frame_old_novol
  ∧ df_date frame_old_novol = Some [DParsed 0]
  ∧ to_datetime [DParsed 0] = Ok [Some 0%Z]
  ∧ date_before (date_max [Some 0%Z]) (main_cutoff now_ex) = true
  ∧ missing_cols frame_old_novol = ["volume"]
  ∧ ∃ msg, process_single_file qsqrt_fixed {[ "AAPL.csv" := frame_old_novol ]}
             "AAPL.csv" (main_cutoff now_ex)
           = ((Deleted, msg), delete "AAPL.csv" {[ "AAPL.csv" := frame_old_novol ]}).
Proof.
  assert (({[ "AAPL.csv" := frame_old_novol ]} : gmap string DataFrame)
            !! "AAPL.csv" = Some frame_old_novol) as H1 by reflexivity.
  assert (df_date frame_old_novol = Some [DParsed 0]) as H2 by reflexivity.
  assert (to_datetime [DParsed 0] = Ok [Some 0%Z]) as H3 by reflexivity.
  assert (date_before (date_max [Some 0%Z]) (main_cutoff now_ex) = true) as H4
    by reflexivity.
  split; [exact H1|]. split; [exact H2|]. split; [exact H3|].
  split; [exact H4|]. split; [reflexivity|].
  exact (proj1 (staleness_check_precedes_validation qsqrt_fixed _ "AAPL.csv"
                  frame_old_novol _ _ (main_cutoff now_ex) H1 H2 H3) H4).
Defined.

(** * Shape of the enriched frame *)

Section Shape.

Variable qsqrt : Qc → Qc.

Implicit Types (s a b c : Series) (n k w : nat).

Lemma length_sadd a b : length (sadd a b) = length a `min` length b.
Proof. apply length_zip_with. Qed.
Lemma length_ssub a b : length (ssub a b) = length a `min` length b.
Proof. apply length_zip_with. Qed.
Lemma length_smul a b : length (smul a b) = length a `min` length b.
Proof. apply length_zip_with. Qed.
Lemma length_sdiv a b : length (sdiv a b) = length a `min` length b.
Proof. apply length_zip_with. Qed.
Lemma length_row_max3 a b c :
  length (row_max3 a b c) = (length a `min` length b) `min` length c.
Proof. unfold row_max3. by rewrite !length_zip_with. Qed.
Lemma length_row_min2 a b : length (row_min2 a b) = length a `min` length b.
Proof. apply length_zip_with. Qed.
Lemma length_sabs s : length (sabs s) = length s.
Proof. apply length_map. Qed.
Lemma length_sneg s : length (sneg s) = length s.
Proof. apply length_map. Qed.
Lemma length_scale x s : length (scale x s) = length s.
Proof. apply length_map. Qed.
Lemma length_sdivc x s : length (sdivc x s) = length s.
Proof. apply length_map. Qed.
Lemma length_sround2 s : length (sround2 s) = length s.
Proof. apply length_map. Qed.
Lemma length_fillna v s : length (fillna v s) = length s.
Proof. apply length_map. Qed.
Lemma length_where (cond : list bool) s other :
  length (where_ cond s other) = length cond `min` length s.
Proof. apply length_zip_with. Qed.
Lemma length_shift n s : length (shift n s) = length s.
Proof.
  unfold shift. rewrite length_take, length_app, length_replicate. lia.
Qed.
Lemma length_diff s : length (diff s) = length s.
Proof. unfold diff. rewrite length_ssub, length_shift. lia. Qed.
Lemma length_ffill_from last s : length (ffill_from last s) = length s.
Proof.
  revert last. induction s as [|x r IH]; intros last; [done|].
  simpl. by rewrite IH.
Qed.
Lemma length_pct_change s : length (pct_change s) = length s.
Proof.
  unfold pct_change, ffill.
  rewrite length_map, length_sdiv, length_shift, length_ffill_from. lia.
Qed.
Lemma length_cumsum_from acc s : length (cumsum_from acc s) = length s.
Proof.
  revert acc. induction s as [|x r IH]; intros acc; [done|].
  simpl. destruct (isnan x); simpl; by rewrite IH.
Qed.
Lemma length_cumsum s : length (cumsum s) = length s.
Proof. apply length_cumsum_from. Qed.
Lemma length_rolling_apply w f s : length (rolling_apply w f s) = length s.
Proof. apply length_imap. Qed.
Lemma length_rolling_mean w s : length (rolling_mean w s) = length s.
Proof. apply length_imap. Qed.
Lemma length_rolling_sum w s : length (rolling_sum w s) = length s.
Proof. apply length_imap. Qed.
Lemma length_rolling_max w s : length (rolling_max w s) = length s.
Proof. apply length_imap. Qed.
Lemma length_rolling_min w s : length (rolling_min w s) = length s.
Proof. apply length_imap. Qed.
Lemma length_rolling_std w s : length (rolling_std qsqrt w s) = length s.
Proof. apply length_imap. Qed.

Lemma length_obv_loop prev last (cv : list (fval * fval)) :
  length (obv_loop prev last cv) = length cv.
Proof.
  revert prev last. induction cv as [|[c v] r IH]; intros prev last; [done|].
  simpl. by rewrite IH.
Qed.

Lemma length_obv close volume n :
  1 ≤ n → length close = n → length volume = n →
  length (obv close volume) = n.
Proof.
  intros Hn Hc Hv. unfold obv.
  destruct close as [|c0 cs]; [simpl in Hc; lia|].
  destruct volume as [|v0 vs]; [simpl in Hv; lia|].
  simpl in *. rewrite length_obv_loop, length_zip_with. lia.
Qed.

Lemma length_sar_loop st p1 p2 (bars : list (fval * fval)) :
  length (sar_loop st p1 p2 bars) = length bars.
Proof.
  revert st p1 p2. induction bars as [|bar r IH]; intros st p1 p2; [done|].
  simpl. by rewrite IH.
Qed.

Lemma length_sar high low sar_col :
  sar high low = Some sar_col →
  length sar_col = length high `min` length low.
Proof.
  unfold sar. intros H.
  rewrite <- (length_zip_with pair high low).
  change (zip_with pair high low) with (zip high low).
  destruct (zip high low) as [|[h0 l0] r]; [done|].
  injection H as <-. simpl. by rewrite length_sar_loop.
Qed.

End Shape.

Create Rewrite HintDb len.
#[export] Hint Rewrite length_sadd length_ssub length_smul length_sdiv
  length_row_max3 length_row_min2 length_sabs length_sneg length_scale
  length_sdivc length_sround2 length_fillna length_where length_shift
  length_diff length_pct_change length_cumsum length_rolling_apply
  length_rolling_mean length_rolling_sum length_rolling_max
  length_rolling_min length_rolling_std length_ewm_mean
  @length_zip_with @length_map : len.

Section ShapeOfFrame.

Variable qsqrt : Qc → Qc.

Ltac unfold_families :=
  unfold macd_hist, macd_signal, macd, wma, dema, tema, trix_signal, trix,
    rsi, rsi_gain, rsi_loss, cci, roc, mom, willr, stoch_j, stoch_d, stoch_k,
    uo, bb_pct, bb_width, bb_upper, bb_lower, bb_middle, kc_middle,
    kc_upper, kc_lower, atr, dc_middle, dc_upper, dc_lower, vol_ratio, mfi,
    ad_line, vwap, cmf, mfm, adx, pos_di, neg_di, pos_dm, neg_dm, aroon_osc,
    aroon_up, aroon_down, r1, r2, s1, s2, pivot, price_change_pct,
    price_change, median_price, weighted_close, intraday_intensity,
    true_range, typical_price.

(** every value of the [indicators] dictionary has one cell per row, so
    [pd.DataFrame(indicators, index=df.index)] is well defined *)
Lemma indicators_lengths n high low close volume sar_col :
  1 ≤ n →
  length high = n → length low = n → length close = n →
  length volume = n → length sar_col = n →
  Forall (λ c, length c.2 = n)
         (indicators qsqrt high low close volume sar_col).
Proof.
  intros Hn Hh Hl Hc Hv Hs.
  unfold indicators, per_period. cbn [map flat_map app].
  repeat (apply Forall_cons; split; [cbn [snd]|]); try apply Forall_nil;
    try (by apply length_obv); try exact Hs;
    unfold_families; autorewrite with len; rewrite ?Hh, ?Hl, ?Hc, ?Hv; lia.
Qed.

Lemma assoc_Some_elem name (cols : list (string * Series)) col :
  assoc name cols = Some col → (name, col) ∈ cols.
Proof.
  induction cols as [|[n0 s0] cols IH]; [done|].
  simpl. case_decide as Hn.
  - intros [= <-]. subst. apply list_elem_of_here.
  - intros H. apply list_elem_of_further. by apply IH.
Qed.

Lemma assoc_is_Some name (cols : list (string * Series)) :
  name ∈ cols.*1 → is_Some (assoc name cols).
Proof.
  induction cols as [|[n0 s0] cols IH]; simpl.
  - intros H. by apply elem_of_nil in H.
  - intros H. case_decide; [by eexists|].
    apply elem_of_cons in H as [->|H]; [done|]. by apply IH.
Qed.

Lemma getcol_length n df name :
  well_formed n df → name ≠ "date" → in_columns name df = true →
  length (getcol name df) = n.
Proof.
  intros Hwf Hne Hin. unfold in_columns in Hin.
  rewrite decide_False in Hin by done.
  apply bool_decide_eq_true_1 in Hin.
  destruct (assoc_is_Some _ _ Hin) as [col Hcol].
  unfold getcol. rewrite Hcol. simpl.
  apply assoc_Some_elem in Hcol.
  by apply (proj1 (Forall_forall _ _) (proj1 Hwf) (name, col)).
Qed.

Lemma first_missing_None_in df col :
  first_missing df = None → col ∈ required_cols → in_columns col df = true.
Proof.
  intros Hm Hc. rewrite missing_cols_first in Hm.
  destruct (in_columns col df) eqn:E; [done|].
  assert (col ∈ missing_cols df) as Hin.
  { unfold missing_cols. by apply list_elem_of_filter. }
  destruct (missing_cols df); [by apply elem_of_nil in Hin|done].
Qed.

Lemma required_lengths n df :
  well_formed n df → first_missing df = None →
  length (getcol "high" df) = n ∧ length (getcol "low" df) = n
  ∧ length (getcol "close" df) = n ∧ length (getcol "volume" df) = n
  ∧ length (getcol "open" df) = n.
Proof.
  intros Hwf Hm.
  repeat split; apply getcol_length; try done;
    apply first_missing_None_in; try done;
    unfold required_cols; set_solver.
Qed.

Lemma NoDup_indicator_names : NoDup indicator_names.
Proof. compute_done. Qed.

Lemma indicators_names high low close volume sar_col :
  (indicators qsqrt high low close volume sar_col).*1 = indicator_names.
Proof. reflexivity. Qed.

Lemma fst_round_columns cols : (round_columns cols).*1 = cols.*1.
Proof.
  unfold round_columns. induction cols as [|[n0 s0] cols IH]; [done|].
  simpl. f_equal. exact IH.
Qed.

(** X1 (shape of the enriched frame).  When the engine succeeds on a frame
    whose columns all have [n] rows, the frame is not empty, the result
    keeps the date column and the original columns, in their order and
    first, and appends exactly 111 indicator columns whose names are the
    fixed, pairwise distinct list [indicator_names]; every column of the
    result, original or appended, has [n] rows. *)
Theorem enriched_frame_shape (n : nat) (df r : DataFrame) :
  well_formed n df →
  calculate_all_indicators qsqrt df = Ok r →
  1 ≤ n
  ∧ well_formed n r
  ∧ df_date r = df_date df
  ∧ take (length (df_cols df)) (df_cols r) = df_cols df
  ∧ (drop (length (df_cols df)) (df_cols r)).*1 = indicator_names
  ∧ NoDup indicator_names
  ∧ length (df_cols r) = length (df_cols df) + 111.
Proof.
  intros Hwf Hr.
  apply calculate_all_indicators_Ok in Hr as (Hm & sar_col & Hsar & ->).
  destruct (required_lengths n df Hwf Hm) as (Hh & Hl & Hc & Hv & _).
  pose proof (length_sar _ _ _ Hsar) as Hs. rewrite Hh, Hl in Hs.
  assert (1 ≤ n) as Hn.
  { destruct sar_col as [|x sc].
    - unfold sar in Hsar.
      destruct (zip (getcol "high" df) (getcol "low" df)) as [|[h0 l0] bars];
        done.
    - simpl in Hs. lia. }
  cbn [df_cols df_date].
  split; [done|]. split.
  { split; [|exact (proj2 Hwf)].
    cbn [df_cols]. apply Forall_app. split; [exact (proj1 Hwf)|].
    unfold round_columns. apply Forall_fmap.
    eapply Forall_impl;
      [apply (indicators_lengths n); try done; lia|].
    intros [n0 s0] Hlen. simpl in *. by rewrite length_sround2. }
  split; [done|]. split; [by rewrite take_app_length|].
  rewrite drop_app_length, fst_round_columns, indicators_names.
  split; [done|]. split; [apply NoDup_indicator_names|].
  rewrite length_app. reflexivity.
Qed.

(** X2 (when the engine raises).  On a frame whose columns all have [n]
    rows the engine has exactly three outcomes: a required column is
    missing and it raises the [ValueError] that names the first missing
    one; or all are present and the frame is empty, and it raises the
    [IndexError] of [low.iloc[0]]; or all are present and the frame has a
    row, and it returns a frame. *)
Theorem engine_outcomes (n : nat) (df : DataFrame) :
  well_formed n df →
  (∀ col rest, missing_cols df = col :: rest →
     calculate_all_indicators qsqrt df
     = Raise (ValueError ("缺少必要的列: " +:+ col)))
  ∧ (missing_cols df = [] → n = 0 →
     calculate_all_indicators qsqrt df
     = Raise (IndexError "single positional indexer is out-of-bounds"))
  ∧ (missing_cols df = [] → 1 ≤ n →
     ∃ r, calculate_all_indicators qsqrt df = Ok r).
Proof.
  intros Hwf. split; [|split].
  - intros col rest Hm. unfold calculate_all_indicators.
    by rewrite missing_cols_first, Hm.
  - intros Hm Hn. apply missing_cols_nil_first in Hm.
    destruct (required_lengths n df Hwf Hm) as (Hh & _).
    unfold calculate_all_indicators. rewrite Hm. unfold sar.
    rewrite Hn in Hh. apply length_zero_iff_nil in Hh. by rewrite Hh.
  - intros Hm Hn. apply missing_cols_nil_first in Hm.
    destruct (required_lengths n df Hwf Hm) as (Hh & Hl & _).
    destruct (calculate_all_indicators_total qsqrt df Hm) as (r & Hr & _);
      [lia..|].
    by exists r.
Qed.

End ShapeOfFrame.

Lemma well_formed_frame_a : well_formed 2 frame_a.
Proof. split; [repeat constructor|by intros dates [= <-]]. Defined.

Lemma well_formed_frame_c : well_formed 8 frame_c.
Proof. split; [repeat constructor|by intros dates [= <-]]. Defined.

Lemma enriched_Ok (df : DataFrame) :
  (∃ r, calculate_all_indicators qsqrt_fixed df = Ok r) →
  calculate_all_indicators qsqrt_fixed df = Ok (enriched df).
Proof. unfold enriched. by intros [r ->]. Defined.

Lemma frame_a_Ok :
  calculate_all_indicators qsqrt_fixed frame_a = Ok (enriched frame_a).
Proof.
  apply enriched_Ok.
  destruct (calculate_all_indicators_total qsqrt_fixed frame_a)
    as (r & Hr & _); [reflexivity|simpl; lia..|].
  by exists r.
Defined.

Lemma enriched_frame_shape_witness :
  well_formed 2 frame_a
  ∧ calculate_all_indicators qsqrt_fixed frame_a = Ok (enriched frame_a)
  ∧ well_formed 2 (enriched frame_a)
  ∧ length (df_cols (enriched frame_a)) = 5 + 111.
Proof.
  split; [exact well_formed_frame_a|]. split; [exact frame_a_Ok|].
  pose proof (enriched_frame_shape qsqrt_fixed 2 frame_a (enriched frame_a)
                well_formed_frame_a frame_a_Ok) as (_ & Hwf & _ & _ & _ & _ & Hlen).
  split; [exact Hwf|exact Hlen].
Defined.

Lemma engine_outcomes_witness :
  well_formed 2 frame_a
  ∧ ∃ r, calculate_all_indicators qsqrt_fixed frame_a = Ok r.
Proof.
  split; [exact well_formed_frame_a|].
  apply (engine_outcomes qsqrt_fixed 2 frame_a well_formed_frame_a);
    [reflexivity|lia].
Defined.


(** * The loop of [main] over the price files *)

Section SweepLoop.

Variable qsqrt : Qc → Qc.

(** a file other than the one processed is not touched *)
Lemma process_single_file_other fs path cutoff other :
  other ≠ path →
  (process_single_file qsqrt fs path cutoff).2 !! other = fs !! other.
Proof.
  intros Hne.
  destruct (process_single_file_frame qsqrt fs path cutoff)
    as [[_ ->]|[[_ ->]|[_ [out ->]]]].
  - by apply lookup_delete_ne.
  - done.
  - by apply lookup_insert_ne.
Qed.

(** the outcome for a file depends on the content of that file only *)
Lemma process_single_file_local fs1 fs2 path cutoff :
  fs1 !! path = fs2 !! path →
  (process_single_file qsqrt fs1 path cutoff).1
  = (process_single_file qsqrt fs2 path cutoff).1
  ∧ (process_single_file qsqrt fs1 path cutoff).2 !! path
    = (process_single_file qsqrt fs2 path cutoff).2 !! path.
Proof.
  intros Heq. unfold process_single_file. rewrite <- Heq.
  destruct (fs1 !! path) as [df|] eqn:Hfs;
    [|split; [done|cbn [snd]; congruence]].
  destruct (df_date df) as [cells|]; [|split; [done|cbn [snd]; congruence]].
  destruct (to_datetime cells) as [dates|e];
    [|split; [done|cbn [snd]; congruence]].
  destruct (date_before _ _).
  { split; [done|]. cbn [snd]. by rewrite !lookup_delete_eq. }
  destruct (missing_cols df); [|split; [done|cbn [snd]; congruence]].
  destruct (calculate_all_indicators qsqrt df) as [r|e];
    [|split; [done|cbn [snd]; congruence]].
  split; [done|]. cbn [snd]. by rewrite !lookup_insert_eq.
Qed.

Lemma filter_ext_in {A} (P Q : A → Prop) `{!∀ x, Decision (P x)}
    `{!∀ x, Decision (Q x)} (l : list A) :
  (∀ x, x ∈ l → P x ↔ Q x) → filter P l = filter Q l.
Proof.
  induction l as [|x l IH]; [done|]. intros Hpq.
  rewrite !filter_cons.
  rewrite IH by (intros y Hy; apply Hpq; by apply list_elem_of_further).
  pose proof (Hpq x (list_elem_of_here _ _)) as Hx.
  destruct (decide (P x)), (decide (Q x)); tauto.
Qed.

Lemma main_step_lists cutoff sm fs path :
  let one := process_single_file qsqrt fs path cutoff in
  let res := main_step qsqrt cutoff (sm, fs) path in
  res.2 = one.2
  ∧ deleted_files res.1
    = deleted_files sm ++ filter (λ _, one.1.1 = Deleted) [path]
  ∧ updated_files res.1
    = updated_files sm ++ filter (λ _, one.1.1 = Updated) [path]
  ∧ error_files res.1
    = error_files sm
      ++ map (λ p, (p, one.1.2)) (filter (λ _, one.1.1 = Error) [path]).
Proof.
  cbv zeta. unfold main_step.
  destruct (process_single_file qsqrt fs path cutoff) as [[st msg] fs'].
  destruct st; cbn; by rewrite ?app_nil_r.
Qed.

Lemma main_loop_independent cutoff (csv_files : list string) :
  NoDup csv_files →
  ∀ sm fs,
    let one p := process_single_file qsqrt fs p cutoff in
    let res := foldl (main_step qsqrt cutoff) (sm, fs) csv_files in
    deleted_files res.1
    = deleted_files sm ++ filter (λ p, (one p).1.1 = Deleted) csv_files
    ∧ updated_files res.1
      = updated_files sm ++ filter (λ p, (one p).1.1 = Updated) csv_files
    ∧ error_files res.1
      = error_files sm
        ++ map (λ p, (p, (one p).1.2))
               (filter (λ p, (one p).1.1 = Error) csv_files)
    ∧ ∀ p, res.2 !! p
           = if decide (p ∈ csv_files) then (one p).2 !! p else fs !! p.
Proof.
  induction 1 as [|x l Hx Hnd IH]; intros sm fs; cbv zeta.
  { cbn. rewrite !app_nil_r. done. }
  cbn [foldl].
  destruct (main_step qsqrt cutoff (sm, fs) x) as [sm1 fs1] eqn:Hstep.
  pose proof (main_step_lists cutoff sm fs x) as Hl.
  cbv zeta in Hl. rewrite Hstep in Hl. cbn [fst snd] in Hl.
  destruct Hl as (Hfs1 & Hd1 & Hu1 & He1).
  assert (∀ p, p ∈ l →
            (process_single_file qsqrt fs1 p cutoff).1
            = (process_single_file qsqrt fs p cutoff).1
            ∧ (process_single_file qsqrt fs1 p cutoff).2 !! p
              = (process_single_file qsqrt fs p cutoff).2 !! p) as Hloc.
  { intros p Hp. apply process_single_file_local.
    rewrite Hfs1. apply process_single_file_other. intros ->. done. }
  specialize (IH sm1 fs1). cbv zeta in IH.
  destruct IH as (Hd & Hu & He & Hfs).
  rewrite Hd, Hu, He, Hd1, Hu1, He1. clear Hd Hu He Hd1 Hu1 He1.
  rewrite <- !app_assoc.
  rewrite (filter_ext_in (λ p, (process_single_file qsqrt fs1 p cutoff).1.1
                               = Deleted)
             (λ p, (process_single_file qsqrt fs p cutoff).1.1 = Deleted) l)
    by (intros p Hp; by rewrite (proj1 (Hloc p Hp))).
  rewrite (filter_ext_in (λ p, (process_single_file qsqrt fs1 p cutoff).1.1
                               = Updated)
             (λ p, (process_single_file qsqrt fs p cutoff).1.1 = Updated) l)
    by (intros p Hp; by rewrite (proj1 (Hloc p Hp))).
  rewrite (filter_ext_in (λ p, (process_single_file qsqrt fs1 p cutoff).1.1
                               = Error)
             (λ p, (process_single_file qsqrt fs p cutoff).1.1 = Error) l)
    by (intros p Hp; by rewrite (proj1 (Hloc p Hp))).
  split; [|split; [|split]].
  - f_equal. rewrite !filter_cons, filter_nil. by case_decide.
  - f_equal. rewrite !filter_cons, filter_nil. by case_decide.
  - f_equal.
    assert (map (λ p, (p, (process_single_file qsqrt fs1 p cutoff).1.2))
                (filter (λ p, (process_single_file qsqrt fs p cutoff).1.1
                              = Error) l)
            = map (λ p, (p, (process_single_file qsqrt fs p cutoff).1.2))
                  (filter (λ p, (process_single_file qsqrt fs p cutoff).1.1
                                = Error) l)) as ->.
    { apply map_ext_in. intros p Hp%list_elem_of_In.
      apply list_elem_of_filter in Hp as [_ Hp].
      by rewrite (proj1 (Hloc p Hp)). }
    rewrite !filter_cons, filter_nil. by case_decide.
  - intros p. rewrite Hfs.
    destruct (decide (p = x)) as [->|Hne].
    + rewrite decide_False by done.
      rewrite decide_True by apply list_elem_of_here. by rewrite Hfs1.
    + destruct (decide (p ∈ l)) as [Hp|Hp].
      * rewrite decide_True by (by apply list_elem_of_further).
        apply (Hloc p Hp).
      * rewrite decide_False.
        -- rewrite Hfs1. by apply process_single_file_other.
        -- intros [?|?]%elem_of_cons; done.
Qed.

(** X3 (the sweep treats every file on its own).  When the listed names
    are distinct, as the names of a [glob] are, the three result lists of
    [main] are the files that [process_single_file] deletes, updates and
    rejects when run on the directory as it was at the start, in the order
    of the listing, each rejected file with its own message; a listed file
    ends as that single run leaves it, and the other price files of the
    directory are not touched.  The one other file that [main] writes is
    [deleted_files.txt]: it is written when, and only when, a file was
    deleted, and holds the time of writing, the day of the cut-off, the
    number of deleted files and their names in the order of the listing. *)
Theorem main_files_independent (now written : Z) (csv_files : list string)
    (fs : gmap string DataFrame) :
  NoDup csv_files →
  let one p := process_single_file qsqrt fs p (main_cutoff now) in
  let res := main qsqrt now written csv_files fs in
  let stale := filter (λ p, (one p).1.1 = Deleted) csv_files in
  deleted_files res.1.1 = stale
  ∧ updated_files res.1.1 = filter (λ p, (one p).1.1 = Updated) csv_files
  ∧ error_files res.1.1
    = map (λ p, (p, (one p).1.2))
          (filter (λ p, (one p).1.1 = Error) csv_files)
  ∧ (∀ p, res.1.2 !! p
          = if decide (p ∈ csv_files) then (one p).2 !! p else fs !! p)
  ∧ res.2
    = match stale with
      | [] => None
      | _ :: _ =>
          Some (DeletedList written (midnight (main_cutoff now))
                  (length stale) stale)
      end.
Proof.
  intros Hnd. cbv zeta. unfold main.
  pose proof (main_loop_independent (main_cutoff now) csv_files Hnd
                (Summary [] [] []) fs) as H.
  cbv zeta in H.
  destruct (foldl (main_step qsqrt (main_cutoff now)) (Summary [] [] [], fs)
              csv_files) as [sm fs'].
  cbn [fst snd deleted_files updated_files error_files app] in *.
  destruct H as (Hd & Hu & He & Hfs).
  split; [exact Hd|]. split; [exact Hu|]. split; [exact He|].
  split; [exact Hfs|].
  by rewrite Hd.
Qed.

Lemma main_loop_counts cutoff (csv_files : list string) :
  ∀ sm fs,
    let res := foldl (main_step qsqrt cutoff) (sm, fs) csv_files in
    deleted_files res.1 ++ updated_files res.1 ++ (error_files res.1).*1
    ≡ₚ (deleted_files sm ++ updated_files sm ++ (error_files sm).*1)
       ++ csv_files.
Proof.
  induction csv_files as [|x l IH]; intros sm fs; cbv zeta.
  { cbn. by rewrite app_nil_r. }
  cbn [foldl].
  destruct (main_step qsqrt cutoff (sm, fs) x) as [sm1 fs1] eqn:Hstep.
  specialize (IH sm1 fs1). cbv zeta in IH. rewrite IH. clear IH.
  unfold main_step in Hstep.
  destruct (process_single_file qsqrt fs x cutoff) as [[st msg] fs'].
  destruct st; injection Hstep as <- <-; cbn [deleted_files updated_files
    error_files]; rewrite ?fmap_app; cbn [fmap list_fmap fst];
    rewrite <- ?app_assoc; cbn [app].
  - apply Permutation_app_head.
    rewrite !(app_assoc (updated_files sm)). apply Permutation_middle.
  - apply Permutation_app_head, Permutation_app_head, Permutation_middle.
  - done.
Qed.

(** X4 (the sweep accounts for every listed file).  Whatever the listing
    and the directory, every listed path ends in exactly one of the three
    result lists of [main], as often as it is listed: the three lists
    together are a rearrangement of the listing, so the three counts printed
    at the end add up to the number of files. *)
Theorem main_accounts_for_every_file (now written : Z)
    (csv_files : list string) (fs : gmap string DataFrame) :
  let sm := (main qsqrt now written csv_files fs).1.1 in
  deleted_files sm ++ updated_files sm ++ (error_files sm).*1 ≡ₚ csv_files
  ∧ length (deleted_files sm) + length (updated_files sm)
    + length (error_files sm) = length csv_files.
Proof.
  cbv zeta.
  pose proof (main_loop_counts (main_cutoff now) csv_files (Summary [] [] [])
                fs) as H.
  cbv zeta in H. cbn [deleted_files updated_files error_files fmap list_fmap
                      app] in H.
  unfold main.
  destruct (foldl (main_step qsqrt (main_cutoff now)) (Summary [] [] [], fs)
              csv_files) as [sm fs'].
  cbn [fst snd] in *.
  split; [exact H|].
  apply Permutation_length in H.
  rewrite !length_app, length_fmap in H. lia.
Qed.

End SweepLoop.

Lemma main_files_independent_witness :
  NoDup ["AAPL.csv"; "MSFT.csv"]
  ∧ deleted_files
      (main qsqrt_fixed now_ex (now_ex + 5) ["AAPL.csv"; "MSFT.csv"]
         (<["AAPL.csv" := frame_old_novol]> {[ "MSFT.csv" := frame_new ]})).1.1
    = ["AAPL.csv"]
  ∧ updated_files
      (main qsqrt_fixed now_ex (now_ex + 5) ["AAPL.csv"; "MSFT.csv"]
         (<["AAPL.csv" := frame_old_novol]> {[ "MSFT.csv" := frame_new ]})).1.1
    = ["MSFT.csv"]
  ∧ (main qsqrt_fixed now_ex (now_ex + 5) ["AAPL.csv"; "MSFT.csv"]
       (<["AAPL.csv" := frame_old_novol]> {[ "MSFT.csv" := frame_new ]})).2
    = Some (DeletedList (now_ex + 5) (220 * 86400) 1 ["AAPL.csv"]).
Proof.
  assert (NoDup ["AAPL.csv"; "MSFT.csv"]) as Hnd by compute_done.
  split; [exact Hnd|].
  destruct (main_files_independent qsqrt_fixed now_ex (now_ex + 5)
              ["AAPL.csv"; "MSFT.csv"]
              (<["AAPL.csv" := frame_old_novol]> {[ "MSFT.csv" := frame_new ]})
              Hnd) as (Hd & Hu & _ & _ & Hl).
  rewrite Hd, Hu, Hl. split; [compute_done|]. split; compute_done.
Defined.

(** * Running the engine and the sweep a second time *)

Section SecondPass.

Variable qsqrt : Qc → Qc.

Lemma assoc_app_l name (l1 l2 : list (string * Series)) :
  is_Some (assoc name l1) → assoc name (l1 ++ l2) = assoc name l1.
Proof.
  induction l1 as [|[n0 s0] l1 IH]; simpl.
  - by intros [? ?].
  - case_decide; [done|]. exact IH.
Qed.

Lemma in_columns_assoc name df :
  name ≠ "date" → in_columns name df = true →
  is_Some (assoc name (df_cols df)).
Proof.
  intros Hne Hin. unfold in_columns in Hin.
  rewrite decide_False in Hin by done.
  apply bool_decide_eq_true_1 in Hin. by apply assoc_is_Some.
Qed.

Lemma in_columns_app name date cols extra :
  in_columns name (mkDF date cols) = true →
  in_columns name (mkDF date (cols ++ extra)) = true.
Proof.
  unfold in_columns. cbn [df_date df_cols]. case_decide; [done|].
  intros Hin%bool_decide_eq_true_1. apply bool_decide_eq_true_2.
  rewrite fmap_app. apply elem_of_app. by left.
Qed.

Lemma getcol_app name date cols extra :
  name ≠ "date" → in_columns name (mkDF date cols) = true →
  getcol name (mkDF date (cols ++ extra)) = getcol name (mkDF date cols).
Proof.
  intros Hne Hin. unfold getcol. cbn [df_cols].
  rewrite assoc_app_l; [done|].
  by apply (in_columns_assoc name (mkDF date cols)).
Qed.

Lemma required_not_date c : c ∈ required_cols → c ≠ "date".
Proof.
  intros Hc ->. assert ("date" ∉ required_cols) as Hn by compute_done. done.
Qed.

Lemma first_missing_date date date' cols :
  first_missing (mkDF date' cols) = first_missing (mkDF date cols).
Proof.
  unfold first_missing. apply (f_equal head), filter_ext_in. intros c Hc.
  unfold in_columns. by rewrite !decide_False by (by apply required_not_date).
Qed.

(** the engine does not look at the date column *)
Lemma calculate_all_indicators_date date date' cols :
  calculate_all_indicators qsqrt (mkDF date' cols)
  = match calculate_all_indicators qsqrt (mkDF date cols) with
    | Ok r => Ok (mkDF date' (df_cols r))
    | Raise e => Raise e
    end.
Proof.
  unfold calculate_all_indicators.
  rewrite (first_missing_date date date' cols).
  destruct (first_missing (mkDF date cols)); [done|].
  change (getcol "high" (mkDF date' cols)) with (getcol "high" (mkDF date cols)).
  change (getcol "low" (mkDF date' cols)) with (getcol "low" (mkDF date cols)).
  change (getcol "close" (mkDF date' cols))
    with (getcol "close" (mkDF date cols)).
  change (getcol "volume" (mkDF date' cols))
    with (getcol "volume" (mkDF date cols)).
  by destruct (sar _ _).
Qed.

Lemma first_missing_app date cols extra :
  first_missing (mkDF date cols) = None →
  first_missing (mkDF date (cols ++ extra)) = None.
Proof.
  intros Hm. apply missing_cols_nil_first.
  destruct (missing_cols (mkDF date (cols ++ extra))) as [|c rest] eqn:E;
    [done|].
  assert (c ∈ missing_cols (mkDF date (cols ++ extra))) as Hc
    by (rewrite E; apply list_elem_of_here).
  unfold missing_cols in Hc. apply list_elem_of_filter in Hc as [Hf Hreq].
  pose proof (first_missing_None_in _ c Hm Hreq) as Hin.
  apply (in_columns_app c date cols extra) in Hin. congruence.
Qed.

(** X5 (the engine is not idempotent).  Run on a frame it has already
    enriched, the engine succeeds again and appends the same 111 indicator
    columns, with the same names and the same cells, a second time: the
    columns it reads are the original price columns, which come first. *)
Theorem engine_appends_again (df r : DataFrame) :
  calculate_all_indicators qsqrt df = Ok r →
  ∃ r2, calculate_all_indicators qsqrt r = Ok r2
        ∧ df_date r2 = df_date df
        ∧ df_cols r2
          = df_cols r ++ drop (length (df_cols df)) (df_cols r)
        ∧ length (df_cols r2) = length (df_cols df) + 111 + 111.
Proof.
  intros Hr.
  apply calculate_all_indicators_Ok in Hr as (Hm & sar_col & Hsar & ->).
  destruct df as [date cols]. cbn [df_date df_cols] in *.
  set (extra := round_columns _).
  assert (∀ c, c ∈ required_cols →
            getcol c (mkDF date (cols ++ extra)) = getcol c (mkDF date cols))
    as Hget.
  { intros c Hc. apply getcol_app; [by apply required_not_date|].
    by apply first_missing_None_in. }
  unfold calculate_all_indicators.
  rewrite (first_missing_app date cols extra Hm).
  rewrite !Hget by compute_done.
  rewrite Hsar. eexists. split; [reflexivity|].
  cbn [df_date df_cols]. split; [done|].
  rewrite drop_app_length. split; [done|].
  rewrite !length_app. subst extra. unfold round_columns.
  rewrite !length_map. reflexivity.
Qed.

Lemma midnight_mono (a b : Z) : (a ≤ b)%Z → (midnight a ≤ midnight b)%Z.
Proof.
  intros Hab. unfold midnight, seconds_per_day.
  rewrite !Z.mod_eq by lia.
  pose proof (Z.div_le_mono a b 86400 ltac:(lia) Hab). lia.
Qed.

Lemma midnight_max (a b : Z) :
  Z.max (midnight a) (midnight b) = midnight (Z.max a b).
Proof.
  destruct (Z.le_ge_cases a b) as [H|H].
  - rewrite (Z.max_r a b) by done. apply Z.max_r. by apply midnight_mono.
  - rewrite (Z.max_l a b) by done. apply Z.max_l. by apply midnight_mono.
Qed.

Lemma midnight_idemp (a : Z) : midnight (midnight a) = midnight a.
Proof.
  unfold midnight, seconds_per_day.
  rewrite (Z.mod_eq a 86400) by lia.
  replace (a - (a - 86400 * (a `div` 86400)))%Z
    with ((a `div` 86400) * 86400)%Z by lia.
  rewrite Z.mod_mul by lia. lia.
Qed.

Lemma to_datetime_strftime (dates : list (option Z)) :
  to_datetime (map strftime_day dates) = Ok (map (fmap midnight) dates).
Proof.
  induction dates as [|[t|] dates IH]; [done|..]; cbn [map to_datetime];
    rewrite IH; reflexivity.
Qed.

Lemma date_max_midnight (dates : list (option Z)) :
  date_max (map (fmap midnight) dates) = midnight <$> date_max dates.
Proof.
  induction dates as [|[t|] dates IH]; [done|..]; cbn [map date_max foldr].
  - fold (date_max (map (fmap midnight) dates)). fold (date_max dates).
    rewrite IH. destruct (date_max dates); cbn; [|done].
    by rewrite midnight_max.
  - exact IH.
Qed.

Lemma strftime_midnight (dates : list (option Z)) :
  map strftime_day (map (fmap midnight) dates) = map strftime_day dates.
Proof.
  rewrite map_map. apply map_ext. intros [t|]; [|done].
  cbn [fmap option_fmap option_map strftime_day].
  fold (midnight (midnight t)). fold (midnight t).
  by rewrite midnight_idemp.
Qed.

(** X6 (the rewritten date column).  The date column that the sweep writes
    always parses again: every date comes back as the midnight of its day,
    an empty date stays empty, and the latest date of the rewritten file is
    the midnight of the previous latest date, hence never later than it.
    Writing the parsed column once more changes nothing. *)
Theorem rewritten_dates_parse (dates : list (option Z)) :
  to_datetime (map strftime_day dates) = Ok (map (fmap midnight) dates)
  ∧ date_max (map (fmap midnight) dates) = midnight <$> date_max dates
  ∧ (∀ t, date_max (map (fmap midnight) dates) = Some t →
          ∃ t0, date_max dates = Some t0 ∧ (t ≤ t0)%Z
                ∧ (t0 - seconds_per_day < t)%Z)
  ∧ map strftime_day (map (fmap midnight) dates) = map strftime_day dates.
Proof.
  split; [apply to_datetime_strftime|].
  split; [apply date_max_midnight|]. split.
  - intros t. rewrite date_max_midnight.
    destruct (date_max dates) as [t0|]; [|done].
    intros [= <-]. exists t0. split; [done|].
    unfold midnight, seconds_per_day.
    pose proof (Z.mod_pos_bound t0 86400 ltac:(lia)). lia.
  - apply strftime_midnight.
Qed.

(** X7 (sweeping a file twice).  After the sweep has rewritten a file
    whose column names are then distinct, so that it reads back as it was
    written, a second sweep of that file, with any cut-off, deletes it when
    the midnight of its latest date lies before the cut-off, and otherwise
    rewrites it with the 111 indicator columns appended once more; the
    message counts all columns of the file, the date column included, not
    the columns added. *)
Theorem sweep_second_pass (fs : gmap string DataFrame) (path : string)
    (df r : DataFrame) (cells : list datecell) (dates : list (option Z))
    (cutoff : Z) :
  fs !! path = Some df →
  df_date df = Some cells →
  to_datetime cells = Ok dates →
  date_before (date_max dates) cutoff = false →
  calculate_all_indicators qsqrt df = Ok r →
  NoDup ((df_cols r).*1) →
  let out := mkDF (Some (map strftime_day dates)) (df_cols r) in
  let fs1 := (process_single_file qsqrt fs path cutoff).2 in
  process_single_file qsqrt fs path cutoff
  = ((Updated, "添加了 " +:+ pretty (1 + length (df_cols df) + 111) +:+ " 列"),
     <[path := out]> fs)
  ∧ ∀ cutoff2,
      process_single_file qsqrt fs1 path cutoff2
      = if date_before (midnight <$> date_max dates) cutoff2 then
          ((Deleted,
            "最新数据: " +:+ pretty (default 0%Z (midnight <$> date_max dates))),
           delete path fs1)
        else
          ((Updated,
            "添加了 " +:+ pretty (1 + length (df_cols df) + 111 + 111)
            +:+ " 列"),
           <[path := mkDF (Some (map strftime_day dates))
                          (df_cols r
                           ++ drop (length (df_cols df)) (df_cols r))]> fs1).
Proof.
  intros Hfs Hd Ht Hfresh Hr _. cbv zeta.
  pose proof Hr as Hr0.
  apply calculate_all_indicators_Ok in Hr0 as (Hm & sar_col & Hsar & Hreq).
  apply missing_cols_nil_first in Hm.
  assert (length (df_cols r) = length (df_cols df) + 111) as Hlen.
  { rewrite Hreq. cbn [df_cols]. rewrite length_app. unfold round_columns.
    rewrite length_map. reflexivity. }
  assert (process_single_file qsqrt fs path cutoff
          = ((Updated,
              "添加了 " +:+ pretty (1 + length (df_cols df) + 111) +:+ " 列"),
             <[path := mkDF (Some (map strftime_day dates)) (df_cols r)]> fs))
    as Hp.
  { rewrite (process_single_file_parsed qsqrt fs path df cells dates cutoff
               Hfs Hd Ht), Hfresh, Hm, Hr. cbv zeta.
    unfold n_columns. cbn [df_date df_cols]. rewrite Hlen.
    rewrite bool_decide_eq_true_2 by (by eexists). done. }
  split; [exact Hp|]. intros cutoff2. rewrite Hp. cbn [snd].
  set (out := mkDF (Some (map strftime_day dates)) (df_cols r)).
  destruct (engine_appends_again df r Hr) as (r2 & Hr2 & _ & Hc2 & Hl2).
  assert (calculate_all_indicators qsqrt out
          = Ok (mkDF (df_date out) (df_cols r2))) as Hout.
  { subst out. rewrite (calculate_all_indicators_date (df_date r)).
    destruct r as [rd rc]. cbn [df_date df_cols] in *. by rewrite Hr2. }
  rewrite (process_single_file_parsed qsqrt _ path out
             (map strftime_day dates) (map (fmap midnight) dates) cutoff2
             (lookup_insert_eq _ _ _) eq_refl (to_datetime_strftime dates)).
  rewrite date_max_midnight.
  destruct (date_before (midnight <$> date_max dates) cutoff2); [done|].
  assert (missing_cols out = []) as ->.
  { apply missing_cols_nil_first.
    unfold calculate_all_indicators in Hout.
    by destruct (first_missing out). }
  rewrite Hout. cbv zeta. unfold n_columns. cbn [df_date df_cols].
  rewrite bool_decide_eq_true_2 by (by eexists).
  by rewrite Hl2, Hc2, strftime_midnight.
Qed.

End SecondPass.

Lemma engine_appends_again_witness :
  calculate_all_indicators qsqrt_fixed frame_a = Ok (enriched frame_a)
  ∧ ∃ r2, calculate_all_indicators qsqrt_fixed (enriched frame_a) = Ok r2
          ∧ length (df_cols r2) = 5 + 111 + 111.
Proof.
  split; [exact frame_a_Ok|].
  destruct (engine_appends_again qsqrt_fixed frame_a (enriched frame_a)
              frame_a_Ok) as (r2 & Hr2 & _ & _ & Hlen).
  exists r2. split; [exact Hr2|exact Hlen].
Defined.

Lemma frame_new_Ok :
  calculate_all_indicators qsqrt_fixed frame_new = Ok (enriched frame_new).
Proof.
  apply enriched_Ok.
  destruct (calculate_all_indicators_total qsqrt_fixed frame_new)
    as (r & Hr & _); [reflexivity|simpl; lia..|].
  by exists r.
Defined.

Lemma sweep_second_pass_witness :
  ({[ "AAPL.csv" := frame_new ]} : gmap string DataFrame) !! "AAPL.csv"
  = Some frame_new
  ∧ df_date frame_new = Some [DParsed (300 * 86400)]
  ∧ to_datetime [DParsed (300 * 86400)] = Ok [Some (300 * 86400)%Z]
  ∧ date_before (date_max [Some (300 * 86400)%Z]) (main_cutoff now_ex) = false
  ∧ calculate_all_indicators qsqrt_fixed frame_new = Ok (enriched frame_new)
  ∧ NoDup ((df_cols (enriched frame_new)).*1)
  ∧ (process_single_file qsqrt_fixed {[ "AAPL.csv" := frame_new ]}
       "AAPL.csv" (main_cutoff now_ex)).1
    = (Updated, "添加了 " +:+ pretty (1 + 5 + 111) +:+ " 列").
Proof.
  assert (({[ "AAPL.csv" := frame_new ]} : gmap string DataFrame) !! "AAPL.csv"
          = Some frame_new) as H1 by reflexivity.
  assert (df_date frame_new = Some [DParsed (300 * 86400)]) as H2
    by reflexivity.
  assert (to_datetime [DParsed (300 * 86400)] = Ok [Some (300 * 86400)%Z])
    as H3 by reflexivity.
  assert (date_before (date_max [Some (300 * 86400)%Z]) (main_cutoff now_ex)
          = false) as H4 by reflexivity.
  assert (NoDup ((df_cols (enriched frame_new)).*1)) as H5 by compute_done.
  split; [exact H1|]. split; [exact H2|]. split; [exact H3|].
  split; [exact H4|]. split; [exact frame_new_Ok|]. split; [exact H5|].
  destruct (sweep_second_pass qsqrt_fixed _ "AAPL.csv" frame_new
              (enriched frame_new) _ _ (main_cutoff now_ex) H1 H2 H3 H4
              frame_new_Ok H5) as [Hp _].
  rewrite Hp. reflexivity.
Defined.

(** * Which rows a cell is computed from *)

Section Lookback.

Lemma lookup_map {A B} (f : A → B) (l : list A) (i : nat) :
  map f l !! i = f <$> l !! i.
Proof. change (map f l) with (f <$> l). apply list_lookup_fmap. Qed.

Lemma lookup_shift_lt n (s : Series) i :
  i < length s → i < n → shift n s !! i = Some NaN.
Proof.
  intros Hi Hn. unfold shift. rewrite lookup_take_lt by done.
  rewrite lookup_app_l by (rewrite length_replicate; lia).
  by apply lookup_replicate_2.
Qed.

Lemma lookup_shift_ge n (s : Series) i :
  i < length s → n ≤ i → shift n s !! i = s !! (i - n).
Proof.
  intros Hi Hn. unfold shift. rewrite lookup_take_lt by done.
  rewrite lookup_app_r by (rewrite length_replicate; lia).
  by rewrite length_replicate.
Qed.

Lemma lookup_shift_S (s : Series) i x :
  S i < length s → s !! i = Some x → shift 1 s !! S i = Some x.
Proof.
  intros Hi Hx. rewrite lookup_shift_ge by lia.
  by replace (S i - 1) with i by lia.
Qed.

Lemma lookup_rolling_apply w f (s : Series) i :
  i < length s →
  rolling_apply w f s !! i
  = Some (match window_at w s i with
          | Some win => if forallb isfinite win then f win else NaN
          | None => NaN
          end).
Proof.
  intros Hi. unfold rolling_apply. rewrite list_lookup_imap.
  destruct (lookup_lt_is_Some_2 s i Hi) as [x ->]. done.
Qed.

Lemma fsum_from_Fin (a : Qc) (qs : list Qc) :
  foldl fadd (Fin a) (map Fin qs) = Fin (a + Qsum qs)%Qc.
Proof.
  revert a. induction qs as [|q qs IH]; intros a; cbn [map foldl Qsum foldr].
  - f_equal. ring.
  - cbn [fadd]. rewrite IH. f_equal. fold (Qsum qs). ring.
Qed.

Lemma fsum_Fin (qs : list Qc) : fsum (map Fin qs) = Fin (Qsum qs).
Proof.
  unfold fsum. rewrite fz0, fsum_from_Fin. f_equal. ring.
Qed.

Lemma forallb_isfinite_Fin (qs : list Qc) : forallb isfinite (map Fin qs) = true.
Proof. by induction qs. Qed.

Lemma Qc_of_nat_pos (n : nat) : 1 ≤ n → (0 < Qc_of_Z (Z.of_nat n))%Qc.
Proof. intros Hn. apply Qc_of_Z_pos. lia. Qed.

Lemma fmean_Fin (qs : list Qc) :
  1 ≤ length qs →
  fmean (map Fin qs)
  = Fin (Qsum qs / Qc_of_Z (Z.of_nat (length qs)))%Qc.
Proof.
  intros Hn. unfold fmean, flen, fz. rewrite fsum_Fin, length_map.
  cbn [fdiv]. unfold Qc_eqb. rewrite bool_decide_eq_false_2; [done|].
  apply Qc_pos_ne0. by apply Qc_of_nat_pos.
Qed.

(** X8 (pivot points use the previous bar only).  On a frame of [n] rows
    the five pivot columns are NaN on the first row, and on every later row
    they are computed from the high, low and close of the row before it and
    from nothing else: the pivot is their mean, and the resistance and
    support levels are the stated combinations of the pivot with that high
    and low.  The generator script computes the same five columns. *)
Theorem pivot_uses_previous_bar (n i : nat) (high low close : Series)
    (h l c : fval) :
  length high = n → length low = n → length close = n →
  S i < n →
  high !! i = Some h → low !! i = Some l → close !! i = Some c →
  let p := fdiv (fadd (fadd h l) c) (fz 3) in
  (pivot high low close !! 0 = Some NaN
   ∧ r1 high low close !! 0 = Some NaN
   ∧ r2 high low close !! 0 = Some NaN
   ∧ s1 high low close !! 0 = Some NaN
   ∧ s2 high low close !! 0 = Some NaN)
  ∧ pivot high low close !! S i = Some p
  ∧ r1 high low close !! S i = Some (fsub (fmul (fz 2) p) l)
  ∧ r2 high low close !! S i = Some (fadd p (fsub h l))
  ∧ s1 high low close !! S i = Some (fsub (fmul (fz 2) p) h)
  ∧ s2 high low close !! S i = Some (fsub p (fsub h l))
  ∧ Generator.calculate_pivot_points high low close
    = (pivot high low close, r1 high low close, r2 high low close,
       s1 high low close, s2 high low close).
Proof.
  intros Hh Hl Hc Hi Hhi Hli Hci. cbv zeta.
  assert (∀ s, length s = n → shift 1 s !! 0 = Some NaN) as H0.
  { intros s Hs. apply lookup_shift_lt; lia. }
  assert (∀ s x, length s = n → s !! i = Some x → shift 1 s !! S i = Some x)
    as HS.
  { intros s x Hs Hx. apply lookup_shift_S; [lia|done]. }
  assert (pivot high low close !! 0 = Some NaN) as Hp0.
  { unfold pivot, sdivc, sadd. rewrite lookup_map, !lookup_zip_with.
    by rewrite !H0 by done. }
  assert (pivot high low close !! S i
          = Some (fdiv (fadd (fadd h l) c) (fz 3))) as HpS.
  { unfold pivot, sdivc, sadd. rewrite lookup_map, !lookup_zip_with.
    by rewrite (HS high h), (HS low l), (HS close c) by done. }
  split; [|split; [|split; [|split; [|split; [|split]]]]];
    [|exact HpS|..|reflexivity].
  - split; [exact Hp0|].
    unfold r1, r2, s1, s2, scale, ssub, sadd.
    rewrite !lookup_zip_with, !lookup_map, Hp0, !H0 by done. done.
  - unfold r1, scale, ssub. rewrite lookup_zip_with, lookup_map, HpS.
    by rewrite (HS low l) by done.
  - unfold r2, ssub, sadd. rewrite !lookup_zip_with, HpS.
    by rewrite (HS high h), (HS low l) by done.
  - unfold s1, scale, ssub. rewrite lookup_zip_with, lookup_map, HpS.
    by rewrite (HS high h) by done.
  - unfold s2, ssub. rewrite !lookup_zip_with, HpS.
    by rewrite (HS high h), (HS low l) by done.
Qed.

(** X9 (rate of change and momentum look back [period] rows).  On the
    first [period] rows ROC and momentum are NaN; on a later row [i] they
    are computed from the close of row [i] and the close of row
    [i - period] only: momentum is their difference and ROC is 100 times
    the difference divided by the earlier close.  The generator script
    computes the same columns. *)
Theorem roc_looks_back (period i : nat) (close : Series) :
  i < length close →
  (i < period →
     roc period close !! i = Some NaN ∧ mom period close !! i = Some NaN)
  ∧ (∀ c c0, period ≤ i →
       close !! i = Some c → close !! (i - period) = Some c0 →
       roc period close !! i = Some (fmul (fz 100) (fdiv (fsub c c0) c0))
       ∧ mom period close !! i = Some (fsub c c0))
  ∧ Generator.calculate_roc close period = roc period close
  ∧ Generator.calculate_momentum close period = mom period close.
Proof.
  intros Hi. split; [|split; [|done]].
  - intros Hp. destruct (lookup_lt_is_Some_2 close i Hi) as [c Hc].
    unfold roc, mom, scale, sdiv, ssub.
    rewrite lookup_map, !lookup_zip_with, Hc, lookup_shift_lt by done.
    cbn. by destruct c.
  - intros c c0 Hp Hc Hc0.
    unfold roc, mom, scale, sdiv, ssub.
    rewrite lookup_map, !lookup_zip_with, Hc, lookup_shift_ge, Hc0 by done.
    done.
Qed.

(** X10 (the simple moving average).  The SMA of window [w] is NaN on the
    first [w - 1] rows; on a later row [i] whose window, the [w] rows
    ending at [i], holds real numbers only, it is their arithmetic mean;
    and it is NaN when the window holds a NaN. *)
Theorem sma_is_window_mean (w i : nat) (s : Series) :
  i < length s →
  (S i < w → rolling_mean w s !! i = Some NaN)
  ∧ (∀ qs, 1 ≤ w → w ≤ S i →
       take w (drop (S i - w) s) = map Fin qs →
       length qs = w
       ∧ rolling_mean w s !! i
         = Some (Fin (Qsum qs / Qc_of_Z (Z.of_nat w))%Qc))
  ∧ (w ≤ S i → NaN ∈ take w (drop (S i - w) s) →
     rolling_mean w s !! i = Some NaN)
  ∧ Generator.calculate_sma s w = rolling_mean w s.
Proof.
  intros Hi. unfold rolling_mean.
  rewrite (lookup_rolling_apply w fmean s i Hi). unfold window_at.
  split; [|split; [|split; [|done]]].
  - intros Hw. by rewrite decide_False by lia.
  - intros qs Hw1 Hw Hwin. rewrite decide_True by done. rewrite Hwin.
    assert (length qs = w) as Hlen.
    { rewrite <- (length_map Fin qs), <- Hwin, length_take, length_drop. lia. }
    split; [done|].
    rewrite forallb_isfinite_Fin, fmean_Fin by lia. by rewrite Hlen.
  - intros Hw Hnan. rewrite decide_True by done.
    destruct (forallb isfinite _) eqn:E; [|done].
    rewrite forallb_forall in E.
    apply list_elem_of_In in Hnan. by apply E in Hnan.
Qed.

End Lookback.

(** * The exponential moving average stays among its inputs *)

(** goals about the order of rationals are decided over [Q] *)
Ltac qc2q :=
  unfold Qcle, Qclt, Qcminus, Qcplus, Qcmult, Qcopp, Q2Qc in *;
  cbn [this] in *;
  repeat match goal with
  | H : context [Qred ?x] |- _ => rewrite (Qred_correct x) in H
  | |- context [Qred ?x] => rewrite (Qred_correct x)
  end.

Section EMARange.

Lemma convex_within (a lo hi w c : Qc) :
  (0 ≤ a)%Qc → (a ≤ 1)%Qc →
  (lo ≤ w)%Qc → (w ≤ hi)%Qc → (lo ≤ c)%Qc → (c ≤ hi)%Qc →
  (lo ≤ a * c + (1 - a) * w)%Qc ∧ (a * c + (1 - a) * w ≤ hi)%Qc.
Proof. intros. qc2q. split; nra. Qed.

Lemma ewm_alpha_range (span : nat) :
  1 ≤ span → (0 ≤ ewm_alpha span)%Qc ∧ (ewm_alpha span ≤ 1)%Qc.
Proof.
  intros Hspan. rewrite ewm_alpha_span.
  assert (1 ≤ Qc_of_Z (Z.of_nat span))%Qc as Hs.
  { rewrite <- Z2Qc_inj_1. apply (proj1 (Z2Qc_inj_le _ _)). lia. }
  revert Hs. generalize (Qc_of_Z (Z.of_nat span)). intros s Hs.
  assert (0 < s + 1)%Qc as Hd by (qc2q; lra).
  split.
  - apply Qcdiv_nonneg; [|exact Hd]. apply Qclt_le_weak, Qc_two_pos.
  - apply (Qcmult_lt_0_le_reg_r _ _ (s + 1)%Qc Hd).
    rewrite Qcdiv_mult_cancel by (by apply Qc_pos_ne0).
    rewrite Qcmult_1_l. qc2q. lra.
Qed.

Lemma ewm_loop_within (alpha lo hi w : Qc) (r : Series) :
  (0 ≤ alpha)%Qc → (alpha ≤ 1)%Qc →
  within lo hi (Fin w) → Forall (within lo hi) r →
  Forall (within lo hi) (ewm_loop alpha (Fin w) 1 r).
Proof.
  intros Ha0 Ha1. revert w.
  induction r as [|c r IH]; intros w Hw Hr; [constructor|].
  apply Forall_cons in Hr as [Hc Hr].
  destruct c as [c| | |]; try (by destruct Hc).
  cbn [ewm_loop]. rewrite ewm_step_fin.
  destruct Hw as [Hw1 Hw2], Hc as [Hc1 Hc2].
  pose proof (convex_within alpha lo hi w c Ha0 Ha1 Hw1 Hw2 Hc1 Hc2) as Hcv.
  constructor; [exact Hcv|]. by apply IH.
Qed.

(** X11 (the EMA is a running weighted mean).  For a span of at least 1,
    when every input is a real number between [lo] and [hi], so is every
    cell of the exponential moving average: it never leaves the range of
    the prices it has seen. *)
Theorem ema_within_inputs (span : nat) (lo hi : Qc) (x : Series) :
  1 ≤ span →
  Forall (within lo hi) x →
  Forall (within lo hi) (ewm_mean span x)
  ∧ Forall (within lo hi) (Generator.calculate_ema x span).
Proof.
  intros Hspan Hx.
  assert (Forall (within lo hi) (ewm_mean span x)) as H; [|by split].
  destruct (ewm_alpha_range span Hspan) as [Ha0 Ha1].
  destruct x as [|x0 r]; [constructor|].
  apply Forall_cons in Hx as [H0 Hr].
  destruct x0 as [w| | |]; try (by destruct H0).
  cbn [ewm_mean]. constructor; [exact H0|]. by apply ewm_loop_within.
Qed.

Lemma ewm_loop_constant (alpha : Qc) (c : Qc) (n : nat) :
  ewm_loop alpha (Fin c) 1 (replicate n (Fin c)) = replicate n (Fin c).
Proof.
  induction n as [|n IH]; [done|].
  cbn [replicate ewm_loop]. unfold ewm_step at 1.
  cbn [notna isnan isfinite negb]. unfold fneb, feqb.
  rewrite bool_decide_eq_true_2 by done. cbn [negb]. by rewrite IH.
Qed.

Lemma ewm_mean_constant (span : nat) (c : Qc) (n : nat) :
  ewm_mean span (replicate n (Fin c)) = replicate n (Fin c).
Proof.
  destruct n as [|n]; [done|].
  cbn [replicate ewm_mean isfinite]. by rewrite ewm_loop_constant.
Qed.

Lemma map_replicate {A B} (f : A → B) (n : nat) (x : A) :
  map f (replicate n x) = replicate n (f x).
Proof. induction n as [|n IH]; [done|]. simpl. by rewrite IH. Qed.

(** X12 (flat prices).  When the close is the same real number [c] on all
    [n] rows, every exponential average of it, whatever the span (of at
    least 1, as pandas demands), is [c] on all rows, and so are DEMA and
    TEMA; the MACD line, its signal line and its histogram are 0 on all
    rows. *)
Theorem flat_prices (span n : nat) (c : Qc) :
  1 ≤ span →
  let close := replicate n (Fin c) in
  ewm_mean span close = close
  ∧ dema span close = close
  ∧ tema span close = close
  ∧ macd close = replicate n (Fin 0)
  ∧ macd_signal close = replicate n (Fin 0)
  ∧ macd_hist close = replicate n (Fin 0).
Proof.
  intros _. cbv zeta.
  assert (macd (replicate n (Fin c)) = replicate n (Fin 0)) as Hmacd.
  { unfold macd, ssub. rewrite !ewm_mean_constant, zip_with_replicate.
    by rewrite fsub_self. }
  assert (macd_signal (replicate n (Fin c)) = replicate n (Fin 0)) as Hsig.
  { unfold macd_signal. by rewrite Hmacd, ewm_mean_constant. }
  split; [apply ewm_mean_constant|]. split; [|split; [|split; [|split]]].
  - unfold dema, scale, ssub.
    rewrite !ewm_mean_constant, map_replicate, zip_with_replicate.
    f_equal. unfold fsub, fz. cbn [fmul fneg fadd]. f_equal.
    assert (Qc_of_Z 2 = 1 + 1)%Qc as -> by compute_done. ring.
  - unfold tema, scale, ssub, sadd.
    rewrite !ewm_mean_constant, map_replicate, !zip_with_replicate.
    f_equal. unfold fsub, fz. cbn [fmul fneg fadd]. f_equal. ring.
  - exact Hmacd.
  - exact Hsig.
  - unfold macd_hist, ssub. rewrite Hsig, Hmacd, zip_with_replicate.
    by rewrite fsub_self.
Qed.

End EMARange.

Lemma ema_within_inputs_witness :
  1 ≤ 3
  ∧ Forall (within (Qc_of_Z 1) (Qc_of_Z 4)) [fz 1; fz 2; fz 4]
  ∧ Forall (within (Qc_of_Z 1) (Qc_of_Z 4)) (ewm_mean 3 [fz 1; fz 2; fz 4]).
Proof.
  assert (1 ≤ 3) as H1 by lia.
  assert (Forall (within (Qc_of_Z 1) (Qc_of_Z 4)) [fz 1; fz 2; fz 4]) as H2
    by (repeat constructor; by vm_compute).
  split; [exact H1|]. split; [exact H2|].
  exact (proj1 (ema_within_inputs 3 (Qc_of_Z 1) (Qc_of_Z 4) [fz 1; fz 2; fz 4] H1 H2)).
Defined.

(** * RSI on rising prices *)

Section Rising.

Lemma Forall_window {A} (P : A → Prop) w k (s : list A) :
  (∀ j x, k ≤ j → s !! j = Some x → P x) → Forall P (take w (drop k s)).
Proof.
  intros H. apply Forall_lookup. intros j x Hj.
  apply lookup_take_Some in Hj as [Hj _]. rewrite lookup_drop in Hj.
  apply (H (k + j)); [lia|done].
Qed.

Lemma finite_map_Fin (win : list fval) :
  Forall is_finite win → ∃ qs, win = map Fin qs.
Proof.
  induction 1 as [|x win Hx _ [qs ->]]; [by exists []|].
  destruct x as [q| | |]; try done. by exists (q :: qs).
Qed.

Lemma Qcdiv_pos (a b : Qc) : (0 < a)%Qc → (0 < b)%Qc → (0 < a / b)%Qc.
Proof.
  intros Ha Hb. destruct (Qclt_le_dec 0 (a / b)) as [H|H]; [done|].
  exfalso. apply (Qcmult_le_compat_r _ _ b) in H; [|by apply Qclt_le_weak].
  rewrite Qcdiv_mult_cancel in H by (by apply Qc_pos_ne0).
  rewrite Qcmult_0_l in H. by apply Qcle_not_lt in H.
Qed.

Lemma Qsum_pos (qs : list Qc) :
  Forall (λ q, 0 < q)%Qc qs → qs ≠ [] → (0 < Qsum qs)%Qc.
Proof.
  induction 1 as [|q qs Hq Hqs IH]; [done|]. intros _.
  cbn [Qsum foldr]. fold (Qsum qs).
  destruct qs as [|q' qs].
  - cbn [Qsum foldr]. by rewrite Qcplus_0_r.
  - assert (0 < Qsum (q' :: qs))%Qc as Hs by (by apply IH).
    revert Hs. generalize (Qsum (q' :: qs)). intros t Ht. qc2q. lra.
Qed.

Lemma Qsum_zero (qs : list Qc) : Forall (λ q, q = 0%Qc) qs → Qsum qs = 0%Qc.
Proof.
  induction 1 as [|q qs -> _ IH]; [done|].
  cbn [Qsum foldr]. fold (Qsum qs). rewrite IH. ring.
Qed.

Lemma fmean_pos (win : list fval) :
  Forall pos_cell win → win ≠ [] → pos_cell (fmean win).
Proof.
  intros Hpos Hne.
  destruct (finite_map_Fin win) as [qs ->].
  { eapply Forall_impl; [exact Hpos|]. by intros [q| | |]. }
  rewrite fmean_Fin by (destruct qs; [done|simpl; lia]).
  cbn [pos_cell]. apply Qcdiv_pos.
  - apply Qsum_pos; [|by destruct qs].
    apply Forall_forall. intros q Hq.
    apply (proj1 (Forall_forall _ _) Hpos (Fin q)).
    change (map Fin qs) with (Fin <$> qs). by apply list_elem_of_fmap_2.
  - apply Qc_of_nat_pos. destruct qs; [done|simpl; lia].
Qed.

Lemma fmean_zero (win : list fval) :
  Forall (λ v, v = Fin 0%Qc) win → win ≠ [] → fmean win = Fin 0%Qc.
Proof.
  intros Hz Hne.
  destruct (finite_map_Fin win) as [qs ->].
  { eapply Forall_impl; [exact Hz|]. by intros v ->. }
  rewrite fmean_Fin by (destruct qs; [done|simpl; lia]).
  rewrite Qsum_zero.
  - f_equal. unfold Qcdiv. ring.
  - apply Forall_forall. intros q Hq.
    assert (Fin q = Fin 0%Qc) as Heq; [|by injection Heq].
    apply (proj1 (Forall_forall _ _) Hz (Fin q)).
    change (map Fin qs) with (Fin <$> qs). by apply list_elem_of_fmap_2.
Qed.

Lemma forallb_isfinite_finite (win : list fval) :
  Forall is_finite win → forallb isfinite win = true.
Proof. intros [qs ->]%finite_map_Fin. apply forallb_isfinite_Fin. Qed.

(** on rising prices every difference after the first row is positive *)
Lemma rising_diff (close : Series) (j : nat) :
  rising close → 1 ≤ j → j < length close →
  ∃ d, diff close !! j = Some (Fin d) ∧ (0 < d)%Qc.
Proof.
  intros [Hfin Hup] Hj1 Hj.
  destruct j as [|j]; [lia|].
  destruct (lookup_lt_is_Some_2 close (S j) Hj) as [b Hb].
  destruct (lookup_lt_is_Some_2 close j ltac:(lia)) as [a Ha].
  pose proof (Hup j a b Ha Hb) as Hlt.
  pose proof (proj1 (Forall_lookup _ _) Hfin _ _ Ha) as Hfa.
  pose proof (proj1 (Forall_lookup _ _) Hfin _ _ Hb) as Hfb.
  destruct a as [a| | |], b as [b| | |]; try done.
  exists (b + - a)%Qc. split.
  - unfold diff, ssub. rewrite lookup_zip_with, Hb.
    by rewrite (lookup_shift_S close j (Fin a)) by done.
  - cbn [flt] in Hlt. apply Qc_ltb_spec in Hlt. qc2q. lra.
Qed.

Lemma rising_gain (close : Series) (j : nat) :
  rising close → 1 ≤ j → j < length close →
  ∃ g, where_ (map (λ d, fgt d (fz 0)) (diff close)) (diff close) (fz 0) !! j
       = Some g ∧ pos_cell g.
Proof.
  intros Hr Hj1 Hj. destruct (rising_diff close j Hr Hj1 Hj) as (d & Hd & Hpos).
  exists (Fin d). split; [|done].
  rewrite where_map, lookup_map, Hd. cbn [fmap option_fmap option_map].
  unfold fgt. cbn [flt fz]. rewrite Qc_ltb_true; [done|].
  by rewrite Z2Qc_inj_0.
Qed.

Lemma rising_loss (close : Series) (j : nat) :
  rising close → 1 ≤ j → j < length close →
  sneg (where_ (map (λ d, flt d (fz 0)) (diff close)) (diff close) (fz 0)) !! j
  = Some (Fin 0%Qc).
Proof.
  intros Hr Hj1 Hj. destruct (rising_diff close j Hr Hj1 Hj) as (d & Hd & Hpos).
  unfold sneg. rewrite where_map, !lookup_map, Hd.
  cbn [fmap option_fmap option_map flt fz].
  rewrite Qc_ltb_false by (rewrite Z2Qc_inj_0; by apply Qclt_le_weak).
  rewrite fz0. cbn [fneg]. by rewrite Qcopp_0.
Qed.

Lemma rsi_of_rs_PInf : rsi_of_rs PInf = fz 100.
Proof.
  unfold rsi_of_rs, c100, fsub, fz. cbn [fadd fdiv fneg]. f_equal.
  rewrite Qcopp_0. ring.
Qed.

(** X13 (RSI on rising prices).  When the close is a series of real
    numbers that rises on every row, the RSI of any period of at least 1 is
    exactly 100 on every row from row [period] on: the average loss of the
    window is 0 and the average gain is positive.  It is NaN on the rows
    where the window is not full.  The generator script computes the same
    column. *)
Theorem rsi_rising_is_100 (period i : nat) (close : Series) :
  1 ≤ period →
  rising close →
  i < length close →
  (period ≤ i → rsi period close !! i = Some (fz 100))
  ∧ (S i < period → rsi period close !! i = Some NaN)
  ∧ Generator.calculate_rsi close period = rsi period close.
Proof.
  intros Hp Hr Hi.
  set (gains := where_ (map (λ d, fgt d (fz 0)) (diff close)) (diff close)
                       (fz 0)).
  set (losses := sneg (where_ (map (λ d, flt d (fz 0)) (diff close))
                              (diff close) (fz 0))).
  assert (length gains = length close) as Hlg.
  { subst gains. by rewrite where_map, length_map, length_diff. }
  assert (length losses = length close) as Hll.
  { subst losses. unfold sneg.
    by rewrite where_map, !length_map, length_diff. }
  assert (rsi period close !! i
          = match rolling_mean period gains !! i,
                  rolling_mean period losses !! i with
            | Some g, Some l => Some (rsi_of_rs (fdiv g l))
            | _, _ => None
            end) as Hcell.
  { unfold rsi, rsi_gain, rsi_loss, sdiv. fold gains. fold losses.
    rewrite lookup_map, lookup_zip_with.
    destruct (rolling_mean period gains !! i),
             (rolling_mean period losses !! i); done. }
  rewrite Hcell. unfold rolling_mean.
  rewrite !lookup_rolling_apply by lia. unfold window_at.
  split; [|split; [|done]].
  - intros Hpi. rewrite !decide_True by lia.
    assert (Forall pos_cell (take period (drop (S i - period) gains))) as Hg.
    { apply Forall_window. intros j x Hj Hx.
      assert (j < length close) as Hjl
        by (rewrite <- Hlg; by apply lookup_lt_Some in Hx).
      destruct (rising_gain close j Hr ltac:(lia) Hjl) as (g & Hg & Hpos).
      subst gains. congruence. }
    assert (Forall (λ v, v = Fin 0%Qc)
                   (take period (drop (S i - period) losses))) as Hl.
    { apply Forall_window. intros j x Hj Hx.
      assert (j < length close) as Hjl
        by (rewrite <- Hll; by apply lookup_lt_Some in Hx).
      pose proof (rising_loss close j Hr ltac:(lia) Hjl) as Hz.
      subst losses. congruence. }
    assert (take period (drop (S i - period) gains) ≠ []) as Hgne.
    { intros H%(f_equal length).
      rewrite length_take, length_drop in H. simpl in H. lia. }
    assert (take period (drop (S i - period) losses) ≠ []) as Hlne.
    { intros H%(f_equal length).
      rewrite length_take, length_drop in H. simpl in H. lia. }
    rewrite !forallb_isfinite_finite.
    + rewrite (fmean_zero _ Hl Hlne).
      pose proof (fmean_pos _ Hg Hgne) as Hpos.
      destruct (fmean _) as [g| | |]; try done.
      cbn [fdiv]. unfold Qc_eqb.
      rewrite bool_decide_eq_true_2 by done.
      rewrite bool_decide_eq_false_2 by (by apply Qc_pos_ne0).
      rewrite Qc_ltb_true by done. by rewrite rsi_of_rs_PInf.
    + eapply Forall_impl; [exact Hl|]. by intros v ->.
    + eapply Forall_impl; [exact Hg|]. by intros [q| | |].
  - intros Hpi. by rewrite !decide_False by lia.
Qed.

End Rising.

Lemma rising_example : rising [fz 10; fz 11; fz 12; fz 13].
Proof.
  split; [repeat constructor|].
  intros j a b Ha Hb.
  do 4 (destruct j as [|j];
        [injection Ha as <-; first [injection Hb as <-; by vm_compute|done]|]).
  done.
Defined.

Lemma rsi_rising_is_100_witness :
  1 ≤ 2 ∧ rising [fz 10; fz 11; fz 12; fz 13]
  ∧ 2 < length [fz 10; fz 11; fz 12; fz 13]
  ∧ rsi 2 [fz 10; fz 11; fz 12; fz 13] !! 2 = Some (fz 100).
Proof.
  assert (1 ≤ 2) as H1 by lia.
  assert (2 < length [fz 10; fz 11; fz 12; fz 13]) as H3 by (simpl; lia).
  split; [exact H1|]. split; [exact rising_example|]. split; [exact H3|].
  apply (rsi_rising_is_100 2 2 _ H1 rising_example H3). lia.
Defined.

Lemma pivot_uses_previous_bar_witness :
  length [fz 3; fz 3] = 2 ∧ length [fz 0; fz 1] = 2 ∧ length [fz 3; fz 2] = 2
  ∧ 1 < 2
  ∧ [fz 3; fz 3] !! 0 = Some (fz 3) ∧ [fz 0; fz 1] !! 0 = Some (fz 0)
  ∧ [fz 3; fz 2] !! 0 = Some (fz 3)
  ∧ pivot [fz 3; fz 3] [fz 0; fz 1] [fz 3; fz 2] !! 1
    = Some (fdiv (fadd (fadd (fz 3) (fz 0)) (fz 3)) (fz 3)).
Proof.
  assert (1 < 2) as Hi by lia.
  repeat (split; [first [reflexivity|exact Hi]|]).
  apply (pivot_uses_previous_bar 2 0 [fz 3; fz 3] [fz 0; fz 1] [fz 3; fz 2]
           (fz 3) (fz 0) (fz 3) eq_refl eq_refl eq_refl Hi eq_refl eq_refl
           eq_refl).
Defined.

Lemma roc_looks_back_witness :
  2 < length [fz 10; fz 11; fz 12; fz 13]
  ∧ roc 2 [fz 10; fz 11; fz 12; fz 13] !! 2
    = Some (fmul (fz 100) (fdiv (fsub (fz 12) (fz 10)) (fz 10)))
  ∧ mom 2 [fz 10; fz 11; fz 12; fz 13] !! 2 = Some (fsub (fz 12) (fz 10)).
Proof.
  assert (2 < length [fz 10; fz 11; fz 12; fz 13]) as Hi by (simpl; lia).
  split; [exact Hi|].
  apply (roc_looks_back 2 2 [fz 10; fz 11; fz 12; fz 13] Hi);
    [lia|reflexivity..].
Defined.

Lemma sma_is_window_mean_witness :
  2 < length [fz 10; fz 11; fz 12; fz 13]
  ∧ rolling_mean 2 [fz 10; fz 11; fz 12; fz 13] !! 2
    = Some (Fin (Qsum [Qc_of_Z 11; Qc_of_Z 12] / Qc_of_Z (Z.of_nat 2))%Qc).
Proof.
  assert (2 < length [fz 10; fz 11; fz 12; fz 13]) as Hi by (simpl; lia).
  split; [exact Hi|].
  apply (sma_is_window_mean 2 2 [fz 10; fz 11; fz 12; fz 13] Hi);
    [lia..|reflexivity].
Defined.

(** * Ranges of the volatility and volume indicators *)

Section Ranges.

Lemma Forall_zip_with_2 {A B C} (P : A → Prop) (Q : B → Prop) (R : C → Prop)
    (f : A → B → C) (a : list A) (b : list B) :
  (∀ x y, P x → Q y → R (f x y)) →
  Forall P a → Forall Q b → Forall R (zip_with f a b).
Proof.
  intros Hf Ha. revert b.
  induction Ha as [|x a Hx Ha IH]; intros b Hb; [constructor|].
  destruct Hb as [|y b Hy Hb]; [constructor|].
  simpl. constructor; [by apply Hf|by apply IH].
Qed.

Lemma fabs_nonneg (x : fval) : nonneg (fabs x).
Proof.
  destruct x as [q| | |]; cbn [fabs]; try done.
  destruct (Qc_ltb q 0) eqn:E; cbn [nonneg].
  - apply Qc_ltb_spec in E. by apply Qcopp_nonneg, Qclt_le_weak.
  - destruct (Qclt_le_dec q 0) as [H|H]; [|done].
    apply Qc_ltb_true in H. congruence.
Qed.

Lemma fmax_skipna_nonneg0 (a b : fval) :
  nonneg0 a → nonneg b → nonneg0 (fmax_skipna a b).
Proof.
  intros Ha Hb. unfold fmax_skipna.
  destruct a as [qa| | |]; try done; destruct b as [qb| | |]; try done;
    cbn [isnan flt]; by destruct (Qc_ltb qa qb).
Qed.

Lemma ordered_range (high low : Series) :
  Forall2 ordered low high → Forall nonneg0 (ssub high low).
Proof.
  induction 1 as [|l h low high Hlh _ IH]; [constructor|].
  unfold ssub in *. cbn [zip_with]. constructor; [|exact IH].
  destruct l as [a| | |], h as [b| | |]; try done.
  cbn [fsub fneg fadd nonneg0]. cbn [ordered] in Hlh. qc2q. lra.
Qed.

Lemma true_range_nonneg0 (high low close : Series) :
  Forall2 ordered low high → Forall nonneg0 (true_range high low close).
Proof.
  intros Hlh. unfold true_range, row_max3.
  apply (Forall_zip_with_2 nonneg0 nonneg nonneg0);
    [apply fmax_skipna_nonneg0| |].
  - apply (Forall_zip_with_2 nonneg0 nonneg nonneg0);
      [apply fmax_skipna_nonneg0|by apply ordered_range|].
    unfold sabs. apply Forall_fmap, Forall_true, fabs_nonneg.
  - unfold sabs. apply Forall_fmap, Forall_true, fabs_nonneg.
Qed.

Lemma atr_nonneg (period : nat) (high low close : Series) :
  Forall2 ordered low high → Forall nonneg (atr period high low close).
Proof.
  intros Hlh. unfold atr, rolling_mean.
  apply (rolling_apply_Forall nonneg0 nonneg); [apply fmean_nonneg|done|].
  by apply true_range_nonneg0.
Qed.

(** X14 (true range and ATR are never negative).  When every bar has real
    [low <= high], every cell of the true range is a non-negative real (or
    [+inf]) whatever the closes are, the first row included, where the
    missing previous close is skipped; every cell of the ATR of any period
    of at least 1 is NaN or non-negative.  The generator script computes the same ATR. *)
Theorem true_range_never_negative (period : nat) (high low close : Series) :
  1 ≤ period →
  Forall2 ordered low high →
  Forall nonneg0 (true_range high low close)
  ∧ Forall nonneg (atr period high low close)
  ∧ Generator.calculate_atr high low close period
    = atr period high low close.
Proof.
  intros _ Hlh. split; [by apply true_range_nonneg0|].
  split; [by apply atr_nonneg|done].
Qed.

Lemma Qc_of_Z_2_pos : (0 < Qc_of_Z 2)%Qc.
Proof. apply Qc_of_Z_pos. lia. Qed.

(** X16 (MFI stays between 0 and 100).  When highs, lows, closes and
    volumes are non-negative real numbers, every cell of the money flow
    index is NaN or a real number between 0 and 100.  The generator script
    computes the same column. *)
Theorem mfi_within_0_100 (high low close volume : Series) :
  Forall nonneg_fin high → Forall nonneg_fin low →
  Forall nonneg_fin close → Forall nonneg_fin volume →
  Forall in_0_100 (mfi high low close volume)
  ∧ Generator.calculate_mfi high low close volume 14
    = mfi high low close volume.
Proof.
  intros Hh Hl Hc Hv. split; [|done].
  assert (∀ x y, nonneg_fin x → nonneg_fin y → nonneg_fin (fadd x y)) as Hadd.
  { intros [x| | |] [y| | |]; try done. cbn. intros. qc2q. lra. }
  assert (∀ x y, nonneg_fin x → nonneg_fin y → nonneg_fin (fmul x y)) as Hmul.
  { intros [x| | |] [y| | |]; try done. cbn. intros. qc2q. nra. }
  assert (Forall nonneg_fin (typical_price high low close)) as Htp.
  { unfold typical_price, sdivc, sadd. apply Forall_fmap.
    eapply Forall_impl;
      [apply (Forall_zip_with_2 nonneg_fin nonneg_fin nonneg_fin fadd);
       [exact Hadd| |exact Hc];
       apply (Forall_zip_with_2 nonneg_fin nonneg_fin nonneg_fin fadd);
       [exact Hadd|exact Hh|exact Hl]|].
    intros [x| | |]; try done. cbn [nonneg_fin]. intros Hx.
    unfold compose, fz. cbn [fdiv]. unfold Qc_eqb.
    rewrite bool_decide_eq_false_2
      by (apply Qc_pos_ne0, Qc_of_Z_pos; lia).
    cbn [nonneg_fin]. apply Qcdiv_nonneg; [done|]. apply Qc_of_Z_pos. lia. }
  assert (Forall nonneg_fin (smul (typical_price high low close) volume))
    as Hmf.
  { by apply (Forall_zip_with_2 nonneg_fin nonneg_fin nonneg_fin fmul). }
  assert (∀ cond, Forall nonneg0
            (where_ cond (smul (typical_price high low close) volume) (fz 0)))
    as Hw.
  { intros cond. unfold where_. revert cond.
    induction Hmf as [|x mf Hx Hmf IH]; intros [|b cond]; try constructor.
    - destruct b; [by destruct x|]. cbn. apply Qc_of_Z_nonneg. lia.
    - apply IH. }
  unfold mfi. apply Forall_fmap.
  eapply Forall_impl; [|intros rs Hrs; apply rsi_of_rs_bounds, Hrs].
  apply sdiv_nonneg; unfold rolling_sum;
    (apply (rolling_apply_Forall nonneg0 nonneg);
     [intros win Hwin; by apply nonneg0_nonneg, fsum_nonneg0|done|apply Hw]).
Qed.

End Ranges.

Lemma ordered_example : Forall2 ordered [fz 0; fz 1] [fz 3; fz 3].
Proof. repeat constructor; by vm_compute. Defined.

Lemma true_range_never_negative_witness :
  1 ≤ 2 ∧ Forall2 ordered [fz 0; fz 1] [fz 3; fz 3]
  ∧ Forall nonneg0 (true_range [fz 3; fz 3] [fz 0; fz 1] [fz 3; fz 2])
  ∧ Forall nonneg (atr 2 [fz 3; fz 3] [fz 0; fz 1] [fz 3; fz 2]).
Proof.
  assert (1 ≤ 2) as Hp by lia.
  split; [exact Hp|]. split; [exact ordered_example|].
  destruct (true_range_never_negative 2 [fz 3; fz 3] [fz 0; fz 1]
              [fz 3; fz 2] Hp ordered_example) as (H1 & H2 & _).
  split; [exact H1|exact H2].
Defined.

Lemma mfi_within_0_100_witness :
  Forall nonneg_fin [fz 3; fz 3] ∧ Forall nonneg_fin [fz 0; fz 1]
  ∧ Forall nonneg_fin [fz 3; fz 2] ∧ Forall nonneg_fin [fz 10; fz 20]
  ∧ Forall in_0_100 (mfi [fz 3; fz 3] [fz 0; fz 1] [fz 3; fz 2]
                         [fz 10; fz 20]).
Proof.
  assert (Forall nonneg_fin [fz 3; fz 3]) as H1
    by (repeat constructor; by vm_compute).
  assert (Forall nonneg_fin [fz 0; fz 1]) as H2
    by (repeat constructor; by vm_compute).
  assert (Forall nonneg_fin [fz 3; fz 2]) as H3
    by (repeat constructor; by vm_compute).
  assert (Forall nonneg_fin [fz 10; fz 20]) as H4
    by (repeat constructor; by vm_compute).
  split; [exact H1|]. split; [exact H2|]. split; [exact H3|].
  split; [exact H4|].
  exact (proj1 (mfi_within_0_100 _ _ _ _ H1 H2 H3 H4)).
Defined.

(** * Rolling extremes: Aroon, the stochastic oscillator, Williams %R and the
      Donchian channel *)

(** as [qc2q], with division by a literal *)
Ltac qc2q_div :=
  unfold Qcdiv, Qcinv, Qc_of_Z in *; qc2q; unfold inject_Z in *;
  cbn [Qinv Qnum Qden] in *.

Section Extremes.

Lemma ratio_bounds (N D : Qc) :
  (0 ≤ N)%Qc → (N ≤ D)%Qc → (0 < D)%Qc → (0 ≤ N / D)%Qc ∧ (N / D ≤ 1)%Qc.
Proof.
  intros HN HND HD. split; [by apply Qcdiv_nonneg|].
  apply (Qcmult_lt_0_le_reg_r _ _ D HD).
  rewrite Qcdiv_mult_cancel by (by apply Qc_pos_ne0).
  by rewrite Qcmult_1_l.
Qed.

Lemma scale100_bounds (x : Qc) :
  (0 ≤ x)%Qc → (x ≤ 1)%Qc →
  (0 ≤ Qc_of_Z 100 * x)%Qc ∧ (Qc_of_Z 100 * x ≤ Qc_of_Z 100)%Qc.
Proof. intros. qc2q_div. split; lra. Qed.

Lemma scale_m100_bounds (x : Qc) :
  (0 ≤ x)%Qc → (x ≤ 1)%Qc →
  (Qc_of_Z (-100) ≤ Qc_of_Z (-100) * x)%Qc ∧ (Qc_of_Z (-100) * x ≤ 0)%Qc.
Proof. intros. qc2q_div. split; lra. Qed.

Lemma argbest_bound better best bi i (win : list fval) :
  bi < i → argbest better best bi i win < i + length win.
Proof.
  revert best bi i. induction win as [|y r IH]; intros best bi i Hbi.
  - simpl. lia.
  - cbn [argbest length]. destruct (better y best).
    + pose proof (IH y i (S i) ltac:(lia)). lia.
    + pose proof (IH best bi (S i) ltac:(lia)). lia.
Qed.

Lemma length_window w (s : Series) i :
  w ≤ S i → i < length s → length (take w (drop (S i - w) s)) = w.
Proof. intros Hw Hi. rewrite length_take, length_drop. lia. Qed.

(** a cell of a rolling arg-extremum over 26 rows is NaN or a position
    between 0 and 25 *)
Lemma rolling_arg_cells (arg : list fval → fval) (s : Series) :
  (∀ x r, ∃ k, arg (x :: r) = fz (Z.of_nat k) ∧ k ≤ length r) →
  Forall (λ v, v = NaN ∨ ∃ k, v = fz (Z.of_nat k) ∧ k ≤ 25)
         (rolling_apply 26 arg s).
Proof.
  intros Harg. apply Forall_lookup. intros i v Hv.
  assert (i < length s) as Hi.
  { apply lookup_lt_Some in Hv. by rewrite length_rolling_apply in Hv. }
  rewrite lookup_rolling_apply in Hv by done. injection Hv as <-.
  unfold window_at. case_decide as Hw; [|by left].
  destruct (forallb isfinite _); [|by left].
  pose proof (length_window 26 s i Hw Hi) as Hlen.
  destruct (take 26 (drop (S i - 26) s)) as [|x r]; [done|].
  destruct (Harg x r) as (k & -> & Hk). right. exists k. split; [done|].
  simpl in Hlen. lia.
Qed.

Lemma aroon_cell_bounds (v : fval) :
  (v = NaN ∨ ∃ k, v = fz (Z.of_nat k) ∧ k ≤ 25) →
  in_0_100 (fmul c100 (fdiv v (fz 25))).
Proof.
  intros [->|(k & -> & Hk)]; [done|].
  unfold c100, fz. cbn [fdiv]. unfold Qc_eqb.
  rewrite bool_decide_eq_false_2 by (apply Qc_pos_ne0, Qc_of_Z_pos; lia).
  cbn [fmul in_0_100].
  apply scale100_bounds; apply ratio_bounds.
  - apply Qc_of_Z_nonneg. lia.
  - apply (proj1 (Z2Qc_inj_le _ _)). lia.
  - apply Qc_of_Z_pos. lia.
  - apply Qc_of_Z_nonneg. lia.
  - apply (proj1 (Z2Qc_inj_le _ _)). lia.
  - apply Qc_of_Z_pos. lia.
Qed.

Lemma aroon_up_bounds (high : Series) : Forall in_0_100 (aroon_up high).
Proof.
  unfold aroon_up, scale, sdivc. rewrite map_map. apply Forall_fmap.
  eapply Forall_impl; [apply (rolling_arg_cells argmax)|].
  - intros x r. exists (argbest fgt x 0 1 r). split; [done|].
    pose proof (argbest_bound fgt x 0 1 r ltac:(lia)). lia.
  - intros v Hv. by apply aroon_cell_bounds.
Qed.

Lemma aroon_down_bounds (low : Series) : Forall in_0_100 (aroon_down low).
Proof.
  unfold aroon_down, scale, sdivc. rewrite map_map. apply Forall_fmap.
  eapply Forall_impl; [apply (rolling_arg_cells argmin)|].
  - intros x r. exists (argbest flt x 0 1 r). split; [done|].
    pose proof (argbest_bound flt x 0 1 r ltac:(lia)). lia.
  - intros v Hv. by apply aroon_cell_bounds.
Qed.

(** X17 (Aroon stays in range).  Whatever the highs and lows, every cell
    of Aroon up and of Aroon down is NaN or a real number between 0 and
    100, and every cell of the Aroon oscillator is NaN or a real number
    between -100 and 100: the position of the extremum in a window of 26
    rows is between 0 and 25. *)
Theorem aroon_within_bounds (high low : Series) :
  Forall in_0_100 (aroon_up high)
  ∧ Forall in_0_100 (aroon_down low)
  ∧ Forall (within_or_nan (Qc_of_Z (-100)) (Qc_of_Z 100))
           (aroon_osc high low).
Proof.
  split; [apply aroon_up_bounds|]. split; [apply aroon_down_bounds|].
  unfold aroon_osc, ssub.
  apply (Forall_zip_with_2 in_0_100 in_0_100 _ fsub);
    [|apply aroon_up_bounds|apply aroon_down_bounds].
  intros [a| | |] [b| | |]; try done.
  cbn [in_0_100 fsub fneg fadd within_or_nan]. intros [Ha0 Ha1] [Hb0 Hb1].
  qc2q_div. split; lra.
Qed.

Lemma foldl_max_Fin (acc : Qc) (qs : list Qc) :
  ∃ m, foldl (λ m y, if flt m y then y else m) (Fin acc) (map Fin qs) = Fin m
       ∧ (acc ≤ m)%Qc ∧ Forall (λ q, q ≤ m)%Qc qs.
Proof.
  revert acc. induction qs as [|q qs IH]; intros acc.
  - exists acc. split; [done|]. split; [apply Qcle_refl|constructor].
  - cbn [map foldl flt]. destruct (Qc_ltb acc q) eqn:E.
    + destruct (IH q) as (m & Hm & Hqm & Hall). exists m.
      split; [done|]. apply Qc_ltb_spec in E.
      split; [|by constructor].
      apply Qcle_trans with q; [by apply Qclt_le_weak|done].
    + destruct (IH acc) as (m & Hm & Ham & Hall). exists m.
      split; [done|]. split; [done|]. constructor; [|done].
      apply Qcle_trans with acc; [|done].
      destruct (Qclt_le_dec acc q) as [H|H]; [|done].
      apply Qc_ltb_true in H. congruence.
Qed.

Lemma foldl_min_Fin (acc : Qc) (qs : list Qc) :
  ∃ m, foldl (λ m y, if flt y m then y else m) (Fin acc) (map Fin qs) = Fin m
       ∧ (m ≤ acc)%Qc ∧ Forall (λ q, m ≤ q)%Qc qs.
Proof.
  revert acc. induction qs as [|q qs IH]; intros acc.
  - exists acc. split; [done|]. split; [apply Qcle_refl|constructor].
  - cbn [map foldl flt]. destruct (Qc_ltb q acc) eqn:E.
    + destruct (IH q) as (m & Hm & Hqm & Hall). exists m.
      split; [done|]. apply Qc_ltb_spec in E.
      split; [|by constructor].
      apply Qcle_trans with q; [done|by apply Qclt_le_weak].
    + destruct (IH acc) as (m & Hm & Ham & Hall). exists m.
      split; [done|]. split; [done|]. constructor; [|done].
      apply Qcle_trans with acc; [done|].
      destruct (Qclt_le_dec q acc) as [H|H]; [|done].
      apply Qc_ltb_true in H. congruence.
Qed.

Lemma fmaxl_Fin (qs : list Qc) :
  qs ≠ [] → ∃ m, fmaxl (map Fin qs) = Fin m ∧ Forall (λ q, q ≤ m)%Qc qs.
Proof.
  destruct qs as [|q qs]; [done|]. intros _.
  destruct (foldl_max_Fin q qs) as (m & Hm & Hq & Hall).
  exists m. split; [exact Hm|by constructor].
Qed.

Lemma fminl_Fin (qs : list Qc) :
  qs ≠ [] → ∃ m, fminl (map Fin qs) = Fin m ∧ Forall (λ q, m ≤ q)%Qc qs.
Proof.
  destruct qs as [|q qs]; [done|]. intros _.
  destruct (foldl_min_Fin q qs) as (m & Hm & Hq & Hall).
  exists m. split; [exact Hm|by constructor].
Qed.

(** the window that ends at row [i] holds the cell of row [i] *)
Lemma window_holds_current w (s : Series) i x :
  1 ≤ w → w ≤ S i → s !! i = Some x → x ∈ take w (drop (S i - w) s).
Proof.
  intros Hw1 Hw Hx. apply list_elem_of_lookup. exists (w - 1).
  rewrite lookup_take_lt by lia. rewrite lookup_drop.
  by replace (S i - w + (w - 1)) with i by lia.
Qed.

(** a cell of a rolling extremum of a series of real numbers is NaN or a
    real number that bounds the cell of the same row *)
Lemma rolling_extremum_cell (f : list fval → fval) (R : Qc → Qc → Prop)
    w (s : Series) i (x : Qc) (v : fval) :
  (∀ qs, qs ≠ [] → ∃ m, f (map Fin qs) = Fin m ∧ Forall (λ q, R q m) qs) →
  f [] = NaN →
  Forall is_finite s → s !! i = Some (Fin x) →
  rolling_apply w f s !! i = Some v →
  v = NaN ∨ ∃ m, v = Fin m ∧ R x m.
Proof.
  intros Hf Hnil Hfin Hx Hv.
  assert (i < length s) as Hi by (by apply lookup_lt_Some in Hx).
  rewrite lookup_rolling_apply in Hv by done. injection Hv as <-.
  unfold window_at. case_decide as Hw; [|by left].
  destruct (forallb isfinite _); [|by left].
  destruct (decide (w = 0)) as [->|Hw0]; [left; by rewrite take_0|].
  pose proof (window_holds_current w s i (Fin x) ltac:(lia) Hw Hx) as Hin.
  destruct (finite_map_Fin (take w (drop (S i - w) s))) as [qs Hqs].
  { by apply Forall_take, Forall_drop. }
  rewrite Hqs in Hin |- *.
  change (map Fin qs) with (Fin <$> qs) in Hin.
  apply list_elem_of_fmap in Hin as (q & [= <-] & Hq).
  destruct (Hf qs) as (m & -> & Hall); [by destruct qs; [inversion Hq|]|].
  right. exists m. split; [done|].
  by apply (proj1 (Forall_forall _ _) Hall).
Qed.

Lemma rolling_max_cell w (s : Series) i (x : Qc) (v : fval) :
  Forall is_finite s → s !! i = Some (Fin x) →
  rolling_max w s !! i = Some v →
  v = NaN ∨ ∃ m, v = Fin m ∧ (x ≤ m)%Qc.
Proof.
  apply (rolling_extremum_cell fmaxl (λ q m, q ≤ m)%Qc); [|done].
  apply fmaxl_Fin.
Qed.

Lemma rolling_min_cell w (s : Series) i (x : Qc) (v : fval) :
  Forall is_finite s → s !! i = Some (Fin x) →
  rolling_min w s !! i = Some v →
  v = NaN ∨ ∃ m, v = Fin m ∧ (m ≤ x)%Qc.
Proof.
  apply (rolling_extremum_cell fminl (λ q m, m ≤ q)%Qc); [|done].
  apply fminl_Fin.
Qed.

Lemma valid_bars_finite (high low close : Series) :
  valid_bars high low close →
  Forall is_finite high ∧ Forall is_finite low ∧ Forall is_finite close.
Proof.
  induction 1 as [|h l c high low close Hb _ (IH1 & IH2 & IH3)];
    [by repeat split|].
  destruct h, l, c; try done. by repeat split; constructor.
Qed.

(** the ratio cell of the stochastic oscillator and of Williams %R *)
Lemma range_ratio_cell (num lo hi ml mh : Qc) :
  (ml ≤ lo)%Qc → (hi ≤ mh)%Qc → (0 ≤ num)%Qc → (num ≤ mh - ml)%Qc →
  within_or_nan 0 1 (fdiv (Fin num) (Fin (mh - ml)%Qc)).
Proof.
  intros Hl Hh Hn0 Hn1. cbn [fdiv]. unfold Qc_eqb.
  case_bool_decide as HD.
  - rewrite HD in Hn1.
    assert (num = 0%Qc) as -> by (by apply Qcle_antisym).
    by rewrite bool_decide_eq_true_2.
  - cbn [within_or_nan]. apply ratio_bounds; [done..|].
    apply Qc_nonneg_ne0_pos; [|done]. by apply Qcle_trans with num.
Qed.

(** X18 (stochastic %K and Williams %R stay in range).  When every bar
    consists of real numbers with [low <= close <= high], every cell of
    the stochastic %K of any period of at least 1 is NaN or a real number
    between 0 and 100, and every cell of Williams %R is NaN or a real number between
    -100 and 0: the close lies between the lowest low and the highest high
    of its own window. *)
Theorem stochastic_within_bounds (period : nat) (high low close : Series) :
  1 ≤ period →
  valid_bars high low close →
  Forall in_0_100 (stoch_k period high low close)
  ∧ Forall (within_or_nan (Qc_of_Z (-100)) 0) (willr period high low close).
Proof.
  intros _ Hbars.
  destruct (valid_bars_finite _ _ _ Hbars) as (Hfh & Hfl & Hfc).
  assert (∀ i c hh ll,
            close !! i = Some c → rolling_max period high !! i = Some hh →
            rolling_min period low !! i = Some ll →
            (hh = NaN ∨ ll = NaN)
            ∨ ∃ qc ml mh, c = Fin qc ∧ ll = Fin ml ∧ hh = Fin mh
                          ∧ (ml ≤ qc)%Qc ∧ (qc ≤ mh)%Qc) as Hcell.
  { intros i c hh ll Hc Hhh Hll.
    assert (i < length high) as Hih.
    { apply lookup_lt_Some in Hhh. by rewrite length_rolling_max in Hhh. }
    assert (i < length low) as Hil.
    { apply lookup_lt_Some in Hll. by rewrite length_rolling_min in Hll. }
    destruct (lookup_lt_is_Some_2 high i Hih) as [h Hh].
    destruct (lookup_lt_is_Some_2 low i Hil) as [l Hl].
    pose proof (Forall3_lookup_lmr _ _ _ _ _ _ _ _ Hbars Hh Hl Hc) as Hok.
    destruct h as [qh| | |], l as [ql| | |], c as [qc| | |]; try done.
    destruct Hok as [Hlc Hch].
    destruct (rolling_max_cell period high i qh hh Hfh Hh Hhh)
      as [->|(mh & -> & Hmh)]; [by left; left|].
    destruct (rolling_min_cell period low i ql ll Hfl Hl Hll)
      as [->|(ml & -> & Hml)]; [by left; right|].
    right. exists qc, ml, mh. repeat split; try done.
    - by apply Qcle_trans with ql.
    - by apply Qcle_trans with qh. }
  split.
  - apply Forall_lookup. intros i v Hv.
    unfold stoch_k, scale, sdiv, ssub in Hv.
    rewrite lookup_map, !lookup_zip_with in Hv.
    destruct (close !! i) as [c|] eqn:Hc; [|done].
    destruct (rolling_min period low !! i) as [ll|] eqn:Hll; [|done].
    destruct (rolling_max period high !! i) as [hh|] eqn:Hhh; [|done].
    cbn [mbind option_bind fmap option_fmap option_map] in Hv.
    injection Hv as <-.
    destruct (Hcell i c hh ll Hc Hhh Hll)
      as [[-> | ->]|(qc & ml & mh & -> & -> & -> & H1 & H2)].
    + by destruct c, ll.
    + by destruct c, hh.
    + cbn [fsub fneg fadd].
      pose proof (range_ratio_cell (qc + - ml) ml mh ml mh) as Hr.
      change (mh + - ml)%Qc with (mh - ml)%Qc.
      destruct (fdiv _ _) as [x| | |];
        try (by apply Hr; try apply Qcle_refl; qc2q; lra).
      cbn [c100 fz fmul in_0_100].
      apply scale100_bounds; apply Hr; try apply Qcle_refl; qc2q; lra.
  - apply Forall_lookup. intros i v Hv.
    unfold willr, scale, sdiv, ssub in Hv.
    rewrite lookup_map, !lookup_zip_with in Hv.
    destruct (rolling_max period high !! i) as [hh|] eqn:Hhh; [|done].
    destruct (close !! i) as [c|] eqn:Hc; [|done].
    destruct (rolling_min period low !! i) as [ll|] eqn:Hll; [|done].
    cbn [mbind option_bind fmap option_fmap option_map] in Hv.
    injection Hv as <-.
    destruct (Hcell i c hh ll Hc Hhh Hll)
      as [[-> | ->]|(qc & ml & mh & -> & -> & -> & H1 & H2)].
    + done.
    + by destruct c, hh.
    + cbn [fsub fneg fadd].
      pose proof (range_ratio_cell (mh + - qc) ml mh ml mh) as Hr.
      change (mh + - ml)%Qc with (mh - ml)%Qc.
      destruct (fdiv _ _) as [x| | |];
        try (by apply Hr; try apply Qcle_refl; qc2q; lra).
      cbn [fz fmul within_or_nan].
      apply scale_m100_bounds; apply Hr; try apply Qcle_refl; qc2q; lra.
Qed.

(** X19 (the Donchian channel contains the bar).  On series of real
    numbers, on every row where the Donchian columns are real numbers, the
    upper line is at least the high of the row and the lower line is at
    most its low; when moreover [low <= high] on the row, the middle line
    lies between the lower and the upper line.  The generator script
    computes the same three columns. *)
Theorem donchian_contains_bar (high low : Series) (i : nat) (h l u d : Qc) :
  Forall is_finite high → Forall is_finite low →
  high !! i = Some (Fin h) → low !! i = Some (Fin l) →
  dc_upper high !! i = Some (Fin u) →
  dc_lower low !! i = Some (Fin d) →
  (h ≤ u)%Qc ∧ (d ≤ l)%Qc
  ∧ ((l ≤ h)%Qc →
     ∃ m, dc_middle high low !! i = Some (Fin m)
          ∧ (d ≤ m)%Qc ∧ (m ≤ u)%Qc)
  ∧ Generator.calculate_donchian_channels high low 20
    = (dc_upper high, dc_lower low, dc_middle high low).
Proof.
  intros Hfh Hfl Hh Hl Hu Hd.
  destruct (rolling_max_cell 20 high i h (Fin u) Hfh Hh Hu)
    as [|(m & [= <-] & Hhu)]; [done|].
  destruct (rolling_min_cell 20 low i l (Fin d) Hfl Hl Hd)
    as [|(m & [= <-] & Hdl)]; [done|].
  split; [done|]. split; [done|]. split; [|done].
  intros Hlh. exists ((u + d) / Qc_of_Z 2)%Qc. split.
  - unfold dc_middle, sdivc, sadd.
    rewrite lookup_map, lookup_zip_with, Hu, Hd.
    cbn [mbind option_bind fmap option_fmap option_map fadd fz fdiv].
    unfold Qc_eqb.
    by rewrite bool_decide_eq_false_2
      by (apply Qc_pos_ne0, Qc_of_Z_pos; lia).
  - qc2q_div. split; lra.
Qed.

End Extremes.

Lemma valid_bars_example :
  valid_bars [fz 3; fz 3] [fz 0; fz 1] [fz 3; fz 2].
Proof. repeat constructor; by vm_compute. Defined.

Lemma stochastic_within_bounds_witness :
  1 ≤ 2 ∧ valid_bars [fz 3; fz 3] [fz 0; fz 1] [fz 3; fz 2]
  ∧ Forall in_0_100 (stoch_k 2 [fz 3; fz 3] [fz 0; fz 1] [fz 3; fz 2])
  ∧ Forall (within_or_nan (Qc_of_Z (-100)) (Qc_of_Z 0))
           (willr 2 [fz 3; fz 3] [fz 0; fz 1] [fz 3; fz 2]).
Proof.
  assert (1 ≤ 2) as Hp by lia.
  split; [exact Hp|]. split; [exact valid_bars_example|].
  exact (stochastic_within_bounds 2 _ _ _ Hp valid_bars_example).
Defined.

Lemma donchian_contains_bar_witness :
  Forall is_finite (replicate 20 (fz 2))
  ∧ Forall is_finite (replicate 20 (fz 1))
  ∧ replicate 20 (fz 2) !! 19 = Some (Fin (Qc_of_Z 2))
  ∧ replicate 20 (fz 1) !! 19 = Some (Fin (Qc_of_Z 1))
  ∧ dc_upper (replicate 20 (fz 2)) !! 19 = Some (Fin (Qc_of_Z 2))
  ∧ dc_lower (replicate 20 (fz 1)) !! 19 = Some (Fin (Qc_of_Z 1))
  ∧ (Qc_of_Z 2 ≤ Qc_of_Z 2)%Qc ∧ (Qc_of_Z 1 ≤ Qc_of_Z 1)%Qc.
Proof.
  assert (Forall is_finite (replicate 20 (fz 2))) as H1
    by (repeat constructor).
  assert (Forall is_finite (replicate 20 (fz 1))) as H2
    by (repeat constructor).
  assert (replicate 20 (fz 2) !! 19 = Some (Fin (Qc_of_Z 2))) as H3
    by reflexivity.
  assert (replicate 20 (fz 1) !! 19 = Some (Fin (Qc_of_Z 1))) as H4
    by reflexivity.
  assert (dc_upper (replicate 20 (fz 2)) !! 19 = Some (Fin (Qc_of_Z 2)))
    as H5 by compute_done.
  assert (dc_lower (replicate 20 (fz 1)) !! 19 = Some (Fin (Qc_of_Z 1)))
    as H6 by compute_done.
  split; [exact H1|]. split; [exact H2|]. split; [exact H3|].
  split; [exact H4|]. split; [exact H5|]. split; [exact H6|].
  destruct (donchian_contains_bar _ _ 19 _ _ _ _ H1 H2 H3 H4 H5 H6)
    as (Hu & Hd & _).
  split; [exact Hu|exact Hd].
Defined.

(** * The parabolic SAR loop *)

Section SAR.

Lemma py_min2_Fin (a b : Qc) :
  ∃ m, py_min2 (Fin a) (Fin b) = Fin m ∧ (m ≤ a)%Qc ∧ (m ≤ b)%Qc
       ∧ (m = a ∨ m = b).
Proof.
  unfold py_min2. cbn [flt]. destruct (Qc_ltb b a) eqn:E.
  - exists b. apply Qc_ltb_spec in E.
    repeat split; [by apply Qclt_le_weak|apply Qcle_refl|by right].
  - exists a. repeat split; [apply Qcle_refl| |by left].
    destruct (Qclt_le_dec b a) as [H|H]; [|done].
    apply Qc_ltb_true in H. congruence.
Qed.

Lemma py_max2_Fin (a b : Qc) :
  ∃ m, py_max2 (Fin a) (Fin b) = Fin m ∧ (a ≤ m)%Qc ∧ (b ≤ m)%Qc
       ∧ (m = a ∨ m = b).
Proof.
  unfold py_max2, fgt. cbn [flt]. destruct (Qc_ltb a b) eqn:E.
  - exists b. apply Qc_ltb_spec in E.
    repeat split; [by apply Qclt_le_weak|apply Qcle_refl|by right].
  - exists a. repeat split; [apply Qcle_refl| |by left].
    destruct (Qclt_le_dec a b) as [H|H]; [|done].
    apply Qc_ltb_true in H. congruence.
Qed.

Lemma af_step_ok (a : fval) :
  within (Q2Qc (2 # 100)) (Q2Qc (2 # 10)) a →
  within (Q2Qc (2 # 100)) (Q2Qc (2 # 10)) (py_min2 (fadd a af) max_af).
Proof.
  destruct a as [a| | |]; try done. intros [Ha0 Ha1].
  unfold af, max_af, fq. cbn [fadd].
  destruct (py_min2_Fin (a + Q2Qc (2 # 100)) (Q2Qc (2 # 10)))
    as (m & -> & Hm1 & Hm2 & [-> | ->]); cbn [within].
  - split; [|done]. qc2q. lra.
  - split; [|apply Qcle_refl]. qc2q. lra.
Qed.

Lemma af_ok_af : within (Q2Qc (2 # 100)) (Q2Qc (2 # 10)) af.
Proof. unfold af, fq. cbn [within]. split; qc2q; lra. Qed.

(** X20 (the acceleration factor of the parabolic SAR).  The acceleration
    factor starts at 0.02 and, whatever the bars are, every step of the
    SAR loop leaves it between 0.02 and 0.2: it is raised by 0.02 and
    capped at 0.2 when the trend makes a new extreme, and reset to 0.02
    when the trend reverses. *)
Theorem sar_acceleration_in_range (st : sar_state) (bar p1 p2 : fval * fval)
    (h0 l0 : fval) :
  af_ok (SarState true l0 h0 af)
  ∧ (af_ok st → af_ok (sar_step st bar p1 p2))
  ∧ (uptrend (sar_step st bar p1 p2) ≠ uptrend st →
     af_current (sar_step st bar p1 p2) = af).
Proof.
  unfold af_ok. cbn [af_current]. split; [apply af_ok_af|].
  destruct bar as [hi lo]. unfold sar_step.
  destruct (uptrend st) eqn:Hup.
  - destruct (fgt hi (ep st)); destruct (flt lo _); cbn [af_current uptrend];
      (split; [intros Hok; first [apply af_ok_af|by apply af_step_ok|done]
              |intros Hne; first [done|by destruct Hne]]).
  - destruct (flt lo (ep st)); destruct (fgt hi _); cbn [af_current uptrend];
      (split; [intros Hok; first [apply af_ok_af|by apply af_step_ok|done]
              |intros Hne; first [done|by destruct Hne]]).
Qed.

(** X21 (the SAR stays on its side of the price).  In a step of the SAR
    loop on real numbers: while the trend stays up, the new SAR is not
    above the low of the current bar nor above the lows of the two bars
    before it; while the trend stays down, it is not below the high of the
    current bar nor below the highs of the two bars before it; and when
    the trend reverses, the new SAR is the extreme point reached so far. *)
Theorem sar_stays_on_its_side (st : sar_state) (hi lo h1 l1 h2 l2 : Qc) :
  sar_finite st →
  let st' := sar_step st (Fin hi, Fin lo) (Fin h1, Fin l1) (Fin h2, Fin l2) in
  (uptrend st = true → uptrend st' = true →
     ∃ s, sar_last st' = Fin s ∧ (s ≤ lo)%Qc ∧ (s ≤ l1)%Qc ∧ (s ≤ l2)%Qc)
  ∧ (uptrend st = false → uptrend st' = false →
     ∃ s, sar_last st' = Fin s ∧ (hi ≤ s)%Qc ∧ (h1 ≤ s)%Qc ∧ (h2 ≤ s)%Qc)
  ∧ (uptrend st = true → uptrend st' = false →
     sar_last st' = py_max2 (ep st) (Fin hi) ∧ ep st' = Fin lo)
  ∧ (uptrend st = false → uptrend st' = true →
     sar_last st' = py_min2 (ep st) (Fin lo) ∧ ep st' = Fin hi).
Proof.
  intros (Hs & He & Ha). cbv zeta.
  destruct st as [up s e a]. cbn [sar_last ep af_current uptrend] in *.
  destruct s as [s| | |], e as [e| | |], a as [a| | |]; try done.
  unfold sar_step. cbn [uptrend sar_last ep af_current fst snd].
  destruct up.
  - unfold py_min3.
    change (fadd (Fin s) (fmul (Fin a) (fsub (Fin e) (Fin s))))
      with (Fin (s + a * (e + - s))%Qc).
    destruct (py_min2_Fin (s + a * (e + - s)) l1)
      as (m1 & -> & Hm1a & Hm1b & _).
    destruct (py_min2_Fin m1 l2) as (m & -> & Hma & Hmb & _).
    unfold py_max2.
    destruct (fgt (Fin hi) (Fin e)); destruct (flt (Fin lo) (Fin m)) eqn:El;
      cbn [uptrend sar_last ep];
      (split; [|split; [|split]]); try done; intros _ _; exists m;
      (split; [done|]);
      (split; [cbn [flt] in El; destruct (Qclt_le_dec lo m) as [H|H]; [|done];
               apply Qc_ltb_true in H; congruence|]);
      (split; [by apply Qcle_trans with m1|done]).
  - unfold py_max3.
    change (fsub (Fin s) (fmul (Fin a) (fsub (Fin s) (Fin e))))
      with (Fin (s + - (a * (s + - e)))%Qc).
    destruct (py_max2_Fin (s + - (a * (s + - e))) h1)
      as (m1 & -> & Hm1a & Hm1b & _).
    destruct (py_max2_Fin m1 h2) as (m & -> & Hma & Hmb & _).
    unfold py_min2.
    destruct (flt (Fin lo) (Fin e)); destruct (fgt (Fin hi) (Fin m)) eqn:El;
      cbn [uptrend sar_last ep];
      (split; [|split; [|split]]); try done; intros _ _; exists m;
      (split; [done|]);
      (split; [unfold fgt in El; cbn [flt] in El;
               destruct (Qclt_le_dec m hi) as [H|H]; [|done];
               apply Qc_ltb_true in H; congruence|]);
      (split; [by apply Qcle_trans with m1|done]).
Qed.

End SAR.

Lemma sar_stays_on_its_side_witness :
  sar_finite (SarState true (fz 0) (fz 3) af)
  ∧ ∃ s, sar_last (sar_step (SarState true (fz 0) (fz 3) af)
                            (fz 3, fz 1) (fz 3, fz 0) (fz 3, fz 0)) = Fin s
         ∧ (s ≤ Qc_of_Z 1)%Qc ∧ (s ≤ Qc_of_Z 0)%Qc.
Proof.
  assert (sar_finite (SarState true (fz 0) (fz 3) af)) as Hfin
    by (by repeat split).
  split; [exact Hfin|].
  destruct (sar_stays_on_its_side (SarState true (fz 0) (fz 3) af)
              (Qc_of_Z 3) (Qc_of_Z 1) (Qc_of_Z 3) (Qc_of_Z 0) (Qc_of_Z 3)
              (Qc_of_Z 0) Hfin) as (Hup & _).
  destruct (Hup eq_refl ltac:(by vm_compute)) as (s & Hs & H1 & H2 & _).
  exists s. split; [exact Hs|]. split; [exact H1|exact H2].
Defined.

(** * Rounding to two decimals *)

Section Rounding.

Variable qsqrt : Qc → Qc.

Lemma Qfloor_Qc_lt (y : Qc) : (y < Qc_of_Z (Qfloor y) + 1)%Qc.
Proof.
  rewrite <- Z2Qc_inj_1, <- Z2Qc_inj_add.
  unfold Qclt, Qc_of_Z. cbn [this]. apply Qlt_floor.
Qed.

(** [rint] is within one half of its argument *)
Lemma rint_half (y : Qc) :
  (Qc_of_Z (rint y) - Q2Qc (1 # 2) ≤ y)%Qc
  ∧ (y ≤ Qc_of_Z (rint y) + Q2Qc (1 # 2))%Qc.
Proof.
  pose proof (Qfloor_Qc_le y) as Hlo. pose proof (Qfloor_Qc_lt y) as Hhi.
  unfold rint. cbv zeta.
  assert (∀ z, Qc_of_Z (z + 1) = (Qc_of_Z z + 1)%Qc) as Hplus.
  { intros z. by rewrite Z2Qc_inj_add, Z2Qc_inj_1. }
  destruct (Qc_ltb (y - Qc_of_Z (Qfloor y)) (Q2Qc (1 # 2))) eqn:E1.
  { apply Qc_ltb_spec in E1. revert Hlo Hhi E1.
    generalize (Qc_of_Z (Qfloor y)). intros t Hlo Hhi E1.
    qc2q. split; lra. }
  assert (Q2Qc (1 # 2) ≤ y - Qc_of_Z (Qfloor y))%Qc as H1.
  { destruct (Qclt_le_dec (y - Qc_of_Z (Qfloor y)) (Q2Qc (1 # 2)))
      as [H|H]; [|done].
    apply Qc_ltb_true in H. congruence. }
  destruct (Qc_ltb (Q2Qc (1 # 2)) (y - Qc_of_Z (Qfloor y))) eqn:E2.
  { rewrite Hplus. revert Hlo Hhi H1.
    generalize (Qc_of_Z (Qfloor y)). intros t Hlo Hhi H1.
    qc2q. split; lra. }
  assert (y - Qc_of_Z (Qfloor y) ≤ Q2Qc (1 # 2))%Qc as H2.
  { destruct (Qclt_le_dec (Q2Qc (1 # 2)) (y - Qc_of_Z (Qfloor y)))
      as [H|H]; [|done].
    apply Qc_ltb_true in H. congruence. }
  destruct (Z.even (Qfloor y)); rewrite ?Hplus; revert Hlo Hhi H1 H2;
    generalize (Qc_of_Z (Qfloor y)); intros t Hlo Hhi H1 H2;
    qc2q; split; lra.
Qed.

Lemma round2_is_two_decimals (v : fval) : two_decimals (round2 v).
Proof. destruct v as [q| | |]; try done. cbn. by eexists. Qed.

Lemma round2_error (q : Qc) :
  ∃ r, round2 (Fin q) = Fin r
       ∧ (q - Q2Qc (1 # 200) ≤ r)%Qc ∧ (r ≤ q + Q2Qc (1 # 200))%Qc.
Proof.
  eexists. split; [reflexivity|].
  destruct (rint_half (q * Qc_of_Z 100)) as [H1 H2]. revert H1 H2.
  generalize (Qc_of_Z (rint (q * Qc_of_Z 100))). intros t H1 H2.
  qc2q_div. split; lra.
Qed.

(** X22 (rounding to two decimals).  Rounding a cell gives a value with at
    most two decimals; rounding again changes nothing; a real number moves
    by at most 0.005 and stays a real number, while NaN and the infinities
    are left as they are. *)
Theorem rounding_to_two_decimals (v : fval) :
  two_decimals (round2 v)
  ∧ round2 (round2 v) = round2 v
  ∧ (∀ q, v = Fin q →
       ∃ r, round2 v = Fin r
            ∧ (q - Q2Qc (1 # 200) ≤ r)%Qc ∧ (r ≤ q + Q2Qc (1 # 200))%Qc)
  ∧ (¬ is_finite v → round2 v = v).
Proof.
  split; [apply round2_is_two_decimals|].
  split; [apply round2_two_decimals, round2_is_two_decimals|].
  split; [intros q ->; apply round2_error|].
  apply round2_not_finite.
Qed.

(** X23 (every indicator cell of the enriched frame is rounded).  In the
    frame the engine returns, every cell of every appended column has at
    most two decimals, so that rounding the appended columns once more
    would not change them; the original columns are passed through as
    they are. *)
Theorem enriched_cells_are_rounded (df r : DataFrame) :
  calculate_all_indicators qsqrt df = Ok r →
  Forall (λ c, Forall two_decimals c.2 ∧ sround2 c.2 = c.2)
         (drop (length (df_cols df)) (df_cols r))
  ∧ take (length (df_cols df)) (df_cols r) = df_cols df.
Proof.
  intros Hr.
  apply calculate_all_indicators_Ok in Hr as (_ & sar_col & _ & ->).
  cbn [df_cols]. rewrite drop_app_length, take_app_length. split; [|done].
  unfold round_columns. apply Forall_fmap, Forall_true.
  intros [name s]. cbn [snd].
  assert (Forall two_decimals (sround2 s)) as H.
  { unfold sround2. apply Forall_fmap, Forall_true, round2_is_two_decimals. }
  split; [exact H|]. by apply sround2_two_decimals.
Qed.

End Rounding.

Lemma enriched_cells_are_rounded_witness :
  calculate_all_indicators qsqrt_fixed frame_a = Ok (enriched frame_a)
  ∧ Forall (λ c, Forall two_decimals c.2 ∧ sround2 c.2 = c.2)
           (drop 5 (df_cols (enriched frame_a))).
Proof.
  split; [exact frame_a_Ok|].
  exact (proj1 (enriched_cells_are_rounded qsqrt_fixed frame_a
                  (enriched frame_a) frame_a_Ok)).
Defined.

(** * Where the generator script and the engine agree *)

Section Agreement.

Variable qsqrt : Qc → Qc.

Lemma fmul_comm (x y : fval) : fmul x y = fmul y x.
Proof.
  destruct x as [a| | |], y as [b| | |]; try done.
  cbn [fmul]. f_equal. ring.
Qed.

Lemma zip_with_comm {A B} (f : A → A → B) (l k : list A) :
  (∀ x y, f x y = f y x) → zip_with f l k = zip_with f k l.
Proof.
  intros Hf. revert k. induction l as [|x l IH]; intros [|y k]; try done.
  simpl. by rewrite Hf, IH.
Qed.

Lemma rolling_apply_ext w (f g : list fval → fval) (s : Series) :
  (∀ win, length win = w → f win = g win) →
  rolling_apply w f s = rolling_apply w g s.
Proof.
  intros Hfg. unfold rolling_apply. apply imap_ext. intros i x Hx.
  unfold window_at. case_decide as Hw; [|done].
  rewrite Hfg; [done|].
  apply length_window; [done|]. by apply lookup_lt_Some in Hx.
Qed.

Lemma rolling_apply_compose w (f : list fval → fval) (g : fval → fval)
    (s : Series) :
  g NaN = NaN →
  rolling_apply w (λ win, g (f win)) s = map g (rolling_apply w f s).
Proof.
  intros Hg. apply list_eq. intros i.
  rewrite lookup_map. unfold rolling_apply. rewrite !list_lookup_imap.
  destruct (s !! i) as [x|]; [|done]. cbn [fmap option_fmap option_map].
  f_equal. destruct (window_at w s i) as [win|]; [|done].
  by destruct (forallb isfinite win).
Qed.

Lemma calculate_wma_eq (prices : Series) (period : nat) :
  Generator.calculate_wma prices period = wma prices period.
Proof.
  unfold Generator.calculate_wma, wma. apply rolling_apply_ext.
  intros win Hlen. unfold Generator.weighted_mean, wma_window.
  rewrite decide_False by lia. rewrite Hlen, Nat.sub_diag, drop_0.
  f_equal. f_equal. apply zip_with_comm, fmul_comm.
Qed.

Lemma calculate_aroon_eq (high low : Series) :
  Generator.calculate_aroon high low 25
  = (aroon_up high, aroon_down low, aroon_osc high low).
Proof.
  unfold Generator.calculate_aroon, aroon_osc, aroon_up, aroon_down, sdivc.
  change (25 + 1) with 26. change (Z.of_nat 25) with 25%Z.
  by rewrite !(rolling_apply_compose 26 _ (λ x, fdiv x (fz 25))).
Qed.

(** X24 (the weighted moving average of the two scripts).  The generator
    script's [calculate_wma], which guards against short windows and cuts
    the window itself, and the engine's WMA compute the same column for
    every series and period of at least 1 (in the exact arithmetic of this
    model; the
    two scripts add the weighted cells with different numpy calls): rolling
    windows always have exactly [period] rows, so the guard never fires.
    On a row with a full window of real numbers the value is the mean of
    the window weighted 1, 2, ..., [period], oldest first. *)
Theorem wma_agrees (prices : Series) (period i : nat) (qs : list Qc) :
  1 ≤ period →
  Generator.calculate_wma prices period = wma prices period
  ∧ (i < length prices → period ≤ S i →
     take period (drop (S i - period) prices) = map Fin qs →
     wma prices period !! i
     = Some (fdiv (fsum (zip_with fmul (map Fin qs)
                           (map (λ k, fz (Z.of_nat k)) (seq 1 period))))
                  (fsum (map (λ k, fz (Z.of_nat k)) (seq 1 period))))).
Proof.
  intros Hp1. split; [apply calculate_wma_eq|].
  intros Hi Hp Hwin. unfold wma.
  rewrite lookup_rolling_apply by done. unfold window_at.
  rewrite decide_True by done. rewrite Hwin, forallb_isfinite_Fin.
  unfold wma_window. rewrite <- Hwin, length_window by done. done.
Qed.

(** X25 (columns on which the two scripts agree).  For each of the 82
    column names in [agreeing_names] (the MACD family, the EMA, SMA, DEMA, TEMA,
    RSI, CCI, ROC, momentum, ATR and standard-deviation families, the
    Bollinger upper and lower bands and %B, the Donchian channel, the
    volume averages and ratio, MFI, +DI, Aroon, the pivot levels, the price
    changes and the price summaries) both scripts have the column and the
    generator script computes exactly the series that the engine computes
    before rounding, on the same high, low, close and volume. *)
Theorem generator_agrees_with_engine (high low close volume sar_col : Series) :
  Forall (λ name,
            is_Some (assoc name
                       (indicators qsqrt high low close volume sar_col))
            ∧ assoc name
                (Generator.indicator_columns qsqrt high low close volume)
              = assoc name (indicators qsqrt high low close volume sar_col))
         agreeing_names
  ∧ length agreeing_names = 82.
Proof.
  split; [|reflexivity].
  unfold Generator.indicator_columns.
  rewrite calculate_aroon_eq.
  cbv zeta. unfold per_period. cbn [map].
  unfold agreeing_names. cbn [map app].
  repeat (apply Forall_cons; split; [split; [by eexists|reflexivity]|]).
  by apply Forall_nil.
Qed.

End Agreement.

(** * The rolling standard deviation is never negative *)

Section Bollinger.

Variable qsqrt : Qc → Qc.
Hypothesis qsqrt_nonneg : ∀ q, (0 ≤ qsqrt q)%Qc.

Lemma fsqrt_nonneg (x : fval) : nonneg (fsqrt qsqrt x).
Proof.
  destruct x as [q| | |]; cbn [fsqrt]; try done.
  destruct (Qc_ltb q 0); [done|]. apply qsqrt_nonneg.
Qed.

Lemma rolling_std_nonneg (w : nat) (s : Series) :
  Forall nonneg (rolling_std qsqrt w s).
Proof.
  unfold rolling_std.
  apply (rolling_apply_Forall (λ _, True) nonneg); [|done|by apply Forall_true].
  intros win _. unfold std_window. apply fsqrt_nonneg.
Qed.

End Bollinger.

Lemma qsqrt_fixed_nonneg (q : Qc) : (0 ≤ qsqrt_fixed q)%Qc.
Proof.
  unfold qsqrt_fixed, Qcle, Q2Qc. cbn [this]. rewrite !Qred_correct.
  unfold Qle. cbn [Qnum Qden].
  pose proof (Z.sqrt_nonneg (Qnum q * Z.pos (Qden q) * 10 ^ 12)). lia.
Defined.

(** * The channels after rounding *)

Section Bands.

Variable qsqrt : Qc → Qc.

(** [rint] is monotone *)
Lemma rint_mono (x y : Qc) : (x ≤ y)%Qc → (rint x ≤ rint y)%Z.
Proof.
  intros Hxy.
  destruct (Z_le_gt_dec (rint x) (rint y)) as [H|H]; [exact H|].
  exfalso.
  assert (rint y + 1 ≤ rint x)%Z as Hz by lia.
  apply Z2Qc_inj_le in Hz. rewrite Z2Qc_inj_add, Z2Qc_inj_1 in Hz.
  destruct (rint_half x) as [Hx _]. destruct (rint_half y) as [_ Hy].
  assert (x = y) as Heq.
  { apply Qcle_antisym; [exact Hxy|].
    revert Hz Hx Hy. generalize (Qc_of_Z (rint x)) (Qc_of_Z (rint y)).
    intros tx ty Hz Hx Hy. qc2q. lra. }
  subst y. lia.
Qed.

(** rounding to two decimals keeps the order of two reals *)
Lemma round2_mono (x y x' y' : Qc) :
  (x ≤ y)%Qc → round2 (Fin x) = Fin x' → round2 (Fin y) = Fin y' →
  (x' ≤ y')%Qc.
Proof.
  intros Hxy [= <-] [= <-].
  assert (x * Qc_of_Z 100 ≤ y * Qc_of_Z 100)%Qc as H100.
  { qc2q_div. lra. }
  apply rint_mono, Z2Qc_inj_le in H100. revert H100.
  generalize (Qc_of_Z (rint (x * Qc_of_Z 100)))
             (Qc_of_Z (rint (y * Qc_of_Z 100))).
  intros tx ty H100. qc2q_div. lra.
Qed.

Lemma rounded_cell_inv (s : Series) (i : nat) (q : Qc) :
  sround2 s !! i = Some (Fin q) →
  ∃ q', s !! i = Some (Fin q') ∧ round2 (Fin q') = Fin q.
Proof.
  unfold sround2. rewrite lookup_map.
  destruct (s !! i) as [[q'| | |]|]; try done.
  intros H. exists q'. split; [done|].
  cbn [fmap option_fmap option_map] in H. congruence.
Qed.

(** a band of twice a non-negative deviation around a middle line, all
    three rounded: the order survives the rounding, and the two distances
    differ by at most 0.02 *)
Lemma band_cells (mid dev : Series) (i : nat) (u m lo : Qc) :
  Forall nonneg dev →
  sround2 (sadd mid (scale (fz 2) dev)) !! i = Some (Fin u) →
  sround2 mid !! i = Some (Fin m) →
  sround2 (ssub mid (scale (fz 2) dev)) !! i = Some (Fin lo) →
  (lo ≤ m)%Qc ∧ (m ≤ u)%Qc
  ∧ (Q2Qc (-2 # 100) ≤ (u - m) - (m - lo))%Qc
  ∧ ((u - m) - (m - lo) ≤ Q2Qc (2 # 100))%Qc.
Proof.
  intros Hdev Hu Hm Hl.
  apply rounded_cell_inv in Hu as (u' & Hu' & Hru).
  apply rounded_cell_inv in Hm as (e & He & Hrm).
  apply rounded_cell_inv in Hl as (lo' & Hl' & Hrl).
  unfold sadd, ssub, scale in Hu', Hl'.
  rewrite lookup_zip_with, lookup_map, He in Hu', Hl'.
  destruct (dev !! i) as [a|] eqn:Ha; [|done].
  pose proof (proj1 (Forall_lookup _ _) Hdev _ _ Ha) as Hna.
  cbn [mbind option_bind fmap option_fmap option_map] in Hu', Hl'.
  destruct a as [a| | |]; try done.
  cbn [fz fmul fadd fsub fneg] in Hu', Hl'.
  injection Hu' as <-. injection Hl' as <-.
  cbn [nonneg] in Hna.
  assert (0 ≤ Qc_of_Z 2 * a)%Qc as Hd.
  { pose proof Qc_of_Z_2_pos as H2. revert H2. generalize (Qc_of_Z 2).
    intros two H2. qc2q. nra. }
  revert Hd Hru Hrl. generalize (Qc_of_Z 2 * a)%Qc. intros d Hd Hru Hrl.
  assert (e - d ≤ e)%Qc as Hlo by (qc2q; lra).
  assert (e ≤ e + d)%Qc as Hup by (qc2q; lra).
  split; [exact (round2_mono _ _ _ _ Hlo Hrl Hrm)|].
  split; [exact (round2_mono _ _ _ _ Hup Hrm Hru)|].
  destruct (round2_error (e + d)) as (ru & Eu & Hu1 & Hu2).
  destruct (round2_error e) as (rm & Em & Hm1 & Hm2).
  destruct (round2_error (e + - d)) as (rl & El & Hl1 & Hl2).
  rewrite Hru in Eu. rewrite Hrm in Em. rewrite Hrl in El.
  injection Eu as <-. injection Em as <-. injection El as <-.
  qc2q. split; lra.
Qed.

Lemma indicators_bb high low close volume sar_col :
  let cols := indicators qsqrt high low close volume sar_col in
  (assoc "bb_middle_20" cols = Some (bb_middle 20 close)
   ∧ assoc "bb_upper_20" cols = Some (bb_upper qsqrt 20 close)
   ∧ assoc "bb_lower_20" cols = Some (bb_lower qsqrt 20 close))
  ∧ (assoc "bb_middle_50" cols = Some (bb_middle 50 close)
     ∧ assoc "bb_upper_50" cols = Some (bb_upper qsqrt 50 close)
     ∧ assoc "bb_lower_50" cols = Some (bb_lower qsqrt 50 close)).
Proof. repeat split; reflexivity. Qed.

(** X15 (the Keltner channel brackets its middle line).  In the frame the
    engine returns for bars with real [low <= high], on every row where
    the three Keltner columns hold real numbers, [kc_lower] is at most
    [kc_middle] and [kc_middle] at most [kc_upper].  The columns are
    rounded to two decimals one by one, so the two bands need not be at
    the same distance from the middle line: the two distances differ by at
    most 0.02. *)
Theorem keltner_brackets_middle (df r : DataFrame) (i : nat) (u m lo : Qc) :
  calculate_all_indicators qsqrt df = Ok r →
  Forall2 ordered (getcol "low" df) (getcol "high" df) →
  cell df r "kc_upper" i = Some (Fin u) →
  cell df r "kc_middle" i = Some (Fin m) →
  cell df r "kc_lower" i = Some (Fin lo) →
  (lo ≤ m)%Qc ∧ (m ≤ u)%Qc
  ∧ (Q2Qc (-2 # 100) ≤ (u - m) - (m - lo))%Qc
  ∧ ((u - m) - (m - lo) ≤ Q2Qc (2 # 100))%Qc.
Proof.
  intros Hr Hlh Hu Hm Hl.
  destruct (keltner_columns qsqrt df r Hr) as (Hcm & Hcu & Hcl).
  unfold cell in Hu, Hm, Hl. rewrite Hcu in Hu. rewrite Hcm in Hm.
  rewrite Hcl in Hl. cbn [mbind option_bind] in Hu, Hm, Hl.
  apply (band_cells (ewm_mean 20 (getcol "close" df))
           (atr 14 (getcol "high" df) (getcol "low" df) (getcol "close" df))
           i u m lo); [|exact Hu|exact Hm|exact Hl].
  by apply atr_nonneg.
Qed.

(** X26 (the Bollinger bands bracket the moving average).  With a square
    root that is never negative, in the frame the engine returns, for the
    periods 20 and 50 and on every row where the three Bollinger columns of
    the period hold real numbers, [bb_lower] is at most [bb_middle] and
    [bb_middle] at most [bb_upper].  The columns are rounded to two
    decimals one by one, so the two bands need not be at the same distance
    from the middle: the two distances differ by at most 0.02. *)
Theorem bollinger_brackets_middle (df r : DataFrame) (period i : nat)
    (u m lo : Qc) :
  (∀ q, (0 ≤ qsqrt q)%Qc) →
  calculate_all_indicators qsqrt df = Ok r →
  period ∈ [20; 50] →
  cell df r (fname "bb_upper_" period) i = Some (Fin u) →
  cell df r (fname "bb_middle_" period) i = Some (Fin m) →
  cell df r (fname "bb_lower_" period) i = Some (Fin lo) →
  (lo ≤ m)%Qc ∧ (m ≤ u)%Qc
  ∧ (Q2Qc (-2 # 100) ≤ (u - m) - (m - lo))%Qc
  ∧ ((u - m) - (m - lo) ≤ Q2Qc (2 # 100))%Qc.
Proof.
  intros Hsqrt Hr Hp Hu Hm Hl.
  assert (∀ name s,
            (∀ sar_col,
               assoc name (indicators qsqrt (getcol "high" df)
                             (getcol "low" df) (getcol "close" df)
                             (getcol "volume" df) sar_col) = Some s) →
            cell df r name i = sround2 s !! i) as Hcell.
  { intros name s Hs. unfold cell.
    by rewrite (indicator_column_spec qsqrt df r name s Hr Hs). }
  assert (period = 20 ∨ period = 50) as [-> | ->].
  { apply elem_of_cons in Hp as [->|Hp]; [by left|].
    apply elem_of_cons in Hp as [->|Hp]; [by right|].
    by apply elem_of_nil in Hp. }
  - rewrite (Hcell _ (bb_upper qsqrt 20 (getcol "close" df))) in Hu
      by (intros; apply indicators_bb).
    rewrite (Hcell _ (bb_middle 20 (getcol "close" df))) in Hm
      by (intros; apply indicators_bb).
    rewrite (Hcell _ (bb_lower qsqrt 20 (getcol "close" df))) in Hl
      by (intros; apply indicators_bb).
    apply (band_cells (rolling_mean 20 (getcol "close" df))
             (rolling_std qsqrt 20 (getcol "close" df)) i u m lo);
      [|exact Hu|exact Hm|exact Hl].
    by apply rolling_std_nonneg.
  - rewrite (Hcell _ (bb_upper qsqrt 50 (getcol "close" df))) in Hu
      by (intros; apply indicators_bb).
    rewrite (Hcell _ (bb_middle 50 (getcol "close" df))) in Hm
      by (intros; apply indicators_bb).
    rewrite (Hcell _ (bb_lower qsqrt 50 (getcol "close" df))) in Hl
      by (intros; apply indicators_bb).
    apply (band_cells (rolling_mean 50 (getcol "close" df))
             (rolling_std qsqrt 50 (getcol "close" df)) i u m lo);
      [|exact Hu|exact Hm|exact Hl].
    by apply rolling_std_nonneg.
Qed.

End Bands.

Lemma frame_zigzag_Ok :
  calculate_all_indicators qsqrt_fixed frame_zigzag
  = Ok (enriched frame_zigzag).
Proof. vm_compute. reflexivity. Defined.

Lemma ordered_zigzag :
  Forall2 ordered (getcol "low" frame_zigzag) (getcol "high" frame_zigzag).
Proof. repeat constructor; by vm_compute. Defined.

Lemma keltner_brackets_middle_witness :
  calculate_all_indicators qsqrt_fixed frame_zigzag
  = Ok (enriched frame_zigzag)
  ∧ Forall2 ordered (getcol "low" frame_zigzag) (getcol "high" frame_zigzag)
  ∧ cell frame_zigzag (enriched frame_zigzag) "kc_upper" 19
    = Some (fq 2114 100)
  ∧ cell frame_zigzag (enriched frame_zigzag) "kc_middle" 19
    = Some (fq 1614 100)
  ∧ cell frame_zigzag (enriched frame_zigzag) "kc_lower" 19
    = Some (fq 1114 100)
  ∧ (Q2Qc (1114 # 100) ≤ Q2Qc (1614 # 100))%Qc
  ∧ (Q2Qc (1614 # 100) ≤ Q2Qc (2114 # 100))%Qc.
Proof.
  assert (cell frame_zigzag (enriched frame_zigzag) "kc_upper" 19
          = Some (fq 2114 100)) as Hu by compute_done.
  assert (cell frame_zigzag (enriched frame_zigzag) "kc_middle" 19
          = Some (fq 1614 100)) as Hm by compute_done.
  assert (cell frame_zigzag (enriched frame_zigzag) "kc_lower" 19
          = Some (fq 1114 100)) as Hl by compute_done.
  split; [exact frame_zigzag_Ok|]. split; [exact ordered_zigzag|].
  split; [exact Hu|]. split; [exact Hm|]. split; [exact Hl|].
  destruct (keltner_brackets_middle qsqrt_fixed frame_zigzag
              (enriched frame_zigzag) 19 _ _ _ frame_zigzag_Ok
              ordered_zigzag Hu Hm Hl) as (H1 & H2 & _).
  split; [exact H1|exact H2].
Defined.

Lemma bollinger_brackets_middle_witness :
  (∀ q, (0 ≤ qsqrt_fixed q)%Qc)
  ∧ calculate_all_indicators qsqrt_fixed frame_zigzag
    = Ok (enriched frame_zigzag)
  ∧ 20 ∈ [20; 50]
  ∧ cell frame_zigzag (enriched frame_zigzag) (fname "bb_upper_" 20) 19
    = Some (fq 2174 100)
  ∧ cell frame_zigzag (enriched frame_zigzag) (fname "bb_middle_" 20) 19
    = Some (fq 1550 100)
  ∧ cell frame_zigzag (enriched frame_zigzag) (fname "bb_lower_" 20) 19
    = Some (fq 926 100)
  ∧ (Q2Qc (926 # 100) ≤ Q2Qc (1550 # 100))%Qc
  ∧ (Q2Qc (1550 # 100) ≤ Q2Qc (2174 # 100))%Qc.
Proof.
  assert (20 ∈ [20; 50]) as Hp by apply list_elem_of_here.
  assert (cell frame_zigzag (enriched frame_zigzag) (fname "bb_upper_" 20) 19
          = Some (fq 2174 100)) as Hu by compute_done.
  assert (cell frame_zigzag (enriched frame_zigzag) (fname "bb_middle_" 20) 19
          = Some (fq 1550 100)) as Hm by compute_done.
  assert (cell frame_zigzag (enriched frame_zigzag) (fname "bb_lower_" 20) 19
          = Some (fq 926 100)) as Hl by compute_done.
  split; [exact qsqrt_fixed_nonneg|]. split; [exact frame_zigzag_Ok|].
  split; [exact Hp|].
  split; [exact Hu|]. split; [exact Hm|]. split; [exact Hl|].
  destruct (bollinger_brackets_middle qsqrt_fixed frame_zigzag
              (enriched frame_zigzag) 20 19 _ _ _ qsqrt_fixed_nonneg
              frame_zigzag_Ok Hp Hu Hm Hl) as (H1 & H2 & _).
  split; [exact H1|exact H2].
Defined.

(** * Running sums skip missing cells *)

Section RunningSums.

Lemma cumsum_from_skips (a : Qc) (s : Series) :
  Forall fin_or_nan s →
  filter (λ v, notna v = true) (cumsum_from (Fin a) s)
  = cumsum_from (Fin a) (filter (λ v, notna v = true) s)
  ∧ map isnan (cumsum_from (Fin a) s) = map isnan s.
Proof.
  intros Hs. revert a. induction Hs as [|x s Hx Hs IH]; intros a; [done|].
  destruct x as [q| | |]; try done.
  - cbn [cumsum_from isnan fadd]. rewrite !filter_cons.
    cbn [notna isnan negb]. rewrite !decide_True by done.
    cbn [cumsum_from isnan fadd map].
    destruct (IH (a + q)%Qc) as [-> ->]. done.
  - cbn [cumsum_from isnan]. rewrite !filter_cons.
    cbn [notna isnan negb]. rewrite !decide_False by done.
    cbn [map isnan]. destruct (IH a) as [-> ->]. done.
Qed.

(** X27 (running sums skip missing cells).  On a series of real numbers
    and NaN, the running sum is NaN exactly on the rows where the input is
    NaN, and its other cells are the running sums of the input with the
    NaN cells left out: a missing cell neither resets the sum nor spreads
    to later rows.  This is how the A/D line passes over bars with
    [high = low]. *)
Theorem cumsum_skips_nan (s high low close volume : Series) :
  (Forall fin_or_nan s →
   filter (λ v, notna v = true) (cumsum s)
   = cumsum (filter (λ v, notna v = true) s)
   ∧ map isnan (cumsum s) = map isnan s)
  ∧ (Forall fin_or_nan (smul (mfm high low close) volume) →
     filter (λ v, notna v = true) (ad_line high low close volume)
     = cumsum (filter (λ v, notna v = true)
                      (smul (mfm high low close) volume))
     ∧ map isnan (ad_line high low close volume)
       = map isnan (smul (mfm high low close) volume)).
Proof.
  split.
  - intros Hs. unfold cumsum. rewrite fz0. by apply cumsum_from_skips.
  - intros Hs. unfold ad_line, cumsum. rewrite fz0.
    by apply cumsum_from_skips.
Qed.

End RunningSums.

(** * The duplicate-column cleaner *)

Section CleanerFacts.

Context {A : Type} `{EqDecision A}.

Implicit Types cols later : list (string * A).
Implicit Types checked : list string.

Lemma NoDup_fst_functional cols n (c c' : A) :
  NoDup (cols.*1) → (n, c) ∈ cols → (n, c') ∈ cols → c = c'.
Proof.
  induction cols as [|[n0 c0] cols IH]; intros Hnd H1 H2.
  { by apply elem_of_nil in H1. }
  cbn [fmap list_fmap fst] in Hnd. apply NoDup_cons in Hnd as [Hn0 Hnd].
  assert (∀ c1, (n0, c1) ∈ cols → False) as Hno.
  { intros c1 Hx. apply Hn0. apply list_elem_of_fmap. by exists (n0, c1). }
  apply elem_of_cons in H1 as [H1|H1]; apply elem_of_cons in H2 as [H2|H2].
  - congruence.
  - injection H1 as -> ->. exfalso. by eapply Hno.
  - injection H2 as -> ->. exfalso. by eapply Hno.
  - by apply IH.
Qed.

Lemma filter_none {B} (P : B → Prop) `{!∀ x, Decision (P x)} (l : list B) :
  (∀ x, x ∈ l → ¬ P x) → filter P l = [].
Proof.
  induction l as [|x l IH]; intros Hl; [done|].
  rewrite filter_cons, decide_False by (apply Hl, list_elem_of_here).
  apply IH. intros y Hy. by apply Hl, list_elem_of_further.
Qed.

Lemma scan_later_spec c1 later checked :
  NoDup (later.*1) →
  (Cleaner.scan_later c1 later checked).1
  = (filter (λ x, (x.1 ∉ checked) ∧ x.2 = c1) later).*1
  ∧ (∀ n, n ∈ (Cleaner.scan_later c1 later checked).2
          ↔ n ∈ (Cleaner.scan_later c1 later checked).1 ∨ n ∈ checked)
  ∧ ((Cleaner.scan_later c1 later checked).1 = [] →
     (Cleaner.scan_later c1 later checked).2 = checked).
Proof.
  revert checked. induction later as [|[n2 c2] r IH]; intros checked Hnd.
  { cbn. split; [done|]. split; [|done]. intros n. rewrite elem_of_nil.
    tauto. }
  cbn [fmap list_fmap fst] in Hnd. apply NoDup_cons in Hnd as [Hn2 Hnd].
  cbn [Cleaner.scan_later]. rewrite filter_cons. cbn [fst snd].
  destruct (decide (n2 ∈ checked)) as [Hin|Hin].
  { rewrite decide_False by (intros [? _]; done). by apply IH. }
  destruct (decide (c1 = c2)) as [<-|Hne].
  - rewrite decide_True by done.
    destruct (IH (n2 :: checked) Hnd) as (Hd & Hch & _).
    destruct (Cleaner.scan_later c1 r (n2 :: checked)) as [dups checked'].
    cbn [fst snd] in *. split; [|split; [|done]].
    + cbn [fmap list_fmap fst]. f_equal. rewrite Hd. f_equal.
      apply filter_ext_in. intros [n c] Hx. cbn [fst snd].
      assert (n ≠ n2) as Hnn.
      { intros ->. apply Hn2. apply list_elem_of_fmap. by exists (n2, c). }
      rewrite not_elem_of_cons. tauto.
    + intros n. rewrite Hch, !elem_of_cons. tauto.
  - rewrite decide_False by (intros [_ ?]; done). by apply IH.
Qed.

(** what the outer loop collects, under the invariant that a remaining
    column is in [checked] exactly when its content was seen before *)
Lemma scan_spec cols checked (seen : list A) :
  NoDup (cols.*1) →
  (∀ n c, (n, c) ∈ cols → (n ∈ checked ↔ c ∈ seen)) →
  (∀ n, n ∈ concat ((Cleaner.scan cols checked).*2) →
        n ∈ cols.*1 ∧ n ∉ checked)
  ∧ filter (λ x, (x.1 ∉ checked)
                 ∧ (x.1 ∉ concat ((Cleaner.scan cols checked).*2))) cols
    = Cleaner.firsts seen cols
  ∧ Forall (λ e, e.2 ≠ []) (Cleaner.scan cols checked).
Proof.
  revert checked seen.
  induction cols as [|[n1 c1] later IH]; intros checked seen Hnd Hinv.
  { cbn. split; [|done]. intros n Hn. by apply elem_of_nil in Hn. }
  cbn [fmap list_fmap fst] in Hnd. apply NoDup_cons in Hnd as [Hn1 Hnd].
  assert (∀ n c, (n, c) ∈ later → n ≠ n1) as Hlater.
  { intros n c Hx ->. apply Hn1. apply list_elem_of_fmap. by exists (n1, c). }
  cbn [Cleaner.scan Cleaner.firsts]. rewrite filter_cons. cbn [fst snd].
  destruct (decide (n1 ∈ checked)) as [Hin|Hin].
  { rewrite decide_False by (intros [? _]; done).
    rewrite decide_True
      by (apply (Hinv n1 c1); [apply list_elem_of_here|done]).
    destruct (IH checked seen Hnd) as (HD & Hf & Hne).
    { intros n c Hx. apply Hinv. by apply list_elem_of_further. }
    split; [|done]. intros n Hn. destruct (HD n Hn) as [H1 H2].
    split; [|done]. cbn [fmap list_fmap fst]. by apply list_elem_of_further. }
  assert (c1 ∉ seen) as Hc1.
  { intros Hc. apply Hin. apply (Hinv n1 c1); [apply list_elem_of_here|done]. }
  rewrite (decide_False (P := c1 ∈ seen)) by done.
  destruct (scan_later_spec c1 later checked Hnd) as (Hd & Hch & Hnil).
  destruct (Cleaner.scan_later c1 later checked) as [dups checked'].
  cbn [fst snd] in Hd, Hch, Hnil.
  assert (∀ n, n ∈ dups → n ∈ later.*1 ∧ n ∉ checked) as Hdups.
  { intros n Hn. rewrite Hd in Hn.
    apply list_elem_of_fmap in Hn as ([n' c'] & -> & Hx).
    apply list_elem_of_filter in Hx as [[Hx1 _] Hx2]. cbn [fst] in *.
    split; [|done]. apply list_elem_of_fmap. by exists (n', c'). }
  assert (∀ n c, (n, c) ∈ later → (n ∈ dups ↔ (n ∉ checked) ∧ c = c1))
    as Hdups'.
  { intros n c Hx. rewrite Hd. split.
    - intros Hn. apply list_elem_of_fmap in Hn as ([n' c'] & Heq & Hx').
      cbn [fst] in Heq. subst n'.
      apply list_elem_of_filter in Hx' as [[Hx1 Hx2] Hx3]. cbn [fst snd] in *.
      assert (c' = c) as ->; [|done].
      by apply (NoDup_fst_functional later n).
    - intros [Hn ->]. apply list_elem_of_fmap. exists (n, c1).
      split; [done|]. by apply list_elem_of_filter. }
  destruct dups as [|d0 dups].
  - specialize (Hnil eq_refl). subst checked'.
    destruct (IH checked (c1 :: seen) Hnd) as (HD & Hf & Hne).
    { intros n c Hx. rewrite elem_of_cons.
      pose proof (Hinv n c ltac:(by apply list_elem_of_further)) as Hi.
      pose proof (Hdups' n c Hx) as Hdd. rewrite elem_of_nil in Hdd.
      destruct (decide (n ∈ checked)); tauto. }
    split; [|split; [|done]].
    + intros n Hn. destruct (HD n Hn) as [H1 H2]. split; [|done].
      cbn [fmap list_fmap fst]. by apply list_elem_of_further.
    + rewrite decide_True; [by rewrite Hf|]. split; [done|].
      intros Hn. by apply HD in Hn as [Hn _].
  - destruct (IH (n1 :: checked') (c1 :: seen) Hnd) as (HD & Hf & Hne).
    { intros n c Hx. rewrite !elem_of_cons, Hch.
      pose proof (Hinv n c ltac:(by apply list_elem_of_further)) as Hi.
      pose proof (Hdups' n c Hx) as Hdd.
      pose proof (Hlater n c Hx).
      destruct (decide (n ∈ checked)); tauto. }
    cbn [fmap list_fmap snd concat].
    split; [|split].
    + intros n Hn. apply elem_of_app in Hn as [Hn|Hn].
      * destruct (Hdups n Hn) as [H1 H2]. split; [|done].
        cbn [fmap list_fmap fst]. by apply list_elem_of_further.
      * destruct (HD n Hn) as [H1 H2]. split.
        -- cbn [fmap list_fmap fst]. by apply list_elem_of_further.
        -- intros Hc. apply H2. apply list_elem_of_further. apply Hch.
           by right.
    + rewrite decide_True.
      * f_equal. rewrite <- Hf. apply filter_ext_in. intros [n c] Hx.
        cbn [fst]. rewrite elem_of_app, !elem_of_cons, Hch.
        pose proof (Hlater n c Hx). rewrite !elem_of_cons. tauto.
      * split; [done|]. intros Hn. apply elem_of_app in Hn as [Hn|Hn].
        -- by apply Hdups in Hn as [Hn _].
        -- by apply HD in Hn as [Hn _].
    + constructor; [done|exact Hne].
Qed.

Lemma count_NoDup (names : list string) (n : string) :
  NoDup names → length (filter (λ m, m = n) names) ≤ 1.
Proof.
  induction 1 as [|m names Hm Hnd IH]; [simpl; lia|].
  rewrite filter_cons. destruct (decide (m = n)) as [->|]; [|done].
  assert (filter (λ m, m = n) names = []) as ->; [|simpl; lia].
  apply filter_none. by intros x Hx ->.
Qed.

Lemma name_duplicates_NoDup cols :
  NoDup (cols.*1) → Cleaner.name_duplicates cols = [].
Proof.
  intros Hnd. unfold Cleaner.name_duplicates. apply filter_none.
  intros n _. pose proof (count_NoDup (cols.*1) n Hnd). lia.
Qed.

Lemma filter_all {B} (P : B → Prop) `{!∀ x, Decision (P x)} (l : list B) :
  (∀ x, x ∈ l → P x) → filter P l = l.
Proof.
  induction l as [|x l IH]; intros Hl; [done|].
  rewrite filter_cons, decide_True by (apply Hl, list_elem_of_here).
  f_equal. apply IH. intros y Hy. by apply Hl, list_elem_of_further.
Qed.

Lemma filter_id_Forall {B} (P : B → Prop) `{!∀ x, Decision (P x)}
    (l : list B) :
  filter P l = l → ∀ x, x ∈ l → P x.
Proof.
  induction l as [|y l IH]; intros Hf x Hx; [by apply elem_of_nil in Hx|].
  rewrite filter_cons in Hf. destruct (decide (P y)) as [Hy|Hy].
  - injection Hf as Hf. apply elem_of_cons in Hx as [->|Hx]; [done|].
    by apply IH.
  - pose proof (length_filter P l) as Hlen. rewrite Hf in Hlen.
    simpl in Hlen. lia.
Qed.

(** the cleaner keeps the first column of each content *)
Lemma clean_file_firsts cols :
  NoDup (cols.*1) → Cleaner.clean_file cols = Cleaner.firsts [] cols.
Proof.
  intros Hnd. unfold Cleaner.clean_file, Cleaner.check_duplicate_columns.
  rewrite name_duplicates_NoDup by done.
  destruct (scan_spec cols [] [] Hnd) as (HD & Hf & Hne).
  { intros n c _. rewrite !elem_of_nil. tauto. }
  assert (filter (λ x, x.1 ∉ concat ((Cleaner.scan cols []).*2)) cols
          = Cleaner.firsts [] cols) as Hf'.
  { rewrite <- Hf. apply filter_ext_in. intros x _. rewrite elem_of_nil.
    tauto. }
  destruct (Cleaner.scan cols []) as [|e es] eqn:Hscan.
  - rewrite <- Hf'. cbn [fmap list_fmap concat]. symmetry.
    apply filter_all. intros x _. apply not_elem_of_nil.
  - unfold Cleaner.remove_duplicate_columns. cbn [app].
    rewrite decide_True
      by (apply Forall_forall; intros n Hn; by apply HD in Hn as [Hn _]).
    apply Forall_cons in Hne as [He _].
    destruct (concat ((e :: es).*2)) as [|d ds] eqn:Hcat.
    + cbn [fmap list_fmap concat] in Hcat. by destruct e as [? [|]].
    + exact Hf'.
Qed.

Lemma firsts_sublist (seen : list A) cols :
  Cleaner.firsts seen cols `sublist_of` cols.
Proof.
  revert seen. induction cols as [|[n c] r IH]; intros seen; [done|].
  cbn [Cleaner.firsts]. destruct (decide (c ∈ seen)).
  - by apply sublist_cons.
  - by apply sublist_skip.
Qed.

Lemma firsts_contents (seen : list A) cols :
  NoDup ((Cleaner.firsts seen cols).*2)
  ∧ ∀ n c, (n, c) ∈ Cleaner.firsts seen cols → c ∉ seen.
Proof.
  revert seen. induction cols as [|[n0 c0] r IH]; intros seen.
  { split; [constructor|]. intros n c Hx. by apply elem_of_nil in Hx. }
  cbn [Cleaner.firsts]. destruct (decide (c0 ∈ seen)) as [Hin|Hin].
  { apply IH. }
  destruct (IH (c0 :: seen)) as [Hnd Hout]. split.
  - cbn [fmap list_fmap snd]. apply NoDup_cons. split; [|done].
    intros Hc. apply list_elem_of_fmap in Hc as ([n c] & Heq & Hx).
    cbn [snd] in Heq. subst c. apply (Hout n c0 Hx). apply list_elem_of_here.
  - intros n c Hx. apply elem_of_cons in Hx as [[= -> ->]|Hx]; [done|].
    intros Hc. apply (Hout n c Hx). by apply list_elem_of_further.
Qed.

Lemma firsts_covers (seen : list A) cols n c :
  (n, c) ∈ cols → c ∈ seen ∨ ∃ n', (n', c) ∈ Cleaner.firsts seen cols.
Proof.
  revert seen. induction cols as [|[n0 c0] r IH]; intros seen Hx.
  { by apply elem_of_nil in Hx. }
  cbn [Cleaner.firsts]. apply elem_of_cons in Hx as [[= -> ->]|Hx].
  - destruct (decide (c0 ∈ seen)); [by left|].
    right. exists n0. apply list_elem_of_here.
  - destruct (decide (c0 ∈ seen)); [by apply IH|].
    destruct (IH (c0 :: seen) Hx) as [Hc|[n' Hn']].
    + apply elem_of_cons in Hc as [->|Hc]; [|by left].
      right. exists n0. apply list_elem_of_here.
    + right. exists n'. by apply list_elem_of_further.
Qed.

Lemma firsts_is_first (seen : list A) cols i j n n' c :
  NoDup (cols.*1) →
  cols !! i = Some (n, c) → (n, c) ∈ Cleaner.firsts seen cols →
  cols !! j = Some (n', c) → i ≤ j.
Proof.
  revert seen i j. induction cols as [|[n0 c0] r IH]; intros seen i j Hnd Hi Hin Hj.
  { done. }
  destruct i as [|i]; [lia|]. cbn in Hi.
  cbn [fmap list_fmap fst] in Hnd. apply NoDup_cons in Hnd as [Hn0 Hnd].
  assert (n ≠ n0) as Hne.
  { intros ->. apply Hn0. apply list_elem_of_fmap. exists (n0, c).
    split; [done|]. by eapply list_elem_of_lookup_2. }
  cbn [Cleaner.firsts] in Hin.
  destruct j as [|j].
  - exfalso. cbn in Hj. injection Hj as -> ->.
    destruct (decide (c ∈ seen)) as [Hc|Hc].
    + by apply (proj2 (firsts_contents seen r) n c Hin).
    + apply elem_of_cons in Hin as [[= ->]|Hin]; [done|].
      apply (proj2 (firsts_contents (c :: seen) r) n c Hin).
      apply list_elem_of_here.
  - cbn in Hj. apply le_n_S.
    destruct (decide (c0 ∈ seen)).
    + by apply (IH seen).
    + apply elem_of_cons in Hin as [[= -> ->]|Hin]; [done|].
      by apply (IH (c0 :: seen)).
Qed.

Lemma firsts_id (seen : list A) cols :
  NoDup (cols.*2) → (∀ n c, (n, c) ∈ cols → c ∉ seen) →
  Cleaner.firsts seen cols = cols.
Proof.
  revert seen. induction cols as [|[n0 c0] r IH]; intros seen Hnd Hout;
    [done|].
  cbn [fmap list_fmap snd] in Hnd. apply NoDup_cons in Hnd as [Hc0 Hnd].
  cbn [Cleaner.firsts].
  rewrite decide_False by (apply (Hout n0); apply list_elem_of_here).
  f_equal. apply IH; [done|]. intros n c Hx Hc.
  apply elem_of_cons in Hc as [->|Hc].
  - apply Hc0. apply list_elem_of_fmap. by exists (n, c0).
  - by apply (Hout n c (list_elem_of_further _ _ _ Hx)).
Qed.

(** X28 (the cleaner keeps the first column of each group of equal
    columns).  On a file with distinct column names the check reports no
    duplicate name, and after the cleaning the file holds a sub-sequence of
    its former columns in which no two columns are equal, every former
    column has an equal column left, and the column left of each group is
    the one that came first in the file. *)
Theorem cleaner_keeps_first_of_each_content cols :
  NoDup (cols.*1) →
  let out := Cleaner.clean_file cols in
  (Cleaner.check_duplicate_columns cols).1.2 = []
  ∧ out `sublist_of` cols
  ∧ NoDup (out.*2)
  ∧ (∀ n c, (n, c) ∈ cols → ∃ n', (n', c) ∈ out)
  ∧ (∀ i j n n' c, cols !! i = Some (n, c) → (n, c) ∈ out →
                   cols !! j = Some (n', c) → i ≤ j).
Proof.
  intros Hnd. cbv zeta. rewrite clean_file_firsts by done.
  split; [by apply name_duplicates_NoDup|].
  split; [apply firsts_sublist|].
  split; [apply firsts_contents|]. split.
  - intros n c Hx. destruct (firsts_covers [] cols n c Hx) as [Hc|Hc];
      [by apply elem_of_nil in Hc|done].
  - intros i j n n' c. by apply firsts_is_first.
Qed.

(** X29 (a second cleaning finds nothing).  On a file with distinct column
    names, a check of the cleaned file reports neither a duplicate name
    nor a group of equal columns, and cleaning it again leaves it as it
    is. *)
Theorem cleaner_is_idempotent cols :
  NoDup (cols.*1) →
  let out := Cleaner.clean_file cols in
  Cleaner.check_duplicate_columns out = (length out, [], [])
  ∧ Cleaner.clean_file out = out.
Proof.
  intros Hnd. cbv zeta. rewrite clean_file_firsts by done.
  set (out := Cleaner.firsts [] cols).
  assert (NoDup (out.*1)) as Hnd'.
  { eapply sublist_NoDup; [exact Hnd|]. apply fmap_sublist, firsts_sublist. }
  assert (Cleaner.firsts [] out = out) as Hid.
  { apply firsts_id; [apply firsts_contents|].
    intros n c _. apply not_elem_of_nil. }
  assert (Cleaner.scan out [] = []) as Hscan.
  { destruct (scan_spec out [] [] Hnd') as (HD & Hf & Hne).
    { intros n c _. rewrite !elem_of_nil. tauto. }
    rewrite Hid in Hf.
    assert (concat ((Cleaner.scan out []).*2) = []) as Hcat.
    { destruct (concat ((Cleaner.scan out []).*2)) as [|d ds] eqn:E; [done|].
      exfalso. destruct (HD d (list_elem_of_here _ _)) as [Hd _].
      apply list_elem_of_fmap in Hd as ([n c] & -> & Hx).
      apply (filter_id_Forall _ _ Hf) in Hx as [_ Hx]. apply Hx.
      apply list_elem_of_here. }
    destruct (Cleaner.scan out []) as [|e es]; [done|].
    apply Forall_cons in Hne as [He _].
    cbn [fmap list_fmap concat] in Hcat. by destruct e as [? [|]]. }
  split.
  - unfold Cleaner.check_duplicate_columns.
    by rewrite name_duplicates_NoDup, Hscan.
  - by rewrite clean_file_firsts.
Qed.

(** a column that has an equal column before it does not survive *)
Lemma clean_file_drops_later cols i j n n' (c : A) :
  NoDup (cols.*1) →
  cols !! i = Some (n, c) → cols !! j = Some (n', c) → j < i →
  n ∉ (Cleaner.clean_file cols).*1.
Proof.
  intros Hnd Hi Hj Hlt Hin. rewrite clean_file_firsts in Hin by done.
  apply list_elem_of_fmap in Hin as ([n0 c0] & Heq & Hx). cbn [fst] in Heq.
  subst n0.
  assert ((n, c0) ∈ cols) as Hx'.
  { eapply elem_of_sublist; [exact Hx|apply firsts_sublist]. }
  assert (c0 = c) as ->.
  { apply (NoDup_fst_functional cols n); [done..|].
    by eapply list_elem_of_lookup_2. }
  pose proof (firsts_is_first [] cols i j n n' c Hnd Hi Hx Hj). lia.
Qed.

End CleanerFacts.

Section CleanerAfterEngine.

Variable qsqrt : Qc → Qc.

(** X30 (the cleaner removes three indicator columns of every swept file).
    In the frame that the engine returns, [bb_middle_20], [bb_middle_50]
    and [kc_middle] are each equal to a column written before it
    ([sma_20], [sma_50] and [ema_20]).  So for every file that holds the
    columns of that frame, with any date column, as the sweep writes it,
    and whose column names are distinct, the duplicate-column cleaner
    removes these three columns, whatever the prices are. *)
Theorem cleaner_drops_engine_twins (df r out : DataFrame) :
  calculate_all_indicators qsqrt df = Ok r →
  df_cols out = df_cols r →
  NoDup ((file_columns out).*1) →
  let cleaned := Cleaner.clean_file (file_columns out) in
  (indicator_column df r "bb_middle_20" = indicator_column df r "sma_20"
   ∧ indicator_column df r "bb_middle_50" = indicator_column df r "sma_50"
   ∧ indicator_column df r "kc_middle" = indicator_column df r "ema_20")
  ∧ ("bb_middle_20" ∈ (file_columns out).*1 ∧ "bb_middle_20" ∉ cleaned.*1)
  ∧ ("bb_middle_50" ∈ (file_columns out).*1 ∧ "bb_middle_50" ∉ cleaned.*1)
  ∧ ("kc_middle" ∈ (file_columns out).*1 ∧ "kc_middle" ∉ cleaned.*1).
Proof.
  intros Hr Hout Hnd. cbv zeta.
  apply calculate_all_indicators_Ok in Hr as (_ & sar_col & _ & ->).
  unfold indicator_column. cbn [df_cols] in *. rewrite drop_app_length.
  unfold file_columns in *. rewrite Hout in *. clear Hout.
  set (I := round_columns _) in *.
  set (wrap := λ '(n, s), (n, inr s)) in *.
  assert (∀ pre : list (string * (list datecell + Series)),
            pre ++ map wrap (df_cols df ++ I)
            = (pre ++ map wrap (df_cols df)) ++ map wrap I) as Hsplit.
  { intros pre. by rewrite (map_app wrap), app_assoc. }
  rewrite Hsplit in Hnd. rewrite Hsplit. clear Hsplit.
  set (base := _ ++ map wrap (df_cols df)) in *.
  assert (∀ k n c, I !! k = Some (n, c) →
            (base ++ map wrap I) !! (length base + k) = Some (n, inr c))
    as Hlook.
  { intros k n c Hx. rewrite lookup_app_r by lia.
    replace (length base + k - length base) with k by lia.
    by rewrite lookup_map, Hx. }
  assert (∀ i j n n' c, I !! i = Some (n, c) → I !! j = Some (n', c) →
            j < i →
            n ∈ (base ++ map wrap I).*1
            ∧ n ∉ (Cleaner.clean_file (base ++ map wrap I)).*1)
    as Htwin.
  { intros i j n n' c Hi Hj Hlt. split.
    - apply list_elem_of_fmap. exists (n, inr c). split; [done|].
      eapply list_elem_of_lookup_2. by apply Hlook.
    - apply (clean_file_drops_later (base ++ map wrap I) (length base + i)
               (length base + j) n n' (inr c) Hnd);
        [by apply Hlook|by apply Hlook|lia]. }
  split; [by repeat split|].
  split; [|split].
  - apply (Htwin 61 22 "bb_middle_20" "sma_20"
             (sround2 (rolling_mean 20 (getcol "close" df))));
      [reflexivity|reflexivity|lia].
  - apply (Htwin 66 24 "bb_middle_50" "sma_50"
             (sround2 (rolling_mean 50 (getcol "close" df))));
      [reflexivity|reflexivity|lia].
  - apply (Htwin 77 9 "kc_middle" "ema_20"
             (sround2 (ewm_mean 20 (getcol "close" df))));
      [reflexivity|reflexivity|lia].
Qed.

End CleanerAfterEngine.

Lemma cleaner_keeps_first_of_each_content_witness :
  NoDup ([("a", 1); ("b", 2); ("c", 1)].*1)
  ∧ Cleaner.clean_file [("a", 1); ("b", 2); ("c", 1)] `sublist_of`
      [("a", 1); ("b", 2); ("c", 1)]
  ∧ NoDup ((Cleaner.clean_file [("a", 1); ("b", 2); ("c", 1)]).*2).
Proof.
  assert (NoDup ([("a", 1); ("b", 2); ("c", 1)].*1)) as Hnd by compute_done.
  split; [exact Hnd|].
  destruct (cleaner_keeps_first_of_each_content
              [("a", 1); ("b", 2); ("c", 1)] Hnd) as (_ & H1 & H2 & _).
  split; [exact H1|exact H2].
Defined.

Lemma cleaner_is_idempotent_witness :
  NoDup ([("a", 1); ("b", 2); ("c", 1)].*1)
  ∧ Cleaner.clean_file (Cleaner.clean_file [("a", 1); ("b", 2); ("c", 1)])
    = Cleaner.clean_file [("a", 1); ("b", 2); ("c", 1)].
Proof.
  assert (NoDup ([("a", 1); ("b", 2); ("c", 1)].*1)) as Hnd by compute_done.
  split; [exact Hnd|].
  exact (proj2 (cleaner_is_idempotent [("a", 1); ("b", 2); ("c", 1)] Hnd)).
Defined.

Lemma cleaner_drops_engine_twins_witness :
  calculate_all_indicators qsqrt_fixed frame_a = Ok (enriched frame_a)
  ∧ NoDup ((file_columns (enriched frame_a)).*1)
  ∧ "bb_middle_20"
    ∉ (Cleaner.clean_file (file_columns (enriched frame_a))).*1.
Proof.
  assert (NoDup ((file_columns (enriched frame_a)).*1)) as Hnd
    by compute_done.
  split; [exact frame_a_Ok|]. split; [exact Hnd|].
  destruct (cleaner_drops_engine_twins qsqrt_fixed frame_a (enriched frame_a)
              (enriched frame_a) frame_a_Ok eq_refl Hnd) as (_ & [_ H] & _).
  exact H.
Defined.

Lemma flat_prices_witness :
  1 ≤ 12
  ∧ ewm_mean 12 (replicate 3 (fz 5)) = replicate 3 (fz 5)
  ∧ macd (replicate 3 (fz 5)) = replicate 3 (Fin 0%Qc).
Proof.
  assert (1 ≤ 12) as Hs by lia.
  split; [exact Hs|].
  destruct (flat_prices 12 3 (Qc_of_Z 5) Hs) as (H1 & _ & _ & H2 & _).
  split; [exact H1|exact H2].
Defined.

Lemma wma_agrees_witness :
  1 ≤ 2
  ∧ Generator.calculate_wma [fz 10; fz 11; fz 12] 2
    = wma [fz 10; fz 11; fz 12] 2.
Proof.
  assert (1 ≤ 2) as Hp by lia.
  split; [exact Hp|].
  exact (proj1 (wma_agrees [fz 10; fz 11; fz 12] 2 0 [] Hp)).
Defined.
